(** * DNA sequence alignment tool (src/test1.cpp): model and verification

    The program indexes every substring of a reference DNA string by a
    polynomial rolling hash (forward strand, then reverse complement),
    plans a minimum-segment cover of the query by dynamic programming over
    that index, and walks the recorded decisions into a list of segments.

    Conventions of the embedding:
    - [std::string] is [list ascii]; [s[i]] is the head of the suffix the
      loop is standing on (index loops walk the suffix and carry the index);
    - [uint64]/[size_t] values are [Z]; arithmetic whose result is stored is
      written with its wrap-around [wrap64]; loop counters are bounded by the
      size of the container they index, itself a [size_t];
    - [unordered_map<uint64, RefSeq>] is [gmap Z RefSeq];
    - [vector<T>] is [list T], written by index with stdpp's list insert;
    - a thrown [runtime_error] is the [Throw] case of [result]. *)

From Stdlib Require Import ZArith Lia Ascii String List.
From stdpp Require Import gmap list strings sorting.

Open Scope Z_scope.

(** ** Exceptions *)

Inductive exn : Type :=
| InvalidDNA (c : ascii)      (* "Invalid DNA character: 'c'" *)
| AlignmentBreak (pos : Z)    (* "Alignment break: No match found at position pos" *)
| InvalidInput (name : string) (c : ascii). (* validate_dna's message *)

Inductive result (A : Type) : Type :=
| Ok (a : A)
| Throw (e : exn).
Arguments Ok {A} a.
Arguments Throw {A} e.

#[global] Instance result_ret : MRet result := λ A a, Ok a.
#[global] Instance result_bind : MBind result :=
  λ A B f m, match m with Ok a => f a | Throw e => Throw e end.

(** ** Machine integers *)

(** [const uint64 MOD = 10000000000007ULL] *)
Definition MOD : Z := 10000000000007.

(** Arithmetic on [unsigned long long] / [size_t] is modulo 2^64. *)
Definition wrap64 (z : Z) : Z := z mod 2 ^ 64.

(** Conversion of an unsigned value to the 32-bit [int] loop variable of
    [find_optimal_path] (two's complement, modular). *)
Definition to_int (z : Z) : Z := (z + 2 ^ 31) mod 2 ^ 32 - 2 ^ 31.

(** [numeric_limits<uint64_t>::max() - 20]: the "unreachable" cost. *)
Definition UNREACHABLE : Z := 2 ^ 64 - 1 - 20.

(** ** Symbol codec *)

(** The [switch] of [reverse_dna]. *)
Definition complement (c : ascii) : result ascii :=
  match c with
  | "A"%char => Ok "T"%char
  | "T"%char => Ok "A"%char
  | "C"%char => Ok "G"%char
  | "G"%char => Ok "C"%char
  | _ => Throw (InvalidDNA c)
  end.

(** The loop of [reverse_dna]: [it] runs over the characters of [dna] from
    the back, [rev] is the string built so far. *)
Fixpoint reverse_dna_loop (it : list ascii) (rev : list ascii)
  : result (list ascii) :=
  match it with
  | [] => Ok rev
  | c :: it' => c' ← complement c; reverse_dna_loop it' (rev ++ [c'])
  end.

Definition reverse_dna (dna : list ascii) : result (list ascii) :=
  reverse_dna_loop (rev dna) [].

Definition dna_to_num (dna : ascii) : result Z :=
  match dna with
  | "A"%char => Ok 1
  | "T"%char => Ok 2
  | "C"%char => Ok 3
  | "G"%char => Ok 4
  | _ => Throw (InvalidDNA dna)
  end.

(** [hash = (hash * 5 + dna_to_num(c)) % MOD] *)
Definition hash_step (hash : Z) (c : ascii) : result Z :=
  d ← dna_to_num c; Ok (wrap64 (hash * 5 + d) mod MOD).

(** ** Data *)

(** [struct RefSeq { uint64 start; uint64 end; bool reverse; }] *)
Record RefSeq : Type := mkRefSeq {
  rs_start : Z;
  rs_end : Z;
  rs_reverse : bool
}.

(** [struct Trace { RefSeq ref_seq; uint64 next, query_start, query_end; }] *)
Record Trace : Type := mkTrace {
  t_ref_seq : RefSeq;
  t_next : Z;
  t_query_start : Z;
  t_query_end : Z
}.

(** [struct MatchSegment { RefSeq ref_info; uint64 query_start, query_end; }] *)
Record MatchSegment : Type := mkMatchSegment {
  seg_ref_info : RefSeq;
  seg_query_start : Z;
  seg_query_end : Z
}.

#[global] Instance RefSeq_eq_dec : EqDecision RefSeq.
Proof. solve_decision. Defined.
#[global] Instance Trace_eq_dec : EqDecision Trace.
Proof. solve_decision. Defined.
#[global] Instance MatchSegment_eq_dec : EqDecision MatchSegment.
Proof. solve_decision. Defined.

(** ** Reference index *)

(** The location stored for the substring [start, end] of [seq]. *)
Definition location (dna_len : Z) (reverse : bool) (start end_ : Z) : RefSeq :=
  if reverse
  then mkRefSeq (wrap64 (dna_len - end_ - 1)) (wrap64 (dna_len - start - 1)) reverse
  else mkRefSeq start end_ reverse.

(** Inner loop of [build_reference_hash]: [seq_end] is the suffix of [seq]
    starting at index [end_]; the loop stops when it is exhausted
    ([end_ = dna_len]). *)
Fixpoint build_ends (dna_len : Z) (reverse : bool) (start : Z)
    (seq_end : list ascii) (end_ : Z) (hash : Z) (map : gmap Z RefSeq)
  : result (gmap Z RefSeq) :=
  match seq_end with
  | [] => Ok map
  | c :: rest =>
      hash' ← hash_step hash c;
      let map' :=
        match map !! hash' with
        | Some _ => map
        | None => <[hash' := location dna_len reverse start end_]> map
        end in
      build_ends dna_len reverse start rest (end_ + 1) hash' map'
  end.

(** Outer loop: [seq_start] is the suffix of [seq] starting at [start]. *)
Fixpoint build_starts (dna_len : Z) (reverse : bool)
    (seq_start : list ascii) (start : Z) (map : gmap Z RefSeq)
  : result (gmap Z RefSeq) :=
  match seq_start with
  | [] => Ok map
  | _ :: rest =>
      map' ← build_ends dna_len reverse start seq_start start 0 map;
      build_starts dna_len reverse rest (start + 1) map'
  end.

Definition build_reference_hash (dna : list ascii) (map : gmap Z RefSeq)
    (reverse : bool) : result (gmap Z RefSeq) :=
  let dna_len := Z.of_nat (length dna) in
  seq ← (if reverse then reverse_dna dna else Ok dna);
  build_starts dna_len reverse seq 0 map.

(** The index as [main] builds it: forward pass, then reverse pass, into
    one initially empty map. *)
Definition build_index (ref_seq : list ascii) : result (gmap Z RefSeq) :=
  ref_map ← build_reference_hash ref_seq ∅ false;
  build_reference_hash ref_seq ref_map true.

(** ** Path planner *)

(** Inner loop of [find_optimal_path] at a fixed [start]: [query_end] is the
    suffix of the query starting at index [end_].  [dp] and [trace] have
    [query_len + 1] entries and [start <= end_ < query_len], so every index
    used is in range. *)
Fixpoint scan_ends (ref_map : gmap Z RefSeq) (start : Z)
    (query_end : list ascii) (end_ : Z) (hash : Z)
    (dp : list Z) (trace : list (option Trace))
  : result (list Z * list (option Trace)) :=
  match query_end with
  | [] => Ok (dp, trace)
  | c :: rest =>
      hash' ← hash_step hash c;
      match ref_map !! hash' with
      | Some r =>
          let new_cost := wrap64 (dp !!! Z.to_nat (end_ + 1) + 1) in
          if (new_cost <? dp !!! Z.to_nat start)
             || ((new_cost =? dp !!! Z.to_nat start) && negb (rs_reverse r))
          then scan_ends ref_map start rest (end_ + 1) hash'
                 (<[Z.to_nat start := new_cost]> dp)
                 (<[Z.to_nat start := Some (mkTrace r (end_ + 1) start end_)]> trace)
          else scan_ends ref_map start rest (end_ + 1) hash' dp trace
      | None => scan_ends ref_map start rest (end_ + 1) hash' dp trace
      end
  end.

(** Outer loop, [for (int start = ...; start >= 0; --start)]: [n] is
    [start + 1], so [n = 0] is the exit [start < 0]. *)
Fixpoint plan_starts (query : list ascii) (ref_map : gmap Z RefSeq) (n : nat)
    (dp : list Z) (trace : list (option Trace))
  : result (list Z * list (option Trace)) :=
  match n with
  | O => Ok (dp, trace)
  | S start =>
      '(dp', trace') ← scan_ends ref_map (Z.of_nat start) (drop start query)
                          (Z.of_nat start) 0 dp trace;
      plan_starts query ref_map start dp' trace'
  end.

(** The state of [find_optimal_path] when it returns: the cost table [dp]
    and the decisions [trace]. *)
Definition find_optimal_path_state (query : list ascii)
    (ref_map : gmap Z RefSeq) : result (list Z * list (option Trace)) :=
  let query_len := Z.of_nat (length query) in
  let dp := <[length query := 0]> (replicate (S (length query)) UNREACHABLE) in
  let trace := replicate (S (length query)) None in
  let start0 := to_int (wrap64 (query_len - 1)) in
  plan_starts query ref_map (Z.to_nat (start0 + 1)) dp trace.

Definition find_optimal_path (query : list ascii) (ref_map : gmap Z RefSeq)
  : result (list (option Trace)) :=
  st ← find_optimal_path_state query ref_map; Ok st.2.

(** ** Path reconstructor *)

(** The [while (pos < query_len)] loop.  [fuel] bounds the number of
    iterations; [None] means that no outcome is defined within it: the fuel
    ran out, or [trace] was read outside its bounds. *)
Fixpoint reconstruct_loop (fuel : nat) (trace : list (option Trace))
    (query_len : Z) (pos : Z) (res : list MatchSegment)
  : option (result (list MatchSegment)) :=
  if pos <? query_len then
    match fuel with
    | O => None
    | S fuel' =>
        match trace !! Z.to_nat pos with
        | Some (Some t) =>
            reconstruct_loop fuel' trace query_len (t_next t)
              (res ++ [mkMatchSegment (t_ref_seq t) (t_query_start t) (t_query_end t)])
        | Some None => Some (Throw (AlignmentBreak pos))
        | None => None
        end
    end
  else Some (Ok res).

Definition reconstruct_path (fuel : nat) (trace : list (option Trace))
    (query_len : Z) : option (result (list MatchSegment)) :=
  reconstruct_loop fuel trace query_len 0 [].

(** Planning followed by reconstruction, as in [main]; every iteration of
    the reconstruction advances by at least one position, so [length query]
    iterations are enough (see [align_defined]). *)
Definition align (query_seq : list ascii) (ref_map : gmap Z RefSeq)
  : option (result (list MatchSegment)) :=
  match find_optimal_path query_seq ref_map with
  | Ok trace =>
      reconstruct_path (length query_seq) trace (Z.of_nat (length query_seq))
  | Throw e => Some (Throw e)
  end.

(** The [try] block of [main] after validation. *)
Definition align_with (ref_seq query_seq : list ascii)
  : option (result (list MatchSegment)) :=
  match build_index ref_seq with
  | Ok ref_map => align query_seq ref_map
  | Throw e => Some (Throw e)
  end.

(** [validate_dna]: the first character outside A/T/C/G aborts. *)
Fixpoint validate_dna (dna : list ascii) (name : string) : result unit :=
  match dna with
  | [] => Ok tt
  | c :: rest =>
      if bool_decide (c ≠ "A"%char) && bool_decide (c ≠ "T"%char)
         && bool_decide (c ≠ "C"%char) && bool_decide (c ≠ "G"%char)
      then Throw (InvalidInput name c)
      else validate_dna rest name
  end.

(** ** The program *)

(** [isspace] and [toupper] of the C locale. *)
Definition isspace (c : ascii) : bool :=
  let n := N_of_ascii c in
  ((n =? 32) || ((9 <=? n) && (n <=? 13)))%N.

Definition toupper (c : ascii) : ascii :=
  let n := N_of_ascii c in
  if ((97 <=? n) && (n <=? 122))%N then ascii_of_N (n - 32) else c.

(** The first loop of [trim]: skip leading whitespace. *)
Fixpoint skip_space (s : list ascii) : list ascii :=
  match s with
  | c :: rest => if isspace c then skip_space rest else s
  | [] => []
  end.

(** [trim]: the second loop does the same from the back. *)
Definition trim (s : list ascii) : list ascii :=
  rev (skip_space (rev (skip_space s))).

Definition to_upper (s : list ascii) : list ascii := map toupper s.

(** What [main] does, by the message it prints and the value it returns. *)
Inductive main_outcome : Type :=
| ReadFailed                       (* "Failed to read input", returns 1 *)
| EmptyReference                   (* "Reference sequence cannot be empty", returns 1 *)
| EmptyQuery                       (* "Query sequence cannot be empty", returns 1 *)
| Caught (e : exn)                 (* the exception's message, returns 1 *)
| Reported (segs : list MatchSegment). (* the alignment report, returns 0 *)

Definition exit_code (o : main_outcome) : Z :=
  match o with Reported _ => 0 | _ => 1 end.

(** [main] on the lines available on standard input. *)
Definition main (stdin : list (list ascii)) : option main_outcome :=
  match stdin with
  | [] => Some ReadFailed
  | line1 :: rest =>
      let ref_seq := to_upper (trim line1) in
      if decide (ref_seq = []) then Some EmptyReference else
      match rest with
      | [] => Some ReadFailed
      | line2 :: _ =>
          let query_seq := to_upper (trim line2) in
          if decide (query_seq = []) then Some EmptyQuery else
          match (_ ← validate_dna ref_seq "Reference sequence";
                 _ ← validate_dna query_seq "Query sequence";
                 build_index ref_seq) with
          | Throw e => Some (Caught e)
          | Ok ref_map =>
              match align query_seq ref_map with
              | Some (Ok segs) => Some (Reported segs)
              | Some (Throw e) => Some (Caught e)
              | None => None
              end
          end
      end
  end.

(** ** Specification vocabulary *)

(** String literals as character lists. *)
Definition dna (s : string) : list ascii := list_ascii_of_string s.

Definition is_dna (c : ascii) : Prop :=
  c = "A"%char ∨ c = "T"%char ∨ c = "C"%char ∨ c = "G"%char.

Definition valid_dna (s : list ascii) : Prop := Forall is_dna s.

(** Exception-free readings of the codec, equal to the code on valid
    symbols ([dna_to_num_code], [complement_compl]). *)
Definition code (c : ascii) : Z :=
  match dna_to_num c with Ok d => d | Throw _ => 0 end.

Definition compl (c : ascii) : ascii :=
  match complement c with Ok c' => c' | Throw _ => c end.

Definition revcomp (s : list ascii) : list ascii := map compl (rev s).

Definition hash_next (hash : Z) (c : ascii) : Z :=
  wrap64 (hash * 5 + code c) mod MOD.

(** The running hash after reading [s], started from [hash]. *)
Definition rolling (hash : Z) (s : list ascii) : Z := fold_left hash_next s hash.

Definition rolling_hash (s : list ascii) : Z := rolling 0 s.

(** The substring [start, end_] (inclusive) of [s]. *)
Definition substring (s : list ascii) (start end_ : nat) : list ascii :=
  take (S end_ - start) (drop start s).

(** The insert-if-absent step of the index. *)
Definition insert_if_absent (m : gmap Z RefSeq) (e : Z * RefSeq)
  : gmap Z RefSeq :=
  match m !! e.1 with
  | Some _ => m
  | None => <[e.1 := e.2]> m
  end.

(** All substrings [(start, end_)] of a string of length [n]: ascending
    start, then ascending end. *)
Definition substrings_in_order (n : nat) : list (nat * nat) :=
  flat_map (λ s, map (pair s) (seq s (n - s))) (seq 0 n).

(** Lexicographic order on substrings: start first, then end. *)
Definition lex_lt (p q : nat * nat) : Prop :=
  (p.1 < q.1)%nat ∨ (p.1 = q.1 ∧ (p.2 < q.2)%nat).

Definition index_entry (reverse : bool) (sq : list ascii) (se : nat * nat)
  : Z * RefSeq :=
  (rolling_hash (substring sq se.1 se.2),
   location (Z.of_nat (length sq)) reverse (Z.of_nat se.1) (Z.of_nat se.2)).

(** What one pass over [sq] offers to the index, in order. *)
Definition index_entries (reverse : bool) (sq : list ascii)
  : list (Z * RefSeq) :=
  map (index_entry reverse sq) (substrings_in_order (length sq)).

(** The first entry for hash [h] in a list of offers. *)
Fixpoint first_writer (h : Z) (l : list (Z * RefSeq)) : option RefSeq :=
  match l with
  | [] => None
  | e :: l' => if decide (e.1 = h) then Some e.2 else first_writer h l'
  end.

(** The choice made by the inner loop of [find_optimal_path] at a fixed
    [start], as a function of the cost table it reads: [cur] is the pair
    [(dp[start], trace[start])] so far. *)
Fixpoint best_end (ref_map : gmap Z RefSeq) (dp : list Z) (start : Z)
    (sfx : list ascii) (end_ : Z) (hash : Z) (cur : Z * option Trace)
  : Z * option Trace :=
  match sfx with
  | [] => cur
  | c :: rest =>
      let hash' := hash_next hash c in
      match ref_map !! hash' with
      | Some r =>
          let new_cost := wrap64 (dp !!! Z.to_nat (end_ + 1) + 1) in
          if (new_cost <? cur.1) || ((new_cost =? cur.1) && negb (rs_reverse r))
          then best_end ref_map dp start rest (end_ + 1) hash'
                 (new_cost, Some (mkTrace r (end_ + 1) start end_))
          else best_end ref_map dp start rest (end_ + 1) hash' cur
      | None => best_end ref_map dp start rest (end_ + 1) hash' cur
      end
  end.

(** Candidates of the inner loop, counted from the position [e] where the
    scan of [sfx] begins with running hash [h]: candidate [k] is the match
    ending at [e + k]; its hash is in the index with location [r]. *)
Definition is_cand (ref_map : gmap Z RefSeq) (sfx : list ascii) (h : Z)
    (k : nat) (r : RefSeq) : Prop :=
  (k < length sfx)%nat ∧ ref_map !! rolling h (take (S k) sfx) = Some r.

(** [new_cost] of candidate [k]. *)
Definition cand_cost (dp : list Z) (e : Z) (k : nat) : Z :=
  wrap64 (dp !!! Z.to_nat (e + Z.of_nat k + 1) + 1).

(** The decision stored for candidate [k]. *)
Definition cand_trace (r : RefSeq) (start e : Z) (k : nat) : Trace :=
  mkTrace r (e + Z.of_nat k + 1) start (e + Z.of_nat k).

(** The number of iterations of the outer loop of [find_optimal_path]:
    [start] runs from [(int)(query_len - 1)] down to 0. *)
Definition nstarts (query : list ascii) : nat :=
  Z.to_nat (to_int (wrap64 (Z.of_nat (length query) - 1)) + 1).

(** The state in which the planner leaves [dp] and [trace] when the outer
    loop has visited the start positions below [n]. *)
Definition planned (ref_map : gmap Z RefSeq) (query : list ascii) (n : nat)
    (dp : list Z) (trace : list (option Trace)) : Prop :=
  length dp = S (length query) ∧
  length trace = S (length query) ∧
  dp !!! length query = 0 ∧
  trace !!! length query = None ∧
  (∀ j, (n ≤ j < length query)%nat →
        dp !!! j = UNREACHABLE ∧ trace !!! j = None) ∧
  (∀ j, (j < n)%nat →
        (dp !!! j, trace !!! j) =
        best_end ref_map dp (Z.of_nat j) (drop j query) (Z.of_nat j) 0
          (UNREACHABLE, None)).

(** A decision at position [j]: a hashed match [j, e] whose cost is one
    more than the cost of resuming at [e + 1], itself reachable. *)
Definition decision_at (ref_map : gmap Z RefSeq) (query : list ascii)
    (dp : list Z) (j : nat) (t : Trace) : Prop :=
  ∃ e r, (j ≤ e < length query)%nat ∧
         ref_map !! rolling_hash (substring query j e) = Some r ∧
         t = mkTrace r (Z.of_nat e + 1) (Z.of_nat j) (Z.of_nat e) ∧
         dp !!! j = dp !!! S e + 1 ∧
         dp !!! S e < UNREACHABLE.

(** Segments that chain from query position [j] to the end of the query,
    each a hashed match recorded with its index location. *)
Inductive chain (ref_map : gmap Z RefSeq) (query : list ascii)
  : nat → list MatchSegment → Prop :=
| chain_nil : chain ref_map query (length query) []
| chain_cons (j e : nat) (r : RefSeq) (segs : list MatchSegment) :
    (j ≤ e < length query)%nat →
    ref_map !! rolling_hash (substring query j e) = Some r →
    chain ref_map query (S e) segs →
    chain ref_map query j
      (mkMatchSegment r (Z.of_nat j) (Z.of_nat e) :: segs).

(** A covering of the query by index-hashed segments: the query cut into
    non-empty consecutive pieces, the rolling hash of each a key of the
    index. *)
Definition hashed (ref_map : gmap Z RefSeq) (piece : list ascii) : Prop :=
  piece ≠ [] ∧ is_Some (ref_map !! rolling_hash piece).

Definition is_cover (ref_map : gmap Z RefSeq) (query : list ascii)
    (pieces : list (list ascii)) : Prop :=
  concat pieces = query ∧ Forall (hashed ref_map) pieces.

(** The pieces of the query that a segment list names. *)
Definition pieces_of (query : list ascii) (segs : list MatchSegment)
  : list (list ascii) :=
  map (λ sg, substring query (Z.to_nat (seg_query_start sg))
                             (Z.to_nat (seg_query_end sg))) segs.

(** [w] occurs in [sq] as a contiguous substring. *)
Definition occurs_in (w sq : list ascii) : Prop :=
  ∃ pre post, sq = pre ++ w ++ post.

(** No query substring is in the index by a hash collision: whenever the
    hash of a query substring is a key of the index of [r], the substring
    itself occurs in [r] or in its reverse complement. *)
Definition collision_free (ref_map : gmap Z RefSeq) (r query : list ascii)
  : Prop :=
  ∀ i j, (i ≤ j < length query)%nat →
    is_Some (ref_map !! rolling_hash (substring query i j)) →
    occurs_in (substring query i j) r ∨
    occurs_in (substring query i j) (revcomp r).

(** No hashed match of the query contains position [p]. *)
Definition uncovered (ref_map : gmap Z RefSeq) (query : list ascii) (p : nat)
  : Prop :=
  ∀ i j, (i ≤ p)%nat → (p ≤ j < length query)%nat →
    ref_map !! rolling_hash (substring query i j) = None.

(** The base-5 value of a string, the rolling hash without reduction. *)
Definition value (w : list ascii) : Z :=
  fold_left (λ v c, v * 5 + code c) w 0.

(** A small index used to instantiate the theorems: that of "ATCG". *)
Definition example_index : gmap Z RefSeq :=
  Eval vm_compute in
    match build_index (dna "ATCG") with Ok m => m | Throw _ => ∅ end.

(** ** Further vocabulary *)

(** [islower] of the C locale, as [validate_dna] uses it for its hint. *)
Definition islower (c : ascii) : bool :=
  let n := N_of_ascii c in ((97 <=? n) && (n <=? 122))%N.

(** The running hash of the inner loops, as a loop of its own: the
    recurrence [hash = (hash * 5 + dna_to_num(c)) % MOD] over [s]. *)
Fixpoint hash_run (hash : Z) (s : list ascii) : result Z :=
  match s with
  | [] => Ok hash
  | c :: rest => hash' ← hash_step hash c; hash_run hash' rest
  end.

(** [std::string::substr(pos, count)]: [None] stands for the
    [out_of_range] it throws when [pos > size()]. *)
Definition substr (s : list ascii) (pos count : Z) : option (list ascii) :=
  if Z.of_nat (length s) <? pos then None
  else Some (take (Z.to_nat count) (drop (Z.to_nat pos) s)).

(** The "Matched sequence" of the report of [main]:
    [ref_seq.substr(start, end - start + 1)]. *)
Definition matched_sequence (ref_seq : list ascii) (seg : MatchSegment)
  : option (list ascii) :=
  substr ref_seq (rs_start (seg_ref_info seg))
    (wrap64 (wrap64 (rs_end (seg_ref_info seg) - rs_start (seg_ref_info seg)) + 1)).

(** The reference text a location denotes, read on its strand. *)
Definition strand_text (r : list ascii) (loc : RefSeq) : list ascii :=
  let w := substring r (Z.to_nat (rs_start loc)) (Z.to_nat (rs_end loc)) in
  if rs_reverse loc then revcomp w else w.

(** [c] is the first (last) character of [s] outside A/T/C/G. *)
Definition first_offender (s : list ascii) (c : ascii) : Prop :=
  ∃ pre post, s = pre ++ c :: post ∧ valid_dna pre ∧ ¬ is_dna c.

Definition last_offender (s : list ascii) (c : ascii) : Prop :=
  ∃ pre post, s = pre ++ c :: post ∧ valid_dna post ∧ ¬ is_dna c.

Definition all_space (s : list ascii) : Prop :=
  Forall (λ c, isspace c = true) s.

(** [sg] is the segment that [reconstruct_path] makes of some decision of
    [trace]. *)
Definition from_trace (trace : list (option Trace)) (sg : MatchSegment)
  : Prop :=
  ∃ p t, trace !! p = Some (Some t) ∧
         sg = mkMatchSegment (t_ref_seq t) (t_query_start t) (t_query_end t).

(** * Proofs *)

(** ** Symbol codec *)

Lemma codec_cases (c : ascii) :
  is_dna c ∨
  (complement c = Throw (InvalidDNA c) ∧ dna_to_num c = Throw (InvalidDNA c)).
Proof.
  destruct c as [[] [] [] [] [] [] [] []];
    first [ right; split; reflexivity | left; unfold is_dna; tauto ].
Qed.

Lemma dna_to_num_code (c : ascii) : is_dna c → dna_to_num c = Ok (code c).
Proof. intros [-> | [-> | [-> | ->]]]; reflexivity. Qed.

Lemma code_range (c : ascii) : is_dna c → 1 ≤ code c ≤ 4.
Proof. intros [-> | [-> | [-> | ->]]]; cbn; lia. Qed.

Lemma code_inj (c d : ascii) : is_dna c → is_dna d → code c = code d → c = d.
Proof.
  intros [-> | [-> | [-> | ->]]] [-> | [-> | [-> | ->]]]; cbn; congruence.
Qed.

Lemma dna_to_num_Ok (c : ascii) (d : Z) : dna_to_num c = Ok d → is_dna c.
Proof. destruct (codec_cases c) as [? | [_ ->]]; [done | discriminate]. Qed.

Lemma complement_compl (c : ascii) : is_dna c → complement c = Ok (compl c).
Proof. intros [-> | [-> | [-> | ->]]]; reflexivity. Qed.

Lemma compl_is_dna (c : ascii) : is_dna c → is_dna (compl c).
Proof. intros [-> | [-> | [-> | ->]]]; cbn; unfold is_dna; tauto. Qed.

Lemma compl_involutive (c : ascii) : is_dna c → compl (compl c) = c.
Proof. intros [-> | [-> | [-> | ->]]]; reflexivity. Qed.

Lemma hash_step_next (hash : Z) (c : ascii) :
  is_dna c → hash_step hash c = Ok (hash_next hash c).
Proof.
  intros Hc. unfold hash_step, hash_next. rewrite (dna_to_num_code c Hc).
  reflexivity.
Qed.

Lemma hash_step_Ok (hash h' : Z) (c : ascii) :
  hash_step hash c = Ok h' → is_dna c.
Proof.
  unfold hash_step. destruct (dna_to_num c) eqn:E; [|discriminate].
  intros _. eauto using dna_to_num_Ok.
Qed.

Lemma reverse_dna_loop_valid (it acc : list ascii) :
  valid_dna it → reverse_dna_loop it acc = Ok (acc ++ map compl it).
Proof.
  revert acc. induction it as [|c it IH]; intros acc Hv; cbn.
  - by rewrite app_nil_r.
  - inversion Hv as [|? ? Hc Hit]; subst.
    rewrite (complement_compl c Hc). cbn.
    rewrite (IH _ Hit), <- app_assoc. reflexivity.
Qed.

Lemma valid_dna_rev (s : list ascii) : valid_dna s → valid_dna (rev s).
Proof. apply Forall_rev. Qed.

Lemma valid_dna_revcomp (s : list ascii) : valid_dna s → valid_dna (revcomp s).
Proof.
  intros Hv. unfold revcomp, valid_dna. apply Forall_map.
  eapply Forall_impl; [apply valid_dna_rev, Hv|]. apply compl_is_dna.
Qed.

Lemma reverse_dna_revcomp (s : list ascii) :
  valid_dna s → reverse_dna s = Ok (revcomp s).
Proof.
  intros Hv. unfold reverse_dna.
  by rewrite (reverse_dna_loop_valid _ [] (valid_dna_rev s Hv)).
Qed.

Lemma revcomp_involutive (s : list ascii) :
  valid_dna s → revcomp (revcomp s) = s.
Proof.
  intros Hv. unfold revcomp.
  rewrite <- map_rev, rev_involutive, map_map.
  induction Hv as [|c s Hc Hs IH]; cbn; [done|].
  by rewrite (compl_involutive c Hc), IH.
Qed.

Lemma length_revcomp (s : list ascii) : length (revcomp s) = length s.
Proof. unfold revcomp. by rewrite length_map, length_rev. Qed.

(** C5: for every string [s] over A/T/C/G, [reverse_dna] succeeds on [s]
    and on its result, and applying it twice gives [s] back. *)
Theorem reverse_dna_involutive (s : list ascii) :
  valid_dna s →
  ∃ r, reverse_dna s = Ok r ∧ reverse_dna r = Ok s.
Proof.
  intros Hv. exists (revcomp s). split.
  - by apply reverse_dna_revcomp.
  - rewrite (reverse_dna_revcomp _ (valid_dna_revcomp s Hv)).
    by rewrite (revcomp_involutive s Hv).
Qed.

Lemma valid_dna_literal (s : list ascii) :
  forallb (λ c, bool_decide (c ∈ dna "ATCG")) s = true → valid_dna s.
Proof.
  intros H. apply Forall_forall. intros c Hc.
  rewrite forallb_forall in H. apply list_elem_of_In, H in Hc.
  apply bool_decide_eq_true in Hc. unfold dna in Hc. cbn in Hc.
  unfold is_dna. rewrite !elem_of_cons in Hc.
  destruct Hc as [? | [? | [? | [? | Hc]]]]; [tauto.. | by inversion Hc].
Qed.

Lemma reverse_dna_involutive_witness :
  valid_dna (dna "GATTACA") ∧
  ∃ r, reverse_dna (dna "GATTACA") = Ok r ∧ reverse_dna r = Ok (dna "GATTACA").
Proof.
  assert (Hv : valid_dna (dna "GATTACA")) by (by apply valid_dna_literal).
  split; [exact Hv | exact (reverse_dna_involutive (dna "GATTACA") Hv)].
Defined.

(** ** Reference index *)

Lemma rolling_snoc (h : Z) (s : list ascii) (c : ascii) :
  rolling h (s ++ [c]) = hash_next (rolling h s) c.
Proof. unfold rolling. by rewrite fold_left_app. Qed.

Lemma fold_insert_if_absent_lookup (l : list (Z * RefSeq))
    (m : gmap Z RefSeq) (h : Z) :
  fold_left insert_if_absent l m !! h =
  match m !! h with
  | Some loc => Some loc
  | None => first_writer h l
  end.
Proof.
  revert m. induction l as [|[h' loc] l IH]; intros m; cbn.
  - by destruct (m !! h).
  - rewrite IH. unfold insert_if_absent. cbn.
    destruct (m !! h') eqn:E'.
    + destruct (m !! h) eqn:E; [done|].
      case_decide; [congruence | done].
    + case_decide as Hh.
      * subst h'. by rewrite lookup_insert_eq, E'.
      * by rewrite lookup_insert_ne.
Qed.

Lemma substring_step (sq : list ascii) (s e : nat) (c : ascii) :
  (s ≤ e)%nat → sq !! e = Some c →
  substring sq s e = take (e - s) (drop s sq) ++ [c].
Proof.
  intros Hse Hc. unfold substring.
  replace (S e - s)%nat with (S (e - s)) by lia.
  apply take_S_r. rewrite lookup_drop. by replace (s + (e - s))%nat with e by lia.
Qed.

Lemma build_ends_fold (sq : list ascii) (reverse : bool) (s : nat) :
  valid_dna sq →
  ∀ (k e : nat) (m : gmap Z RefSeq),
    (e + k)%nat = length sq → (s ≤ e)%nat →
    build_ends (Z.of_nat (length sq)) reverse (Z.of_nat s) (drop e sq)
      (Z.of_nat e) (rolling 0 (take (e - s) (drop s sq))) m
    = Ok (fold_left insert_if_absent
            (map (index_entry reverse sq) (map (pair s) (seq e k))) m).
Proof.
  intros Hv. induction k as [|k IH]; intros e m Hek Hse.
  - rewrite drop_ge by lia. reflexivity.
  - destruct (lookup_lt_is_Some_2 sq e) as [c Hc]; [lia|].
    rewrite (drop_S _ _ _ Hc). cbn [build_ends].
    assert (Hdc : is_dna c).
    { eapply Forall_forall; [exact Hv|]. eapply list_elem_of_lookup_2, Hc. }
    assert (Hsub : substring sq s e = take (e - s) (drop s sq) ++ [c])
      by (by apply substring_step).
    rewrite (hash_step_next _ c Hdc). cbn [mbind result_bind].
    rewrite <- rolling_snoc, <- Hsub.
    replace (Z.of_nat e + 1) with (Z.of_nat (S e)) by lia.
    specialize (IH (S e)). fold (substring sq s e) in IH.
    rewrite IH by lia. reflexivity.
Qed.

Lemma build_starts_fold (sq : list ascii) (reverse : bool) :
  valid_dna sq →
  ∀ (k s : nat) (m : gmap Z RefSeq),
    (s + k)%nat = length sq →
    build_starts (Z.of_nat (length sq)) reverse (drop s sq) (Z.of_nat s) m
    = Ok (fold_left insert_if_absent
            (map (index_entry reverse sq)
               (flat_map (λ s, map (pair s) (seq s (length sq - s))) (seq s k)))
            m).
Proof.
  intros Hv. induction k as [|k IH]; intros s m Hsk.
  - rewrite drop_ge by lia. reflexivity.
  - pose proof (build_ends_fold sq reverse s Hv (length sq - s) s m) as He.
    rewrite Nat.sub_diag, take_0 in He. change (rolling 0 []) with 0 in He.
    destruct (drop s sq) as [|c rest] eqn:Hd.
    { apply (f_equal length) in Hd. rewrite length_drop in Hd. cbn in Hd. lia. }
    assert (Hrest : rest = drop (S s) sq).
    { replace (S s) with (s + 1)%nat by lia.
      by rewrite <- drop_drop, Hd. }
    cbn [build_starts]. rewrite He by lia. cbn [mbind result_bind].
    replace (Z.of_nat s + 1) with (Z.of_nat (S s)) by lia.
    rewrite Hrest, IH by lia.
    cbn [seq flat_map]. by rewrite map_app, fold_left_app.
Qed.

Lemma build_reference_hash_fold (dna0 : list ascii) (m : gmap Z RefSeq)
    (reverse : bool) :
  valid_dna dna0 →
  build_reference_hash dna0 m reverse
  = Ok (fold_left insert_if_absent
          (index_entries reverse (if reverse then revcomp dna0 else dna0)) m).
Proof.
  intros Hv. unfold build_reference_hash, index_entries, substrings_in_order.
  destruct reverse.
  - rewrite (reverse_dna_revcomp _ Hv). cbn [mbind result_bind].
    pose proof (build_starts_fold (revcomp dna0) true
                  (valid_dna_revcomp _ Hv) (length (revcomp dna0)) 0 m) as H.
    rewrite drop_0, length_revcomp in H. cbn [Z.of_nat] in H.
    rewrite length_revcomp. by apply H.
  - cbn [mbind result_bind].
    pose proof (build_starts_fold dna0 false Hv (length dna0) 0 m) as H.
    rewrite drop_0 in H. by apply H.
Qed.

Lemma first_writer_app (h : Z) (l1 l2 : list (Z * RefSeq)) :
  first_writer h (l1 ++ l2) =
  match first_writer h l1 with
  | Some loc => Some loc
  | None => first_writer h l2
  end.
Proof. induction l1 as [|e l1 IH]; cbn; [done|]. by case_decide. Qed.

Lemma first_writer_elem (h : Z) (l : list (Z * RefSeq)) (loc : RefSeq) :
  first_writer h l = Some loc → (h, loc) ∈ l.
Proof.
  induction l as [|[h' loc'] l IH]; cbn; [done|].
  case_decide as Hh; cbn in Hh.
  - intros [= <-]. subst. apply list_elem_of_here.
  - intros H. apply list_elem_of_further, IH, H.
Qed.

Lemma first_writer_is_Some (h : Z) (l : list (Z * RefSeq)) (loc : RefSeq) :
  (h, loc) ∈ l → is_Some (first_writer h l).
Proof.
  induction l as [|[h' loc'] l IH]; cbn.
  - intros H. by apply elem_of_nil in H.
  - intros H. case_decide as Hh; cbn in Hh; [eauto|].
    apply elem_of_cons in H as [[= ? ?] | H]; [congruence | eauto].
Qed.

Lemma elem_of_substrings_in_order (n s e : nat) :
  (s, e) ∈ substrings_in_order n ↔ (s ≤ e < n)%nat.
Proof.
  unfold substrings_in_order. rewrite list_elem_of_In, in_flat_map. split.
  - intros (s' & Hs' & Hin). apply in_seq in Hs'.
    apply in_map_iff in Hin as (e' & [= <- <-] & He'). apply in_seq in He'. lia.
  - intros H. exists s. split; [apply in_seq; lia|].
    apply in_map_iff. exists e. split; [done|]. apply in_seq. lia.
Qed.

Lemma elem_of_index_entries (reverse : bool) (sq : list ascii)
    (x : Z * RefSeq) :
  x ∈ index_entries reverse sq ↔
  ∃ s e, (s ≤ e < length sq)%nat ∧ x = index_entry reverse sq (s, e).
Proof.
  unfold index_entries. rewrite list_elem_of_fmap. split.
  - intros ([s e] & -> & Hin). apply elem_of_substrings_in_order in Hin. eauto.
  - intros (s & e & Hse & ->). exists (s, e). split; [done|].
    by apply elem_of_substrings_in_order.
Qed.

Lemma wrap64_small (z : Z) : 0 ≤ z < 2 ^ 64 → wrap64 z = z.
Proof. intros H. unfold wrap64. by apply Z.mod_small. Qed.

Lemma location_forward (n s e : Z) : location n false s e = mkRefSeq s e false.
Proof. reflexivity. Qed.

Lemma location_reverse (n s e : Z) :
  0 ≤ s ≤ e → e < n < 2 ^ 64 →
  location n true s e = mkRefSeq (n - e - 1) (n - s - 1) true.
Proof.
  intros Hse Hn. unfold location. by rewrite !wrap64_small by lia.
Qed.

Lemma location_range (n s e : Z) (reverse : bool) :
  0 ≤ s ≤ e → e < n < 2 ^ 64 →
  0 ≤ rs_start (location n reverse s e) ∧
  rs_start (location n reverse s e) ≤ rs_end (location n reverse s e) < n ∧
  rs_reverse (location n reverse s e) = reverse.
Proof.
  intros Hse Hn. destruct reverse.
  - rewrite location_reverse by lia. cbn. lia.
  - cbn. lia.
Qed.

Lemma build_index_lookup (r : list ascii) :
  valid_dna r →
  ∃ fwd idx,
    build_reference_hash r ∅ false = Ok fwd ∧
    build_reference_hash r fwd true = Ok idx ∧
    build_index r = Ok idx ∧
    ∀ h, idx !! h =
         first_writer h (index_entries false r ++ index_entries true (revcomp r)).
Proof.
  intros Hv.
  pose proof (build_reference_hash_fold r ∅ false Hv) as Hf.
  set (fwd := fold_left insert_if_absent (index_entries false r) ∅) in Hf.
  pose proof (build_reference_hash_fold r fwd true Hv) as Hr.
  exists fwd, (fold_left insert_if_absent (index_entries true (revcomp r)) fwd).
  split; [exact Hf|]. split; [exact Hr|]. split.
  - unfold build_index. rewrite Hf. exact Hr.
  - intros h. unfold fwd.
    rewrite !fold_insert_if_absent_lookup, lookup_empty, first_writer_app.
    reflexivity.
Qed.

Lemma ends_sorted (s : nat) :
  ∀ k e, StronglySorted lex_lt (map (pair s) (seq e k)).
Proof.
  induction k as [|k IH]; intros e; cbn; constructor; [apply IH|].
  apply Forall_forall. intros [s' e'] Hin.
  apply list_elem_of_In, in_map_iff in Hin as (x & [= <- <-] & Hx).
  apply in_seq in Hx. right. cbn. lia.
Qed.

Lemma starts_sorted (n : nat) :
  ∀ k s,
    StronglySorted lex_lt
      (flat_map (λ s, map (pair s) (seq s (n - s))) (seq s k)).
Proof.
  induction k as [|k IH]; intros s; [constructor|].
  cbn [seq flat_map]. apply StronglySorted_app_2.
  - intros [s1 e1] [s2 e2] H1 H2.
    apply list_elem_of_In, in_map_iff in H1 as (x & [= <- <-] & _).
    apply list_elem_of_In, in_flat_map in H2 as (s' & Hs' & Hin).
    apply in_seq in Hs'.
    apply in_map_iff in Hin as (y & [= <- <-] & _). left. cbn. lia.
  - apply ends_sorted.
  - apply IH.
Qed.

Lemma substrings_in_order_sorted (n : nat) :
  StronglySorted lex_lt (substrings_in_order n).
Proof. apply starts_sorted. Qed.

Lemma index_entry_location (reverse : bool) (sq : list ascii) (s e : nat) :
  Z.of_nat (length sq) < 2 ^ 64 → (s ≤ e < length sq)%nat →
  index_entry reverse sq (s, e) =
  (rolling_hash (substring sq s e),
   if reverse
   then mkRefSeq (Z.of_nat (length sq) - Z.of_nat e - 1)
                 (Z.of_nat (length sq) - Z.of_nat s - 1) true
   else mkRefSeq (Z.of_nat s) (Z.of_nat e) false).
Proof.
  intros Hn Hse. unfold index_entry. cbn [fst snd]. f_equal.
  destruct reverse; [|reflexivity]. apply location_reverse; lia.
Qed.

Lemma first_writer_in_bounds (reverse : bool) (sq : list ascii) (h : Z)
    (loc : RefSeq) :
  Z.of_nat (length sq) < 2 ^ 64 →
  first_writer h (index_entries reverse sq) = Some loc →
  0 ≤ rs_start loc ∧ rs_start loc ≤ rs_end loc ∧
  rs_end loc < Z.of_nat (length sq) ∧ rs_reverse loc = reverse.
Proof.
  intros Hn Hfw. apply first_writer_elem, elem_of_index_entries in Hfw
    as (s & e & Hse & Hx).
  unfold index_entry in Hx. injection Hx as _ ->.
  pose proof (location_range (Z.of_nat (length sq)) (Z.of_nat s) (Z.of_nat e)
                reverse) as H.
  destruct H as (? & [? ?] & ?); [lia.. | tauto].
Qed.

(** C4: one call of [build_reference_hash] keeps every key that is already
    present and gives every absent hash to the first substring that offers
    it, in the order ascending start then ascending end; a reverse pass
    stores [n - end - 1] and [n - start - 1], tagged reverse; every stored
    location has [start <= end < n]; [main] runs the forward pass before
    the reverse pass, so the index is the first writer over the forward
    offers followed by the reverse ones. *)
Theorem build_reference_hash_first_writer (r : list ascii)
    (m : gmap Z RefSeq) (reverse : bool) :
  valid_dna r → Z.of_nat (length r) < 2 ^ 64 →
  let n := Z.of_nat (length r) in
  let sq := if reverse then revcomp r else r in
  (∃ m', build_reference_hash r m reverse = Ok m' ∧
     ∀ h, m' !! h = match m !! h with
                    | Some loc => Some loc
                    | None => first_writer h (index_entries reverse sq)
                    end) ∧
  index_entries reverse sq
    = map (index_entry reverse sq) (substrings_in_order (length r)) ∧
  StronglySorted lex_lt (substrings_in_order (length r)) ∧
  (∀ s e : nat, (s ≤ e < length r)%nat →
     index_entry reverse sq (s, e) =
     (rolling_hash (substring sq s e),
      if reverse
      then mkRefSeq (n - Z.of_nat e - 1) (n - Z.of_nat s - 1) true
      else mkRefSeq (Z.of_nat s) (Z.of_nat e) false)) ∧
  (∀ h loc, first_writer h (index_entries reverse sq) = Some loc →
     0 ≤ rs_start loc ∧ rs_start loc ≤ rs_end loc ∧ rs_end loc < n ∧
     rs_reverse loc = reverse) ∧
  (∃ fwd idx,
     build_reference_hash r ∅ false = Ok fwd ∧
     build_reference_hash r fwd true = Ok idx ∧
     build_index r = Ok idx ∧
     ∀ h, idx !! h =
          first_writer h (index_entries false r ++ index_entries true (revcomp r))).
Proof.
  intros Hv Hn n sq.
  assert (Hlen : length sq = length r).
  { unfold sq. destruct reverse; [apply length_revcomp | done]. }
  split; [|split; [|split; [|split; [|split]]]].
  - eexists. split; [by apply build_reference_hash_fold|].
    intros h. apply fold_insert_if_absent_lookup.
  - unfold index_entries. by rewrite Hlen.
  - apply substrings_in_order_sorted.
  - intros s e Hse. unfold n. rewrite <- Hlen.
    apply index_entry_location; lia.
  - intros h loc Hfw. unfold n. rewrite <- Hlen.
    apply (first_writer_in_bounds reverse sq h loc); [lia | done].
  - by apply build_index_lookup.
Qed.

Lemma build_reference_hash_first_writer_witness :
  valid_dna (dna "ATCG") ∧ Z.of_nat (length (dna "ATCG")) < 2 ^ 64 ∧
  ∃ m', build_reference_hash (dna "ATCG") ∅ true = Ok m' ∧
        ∀ h, m' !! h = first_writer h (index_entries true (revcomp (dna "ATCG"))).
Proof.
  assert (Hv : valid_dna (dna "ATCG")) by (by apply valid_dna_literal).
  assert (Hn : Z.of_nat (length (dna "ATCG")) < 2 ^ 64) by (cbn; lia).
  split; [exact Hv|]. split; [exact Hn|].
  destruct (build_reference_hash_first_writer (dna "ATCG") ∅ true Hv Hn)
    as [(m' & Hm' & Hlook) _].
  exists m'. split; [exact Hm'|]. intros h. rewrite Hlook.
  by rewrite lookup_empty.
Defined.


Lemma substring_single (sq : list ascii) (p : nat) (c : ascii) :
  sq !! p = Some c → substring sq p p = [c].
Proof.
  intros Hc. unfold substring. replace (S p - p)%nat with 1%nat by lia.
  rewrite (drop_S _ _ _ Hc). reflexivity.
Qed.


Lemma index_lookup_eval (r : list ascii) (h : Z) (v : option RefSeq) :
  (idx ← build_index r; Ok (idx !! h)) = Ok v →
  ∃ idx, build_index r = Ok idx ∧ idx !! h = v.
Proof.
  destruct (build_index r) as [idx|]; cbn; [|discriminate].
  intros [= <-]. eauto.
Qed.


(** ** Path planner: the loops *)

Lemma best_end_ext (idx : gmap Z RefSeq) (dp1 dp2 : list Z) (s : Z) :
  ∀ sfx e h cur,
    0 ≤ e →
    (∀ j, (Z.to_nat e < j)%nat → dp1 !!! j = dp2 !!! j) →
    best_end idx dp1 s sfx e h cur = best_end idx dp2 s sfx e h cur.
Proof.
  induction sfx as [|c rest IH]; intros e h cur He Hagree; cbn; [done|].
  rewrite (Hagree (Z.to_nat (e + 1))) by lia.
  assert (Hrest : ∀ cur', best_end idx dp1 s rest (e + 1) (hash_next h c) cur'
                         = best_end idx dp2 s rest (e + 1) (hash_next h c) cur').
  { intros cur'. apply IH; [lia|]. intros j Hj. apply Hagree. lia. }
  destruct (idx !! hash_next h c); [|apply Hrest].
  by rewrite !Hrest.
Qed.

Lemma scan_ends_best (idx : gmap Z RefSeq) (s : Z) :
  0 ≤ s →
  ∀ sfx e h dp trace,
    valid_dna sfx → s ≤ e →
    (Z.to_nat s < length dp)%nat → (Z.to_nat s < length trace)%nat →
    scan_ends idx s sfx e h dp trace =
    Ok (<[Z.to_nat s :=
            (best_end idx dp s sfx e h
               (dp !!! Z.to_nat s, trace !!! Z.to_nat s)).1]> dp,
        <[Z.to_nat s :=
            (best_end idx dp s sfx e h
               (dp !!! Z.to_nat s, trace !!! Z.to_nat s)).2]> trace).
Proof.
  intros Hs. induction sfx as [|c rest IH];
    intros e h dp trace Hv Hse Hdp Htr.
  - cbn. rewrite !list_insert_id; [done | |];
      by apply list_lookup_lookup_total_lt.
  - inversion Hv as [|? ? Hc Hrest]; subst.
    cbn [scan_ends best_end]. rewrite (hash_step_next h c Hc).
    cbn [mbind result_bind].
    destruct (idx !! hash_next h c) as [r|]; [|by apply IH; try lia].
    cbn zeta. cbn [fst].
    destruct ((wrap64 (dp !!! Z.to_nat (e + 1) + 1) <? dp !!! Z.to_nat s)
              || ((wrap64 (dp !!! Z.to_nat (e + 1) + 1) =? dp !!! Z.to_nat s)
                  && negb (rs_reverse r))); [|by apply IH; try lia].
    rewrite IH by (rewrite ?length_insert; (done || lia)).
    rewrite !list_insert_insert_eq.
    rewrite !list_lookup_total_insert_eq by done.
    rewrite (best_end_ext idx (<[Z.to_nat s:=_]> dp) dp); [done | lia |].
    intros j Hj. apply list_lookup_total_insert_ne. lia.
Qed.

Lemma scan_ends_Ok_valid (idx : gmap Z RefSeq) (s : Z) :
  ∀ sfx e h dp trace st,
    scan_ends idx s sfx e h dp trace = Ok st → valid_dna sfx.
Proof.
  induction sfx as [|c rest IH]; intros e h dp trace st; cbn.
  - intros _. constructor.
  - destruct (hash_step h c) as [h'|] eqn:Eh; cbn; [|discriminate].
    intros H. constructor; [eapply hash_step_Ok, Eh|].
    destruct (idx !! h'); [destruct (_ || _)|]; eapply IH, H.
Qed.

Lemma to_int_le (z : Z) : to_int z ≤ z ∨ z < 0.
Proof.
  destruct (Z_lt_dec z 0) as [?|Hz]; [by right | left].
  unfold to_int.
  pose proof (Z.mod_le (z + 2 ^ 31) (2 ^ 32)). lia.
Qed.

Lemma nstarts_le (query : list ascii) : (nstarts query ≤ length query)%nat.
Proof.
  unfold nstarts. destruct query as [|c q]; [vm_compute; lia|].
  set (n := Z.of_nat (length (c :: q))).
  assert (Hn : 1 ≤ n) by (unfold n; cbn [length]; lia).
  assert (Hw : 0 ≤ wrap64 (n - 1) ≤ n - 1).
  { unfold wrap64. split; [apply Z.mod_pos_bound; lia|].
    apply Z.mod_le; lia. }
  destruct (to_int_le (wrap64 (n - 1))); lia.
Qed.

Lemma nstarts_fits_int (query : list ascii) :
  Z.of_nat (length query) ≤ 2 ^ 31 → nstarts query = length query.
Proof.
  intros Hn. unfold nstarts. destruct query as [|c q]; [vm_compute; lia|].
  set (n := Z.of_nat (length (c :: q))) in *.
  assert (Hn1 : 1 ≤ n) by (unfold n; cbn [length]; lia).
  rewrite wrap64_small by lia. unfold to_int.
  rewrite Z.mod_small by lia. lia.
Qed.

(** Between 2^31 and 2^32 symbols [(int)(query_len - 1)] is negative and
    the loop does not run at all. *)
Lemma nstarts_overflow (query : list ascii) :
  2 ^ 31 < Z.of_nat (length query) ≤ 2 ^ 32 → nstarts query = 0%nat.
Proof.
  intros Hn. unfold nstarts.
  set (n := Z.of_nat (length query)) in *.
  rewrite wrap64_small by lia. unfold to_int.
  replace (n - 1 + 2 ^ 31) with (n - 1 - 2 ^ 31 + 1 * 2 ^ 32) by lia.
  rewrite Z.mod_add by lia. rewrite Z.mod_small by lia. lia.
Qed.

Lemma plan_starts_inv (idx : gmap Z RefSeq) (query : list ascii) (n : nat) :
  valid_dna query → (n ≤ length query)%nat →
  ∀ k dp trace,
    (k ≤ n)%nat →
    length dp = S (length query) →
    length trace = S (length query) →
    dp !!! length query = 0 →
    trace !!! length query = None →
    (∀ j, ((j < k ∨ n ≤ j) ∧ j < length query)%nat →
          dp !!! j = UNREACHABLE ∧ trace !!! j = None) →
    (∀ j, (k ≤ j < n)%nat →
          (dp !!! j, trace !!! j) =
          best_end idx dp (Z.of_nat j) (drop j query) (Z.of_nat j) 0
            (UNREACHABLE, None)) →
    ∃ dp' trace',
      plan_starts query idx k dp trace = Ok (dp', trace') ∧
      planned idx query n dp' trace'.
Proof.
  intros Hv Hn. induction k as [|k IH];
    intros dp trace Hk Hldp Hltr Hdp0 Htr0 Hnot Hdone.
  - exists dp, trace. split; [reflexivity|].
    unfold planned. split_and!; try done.
    + intros j Hj. apply Hnot. lia.
    + intros j Hj. apply Hdone. lia.
  - cbn [plan_starts].
    rewrite scan_ends_best; try lia;
      [|by apply Forall_drop | rewrite Nat2Z.id; lia..].
    cbn [mbind result_bind]. rewrite Nat2Z.id.
    destruct (Hnot k) as [Hdk Htk]; [lia|]. rewrite Hdk, Htk.
    set (b := best_end idx dp (Z.of_nat k) (drop k query) (Z.of_nat k) 0
                (UNREACHABLE, None)).
    assert (Hext : ∀ j, (k ≤ j)%nat →
              best_end idx (<[k:=b.1]> dp) (Z.of_nat j) (drop j query)
                (Z.of_nat j) 0 (UNREACHABLE, None)
              = best_end idx dp (Z.of_nat j) (drop j query) (Z.of_nat j) 0
                  (UNREACHABLE, None)).
    { intros j Hj. apply best_end_ext; [lia|]. intros i Hi.
      apply list_lookup_total_insert_ne. lia. }
    apply IH.
    + lia.
    + by rewrite length_insert.
    + by rewrite length_insert.
    + rewrite list_lookup_total_insert_ne by lia. done.
    + rewrite list_lookup_total_insert_ne by lia. done.
    + intros j Hj. rewrite !list_lookup_total_insert_ne by lia.
      apply Hnot. lia.
    + intros j Hj. rewrite Hext by lia.
      destruct (decide (j = k)) as [-> | Hne].
      * rewrite !list_lookup_total_insert_eq by lia.
        symmetry. apply surjective_pairing.
      * rewrite !list_lookup_total_insert_ne by lia. apply Hdone. lia.
Qed.

Lemma plan_starts_Ok_valid (idx : gmap Z RefSeq) (query : list ascii) :
  ∀ k dp trace st,
    plan_starts query idx (S k) dp trace = Ok st → valid_dna query.
Proof.
  induction k as [|k IH]; intros dp trace st.
  - cbn [plan_starts]. rewrite drop_0.
    destruct (scan_ends idx _ query _ _ dp trace) as [st'|] eqn:E;
      [|discriminate].
    intros _. eapply scan_ends_Ok_valid, E.
  - change (plan_starts query idx (S (S k)) dp trace)
      with ('(dp', trace') ← scan_ends idx (Z.of_nat (S k)) (drop (S k) query)
                                (Z.of_nat (S k)) 0 dp trace;
            plan_starts query idx (S k) dp' trace').
    destruct (scan_ends idx _ _ _ _ dp trace) as [[dp' trace']|];
      [|discriminate].
    cbn [mbind result_bind]. apply IH.
Qed.

Lemma initial_state_length (query : list ascii) :
  length (<[length query := 0]> (replicate (S (length query)) UNREACHABLE))
  = S (length query).
Proof. by rewrite length_insert, length_replicate. Qed.

Lemma find_optimal_path_state_total (query : list ascii)
    (idx : gmap Z RefSeq) :
  valid_dna query →
  ∃ dp trace,
    find_optimal_path_state query idx = Ok (dp, trace) ∧
    planned idx query (nstarts query) dp trace.
Proof.
  intros Hv. unfold find_optimal_path_state. fold (nstarts query).
  apply plan_starts_inv; try done.
  - apply nstarts_le.
  - apply initial_state_length.
  - by rewrite length_replicate.
  - apply list_lookup_total_insert_eq. rewrite length_replicate. lia.
  - apply lookup_total_replicate_2. lia.
  - intros j Hj. rewrite list_lookup_total_insert_ne by lia.
    rewrite !lookup_total_replicate_2 by lia. done.
  - intros j Hj. lia.
Qed.

Lemma initial_planned (query : list ascii) (idx : gmap Z RefSeq) :
  planned idx query 0
    (<[length query := 0]> (replicate (S (length query)) UNREACHABLE))
    (replicate (S (length query)) None).
Proof.
  unfold planned. split_and!.
  - apply initial_state_length.
  - by rewrite length_replicate.
  - apply list_lookup_total_insert_eq. rewrite length_replicate. lia.
  - apply lookup_total_replicate_2. lia.
  - intros j Hj. rewrite list_lookup_total_insert_ne by lia.
    rewrite !lookup_total_replicate_2 by lia. done.
  - intros j Hj. lia.
Qed.

Lemma find_optimal_path_state_planned (query : list ascii)
    (idx : gmap Z RefSeq) (dp : list Z) (trace : list (option Trace)) :
  find_optimal_path_state query idx = Ok (dp, trace) →
  planned idx query (nstarts query) dp trace.
Proof.
  intros Hst. destruct (nstarts query) as [|k] eqn:Hk.
  - pose proof (initial_planned query idx) as H0.
    unfold find_optimal_path_state in Hst. fold (nstarts query) in Hst.
    rewrite Hk in Hst. cbn [plan_starts] in Hst.
    injection Hst as Hd Ht. rewrite <- Hd, <- Ht. exact H0.
  - assert (Hv : valid_dna query).
    { unfold find_optimal_path_state in Hst. fold (nstarts query) in Hst.
      rewrite Hk in Hst. eapply plan_starts_Ok_valid, Hst. }
    destruct (find_optimal_path_state_total query idx Hv)
      as (dp' & trace' & Hst' & Hpl).
    rewrite Hst in Hst'. injection Hst' as <- <-. by rewrite <- Hk.
Qed.

(** ** Path planner: the selection rule *)

Section selection.
Context (idx : gmap Z RefSeq) (dp : list Z) (s : Z).

Lemma cand_cost_0 (e : Z) :
  cand_cost dp e 0 = wrap64 (dp !!! Z.to_nat (e + 1) + 1).
Proof. unfold cand_cost. by rewrite Z.add_0_r. Qed.

Lemma cand_cost_S (e : Z) (k : nat) :
  cand_cost dp e (S k) = cand_cost dp (e + 1) k.
Proof. unfold cand_cost. do 4 f_equal. lia. Qed.

Lemma cand_trace_0 (r : RefSeq) (e : Z) :
  cand_trace r s e 0 = mkTrace r (e + 1) s e.
Proof. unfold cand_trace. by rewrite Z.add_0_r. Qed.

Lemma cand_trace_S (r : RefSeq) (e : Z) (k : nat) :
  cand_trace r s e (S k) = cand_trace r s (e + 1) k.
Proof. unfold cand_trace. f_equal; lia. Qed.

Lemma is_cand_0 (c : ascii) (rest : list ascii) (h : Z) (r : RefSeq) :
  is_cand idx (c :: rest) h 0 r ↔ idx !! hash_next h c = Some r.
Proof. unfold is_cand. cbn. split; [tauto | split; [lia | done]]. Qed.

Lemma is_cand_S (c : ascii) (rest : list ascii) (h : Z) (k : nat)
    (r : RefSeq) :
  is_cand idx (c :: rest) h (S k) r ↔ is_cand idx rest (hash_next h c) k r.
Proof. unfold is_cand. cbn. split; (intros [? ?]; split; [lia | done]). Qed.

Lemma update_cond (new_cost cur_cost : Z) (r : RefSeq) :
  (new_cost <? cur_cost) || ((new_cost =? cur_cost) && negb (rs_reverse r))
  = true ↔
  new_cost < cur_cost ∨ (new_cost = cur_cost ∧ rs_reverse r = false).
Proof.
  rewrite orb_true_iff, andb_true_iff, Z.ltb_lt, Z.eqb_eq, negb_true_iff.
  tauto.
Qed.

(** The stored cost never increases. *)
Lemma best_end_le :
  ∀ sfx e h cur, (best_end idx dp s sfx e h cur).1 ≤ cur.1.
Proof.
  induction sfx as [|c rest IH]; intros e h cur; cbn [best_end]; [lia|].
  cbn zeta. destruct (idx !! hash_next h c) as [r|]; [|apply IH].
  destruct (_ || _) eqn:Ec; [|apply IH].
  apply update_cond in Ec. etrans; [apply IH|]. cbn [fst]. lia.
Qed.

(** It ends at most at the cost of every candidate. *)
Lemma best_end_opt :
  ∀ sfx e h cur k r,
    is_cand idx sfx h k r →
    (best_end idx dp s sfx e h cur).1 ≤ cand_cost dp e k.
Proof.
  induction sfx as [|c rest IH]; intros e h cur k r Hc.
  { destruct Hc as [Hk _]. cbn in Hk. lia. }
  destruct k as [|k].
  - apply is_cand_0 in Hc. rewrite cand_cost_0.
    cbn [best_end]. cbn zeta. rewrite Hc.
    destruct (_ || _) eqn:Ec.
    + etrans; [apply best_end_le|]. done.
    + etrans; [apply best_end_le|].
      destruct (Z_lt_dec (wrap64 (dp !!! Z.to_nat (e + 1) + 1)) cur.1)
        as [Hlt|]; [|lia].
      assert (Ht : (wrap64 (dp !!! Z.to_nat (e + 1) + 1) <? cur.1)
                   || ((wrap64 (dp !!! Z.to_nat (e + 1) + 1) =? cur.1)
                       && negb (rs_reverse r)) = true)
        by (apply update_cond; lia).
      congruence.
  - apply is_cand_S in Hc. rewrite cand_cost_S.
    cbn [best_end]. cbn zeta.
    destruct (idx !! hash_next h c); [destruct (_ || _)|]; eapply IH, Hc.
Qed.

(** The outcome is the initial pair or the cost and decision of one of
    the candidates. *)
Lemma best_end_decision :
  ∀ sfx e h cur,
    best_end idx dp s sfx e h cur = cur ∨
    ∃ k r, is_cand idx sfx h k r ∧
           best_end idx dp s sfx e h cur
           = (cand_cost dp e k, Some (cand_trace r s e k)).
Proof.
  induction sfx as [|c rest IH]; intros e h cur; [by left|].
  cbn [best_end]. cbn zeta.
  assert (Hshift : ∀ cur',
    best_end idx dp s rest (e + 1) (hash_next h c) cur' = cur' ∨
    ∃ k r, is_cand idx (c :: rest) h k r ∧
           best_end idx dp s rest (e + 1) (hash_next h c) cur'
           = (cand_cost dp e k, Some (cand_trace r s e k))).
  { intros cur'. destruct (IH (e + 1) (hash_next h c) cur')
      as [? | (k & r & Hc & Hb)]; [by left | right].
    exists (S k), r. rewrite is_cand_S, cand_cost_S, cand_trace_S. done. }
  destruct (idx !! hash_next h c) as [r|] eqn:E; [|apply Hshift].
  destruct (_ || _); [|apply Hshift].
  destruct (Hshift (wrap64 (dp !!! Z.to_nat (e + 1) + 1),
                    Some (mkTrace r (e + 1) s e))) as [Hb | ?]; [|by right].
  right. exists 0%nat, r. rewrite is_cand_0, cand_cost_0, cand_trace_0. done.
Qed.

(** Once a forward decision holds the final cost, the final decision is
    that one or a later forward candidate of the same cost. *)
Lemma best_end_keep_forward :
  ∀ sfx e h cur t0,
    (best_end idx dp s sfx e h cur).1 = cur.1 →
    cur.2 = Some t0 → rs_reverse (t_ref_seq t0) = false →
    best_end idx dp s sfx e h cur = cur ∨
    ∃ k r, is_cand idx sfx h k r ∧ rs_reverse r = false ∧
           best_end idx dp s sfx e h cur
           = (cand_cost dp e k, Some (cand_trace r s e k)).
Proof.
  induction sfx as [|c rest IH]; intros e h cur t0 Hcost Ht0 Hfwd;
    [by left|].
  cbn [best_end] in *. cbn zeta in *.
  assert (Hshift : ∀ cur' t',
    (best_end idx dp s rest (e + 1) (hash_next h c) cur').1 = cur'.1 →
    cur'.2 = Some t' → rs_reverse (t_ref_seq t') = false →
    best_end idx dp s rest (e + 1) (hash_next h c) cur' = cur' ∨
    ∃ k r, is_cand idx (c :: rest) h k r ∧ rs_reverse r = false ∧
           best_end idx dp s rest (e + 1) (hash_next h c) cur'
           = (cand_cost dp e k, Some (cand_trace r s e k))).
  { intros cur' t' H1 H2 H3.
    destruct (IH (e + 1) (hash_next h c) cur' t' H1 H2 H3)
      as [? | (k & r & Hc & Hr & Hb)]; [by left | right].
    exists (S k), r. rewrite is_cand_S, cand_cost_S, cand_trace_S. done. }
  destruct (idx !! hash_next h c) as [r|] eqn:E; [|by eapply Hshift].
  destruct (_ || _) eqn:Ec; [|by eapply Hshift].
  apply update_cond in Ec.
  set (nc := wrap64 (dp !!! Z.to_nat (e + 1) + 1)) in *.
  pose proof (best_end_le rest (e + 1) (hash_next h c)
                (nc, Some (mkTrace r (e + 1) s e))) as Hle.
  cbn [fst] in Hle.
  destruct Ec as [Hlt | [Heq Hr]]; [lia|].
  destruct (Hshift (nc, Some (mkTrace r (e + 1) s e)) (mkTrace r (e + 1) s e))
    as [Hb | ?]; [cbn [fst]; lia | done | done | | by right].
  right. exists 0%nat, r.
  rewrite is_cand_0, cand_cost_0, cand_trace_0. done.
Qed.

(** Tie-break: if a forward candidate has the final cost, the final
    decision is a forward candidate of that cost ending at least as far. *)
Lemma best_end_forward_last :
  ∀ sfx e h cur k r,
    is_cand idx sfx h k r → rs_reverse r = false →
    cand_cost dp e k = (best_end idx dp s sfx e h cur).1 →
    ∃ k' r', (k ≤ k')%nat ∧ is_cand idx sfx h k' r' ∧
             rs_reverse r' = false ∧
             best_end idx dp s sfx e h cur
             = (cand_cost dp e k', Some (cand_trace r' s e k')).
Proof.
  induction sfx as [|c rest IH]; intros e h cur k r Hc Hfwd Hcost.
  { destruct Hc as [Hk _]. cbn in Hk. lia. }
  destruct k as [|k].
  - apply is_cand_0 in Hc. rewrite cand_cost_0 in Hcost.
    cbn [best_end] in *. cbn zeta in *. rewrite Hc in *.
    set (nc := wrap64 (dp !!! Z.to_nat (e + 1) + 1)) in *.
    destruct (_ || _) eqn:Ec.
    + destruct (best_end_keep_forward rest (e + 1) (hash_next h c)
                  (nc, Some (mkTrace r (e + 1) s e)) (mkTrace r (e + 1) s e))
        as [Hb | (k' & r' & Hc' & Hr' & Hb)]; [done.. | |].
      * exists 0%nat, r.
        rewrite is_cand_0, cand_cost_0, cand_trace_0. done.
      * exists (S k'), r'.
        rewrite is_cand_S, cand_cost_S, cand_trace_S.
        split; [lia | done].
    + exfalso.
      pose proof (best_end_le rest (e + 1) (hash_next h c) cur) as Hle.
      assert (Ht : (nc <? cur.1) || ((nc =? cur.1) && negb (rs_reverse r))
                   = true).
      { apply update_cond.
        destruct (Z_lt_dec nc cur.1); [by left | right; split; [lia | done]]. }
      congruence.
  - apply is_cand_S in Hc. rewrite cand_cost_S in Hcost.
    cbn [best_end] in *. cbn zeta in *.
    assert (Hshift : ∀ cur',
      cand_cost dp (e + 1) k
      = (best_end idx dp s rest (e + 1) (hash_next h c) cur').1 →
      ∃ k' r', (S k ≤ k')%nat ∧ is_cand idx (c :: rest) h k' r' ∧
               rs_reverse r' = false ∧
               best_end idx dp s rest (e + 1) (hash_next h c) cur'
               = (cand_cost dp e k', Some (cand_trace r' s e k'))).
    { intros cur' H1.
      destruct (IH (e + 1) (hash_next h c) cur' k r Hc Hfwd H1)
        as (k' & r' & Hk' & Hc' & Hr' & Hb).
      exists (S k'), r'. rewrite is_cand_S, cand_cost_S, cand_trace_S.
      split; [lia | done]. }
    destruct (idx !! hash_next h c); [destruct (_ || _)|]; by apply Hshift.
Qed.

(** Costs stay within [0, UNREACHABLE]. *)
Lemma best_end_range :
  ∀ sfx e h cur,
    0 ≤ cur.1 →
    0 ≤ (best_end idx dp s sfx e h cur).1.
Proof.
  induction sfx as [|c rest IH]; intros e h cur Hcur; cbn [best_end]; [done|].
  cbn zeta. destruct (idx !! hash_next h c); [destruct (_ || _)|];
    apply IH; try done.
  cbn [fst]. unfold wrap64. apply Z.mod_pos_bound. lia.
Qed.
End selection.

(** ** Path planner: the planned state *)

Lemma substring_drop (query : list ascii) (j k : nat) :
  take (S k) (drop j query) = substring query j (j + k).
Proof. unfold substring. f_equal. lia. Qed.

Section planned_state.
Context (idx : gmap Z RefSeq) (query : list ascii) (n : nat)
        (dp : list Z) (trace : list (option Trace)).
Hypothesis Hplanned : planned idx query n dp trace.
Hypothesis Hn : (n ≤ length query)%nat.

Lemma planned_dp_range (j : nat) :
  (j ≤ length query)%nat → 0 ≤ dp !!! j ≤ UNREACHABLE.
Proof.
  destruct Hplanned as (_ & _ & Hlast & _ & Hnot & Hdone). intros Hj.
  assert (HU : 0 ≤ UNREACHABLE) by (vm_compute; discriminate).
  destruct (decide (j = length query)) as [-> | Hne]; [lia|].
  destruct (decide (j < n)%nat) as [Hlt | Hge].
  - pose proof (f_equal fst (Hdone j Hlt)) as Hb. cbn [fst] in Hb.
    rewrite Hb. split.
    + by apply best_end_range.
    + etrans; [apply best_end_le | done].
  - destruct (Hnot j) as [-> _]; lia.
Qed.

Lemma planned_decision (j : nat) :
  (j < length query)%nat →
  match trace !!! j with
  | None => dp !!! j = UNREACHABLE
  | Some t => decision_at idx query dp j t
  end.
Proof.
  intros Hj. destruct Hplanned as (_ & _ & _ & _ & Hnot & Hdone).
  destruct (decide (j < n)%nat) as [Hlt | Hge].
  - pose proof (Hdone j Hlt) as Hb.
    pose proof (best_end_le idx dp (Z.of_nat j) (drop j query) (Z.of_nat j)
                  0 (UNREACHABLE, None)) as Hle.
    destruct (best_end_decision idx dp (Z.of_nat j) (drop j query)
                (Z.of_nat j) 0 (UNREACHABLE, None))
      as [Hc | (k & r & [Hk Hr] & Hc)]; rewrite Hc in Hb, Hle;
      injection Hb as Hd Ht; rewrite Ht; [done|].
    rewrite length_drop in Hk.
    assert (Hidx : Z.to_nat (Z.of_nat j + Z.of_nat k + 1) = S (j + k))
      by lia.
    pose proof (planned_dp_range (S (j + k))) as Hrange.
    assert (Hcost : cand_cost dp (Z.of_nat j) k = dp !!! S (j + k) + 1).
    { unfold cand_cost. rewrite Hidx. apply wrap64_small.
      unfold UNREACHABLE in Hrange. lia. }
    cbn [fst] in Hle. rewrite Hcost in Hle, Hd.
    exists (j + k)%nat, r. split_and!; try lia.
    + by rewrite <- substring_drop.
    + unfold cand_trace. f_equal; lia.
  - destruct (Hnot j) as [-> ->]; [lia | done].
Qed.

Lemma planned_lookup (j : nat) :
  (j ≤ length query)%nat → trace !! j = Some (trace !!! j).
Proof.
  intros Hj. destruct Hplanned as (_ & Hlen & _).
  apply list_lookup_lookup_total_lt. lia.
Qed.

(** Positions with a finite cost are the end of the query and the
    positions holding a decision. *)
Lemma planned_reachable (j : nat) :
  (j ≤ length query)%nat → dp !!! j < UNREACHABLE →
  j = length query ∨ ∃ t, trace !!! j = Some t.
Proof.
  intros Hj Hlt. destruct (decide (j = length query)); [by left | right].
  pose proof (planned_decision j) as Hd.
  destruct (trace !!! j) as [t|]; [eauto | lia].
Qed.

(** Walking the decisions from a position that is the end or holds a
    decision reaches the end; the walk is a chain of [dp !!! j]
    segments. *)
Lemma reconstruct_loop_chain :
  ∀ (m j : nat) (fuel : nat) (res : list MatchSegment),
    (length query - j ≤ m)%nat → (j ≤ length query)%nat →
    (length query - j ≤ fuel)%nat →
    (j = length query ∨ ∃ t, trace !!! j = Some t) →
    ∃ segs,
      reconstruct_loop fuel trace (Z.of_nat (length query)) (Z.of_nat j) res
      = Some (Ok (res ++ segs)) ∧
      chain idx query j segs ∧
      Z.of_nat (length segs) = dp !!! j.
Proof.
  induction m as [|m IH]; intros j fuel res Hm Hj Hfuel Hreach.
  - assert (j = length query) as -> by lia.
    exists []. destruct Hplanned as (_ & _ & Hlast & _).
    destruct fuel; cbn [reconstruct_loop]; rewrite Z.ltb_irrefl;
      rewrite app_nil_r, Hlast; (split_and!; [done | constructor | done]).
  - destruct (decide (j = length query)) as [-> | Hne].
    { apply IH; (lia || by left). }
    destruct Hreach as [? | [t Ht]]; [done|].
    pose proof (planned_decision j) as Hd. rewrite Ht in Hd.
    destruct Hd as (e & r & He & Hr & -> & Hcost & Hnext); [lia|].
    destruct (IH (S e) (pred fuel)
                (res ++ [mkMatchSegment r (Z.of_nat j) (Z.of_nat e)]))
      as (segs & Hrec & Hchain & Hlen); try lia.
    { apply planned_reachable; [lia | done]. }
    exists (mkMatchSegment r (Z.of_nat j) (Z.of_nat e) :: segs).
    split_and!.
    + destruct fuel as [|fuel]; [lia|]. cbn [reconstruct_loop pred] in *.
      replace (Z.of_nat j <? Z.of_nat (length query)) with true
        by (symmetry; apply Z.ltb_lt; lia).
      rewrite Nat2Z.id, planned_lookup, Ht by lia. cbn [t_next t_ref_seq
        t_query_start t_query_end].
      replace (Z.of_nat e + 1) with (Z.of_nat (S e)) by lia.
      rewrite Hrec, <- app_assoc. reflexivity.
    + by constructor.
    + cbn [length]. lia.
Qed.
End planned_state.

Lemma reconstruct_loop_fuel_mono (trace : list (option Trace)) (len : Z) :
  ∀ fuel fuel' pos res out,
    (fuel ≤ fuel')%nat →
    reconstruct_loop fuel trace len pos res = Some out →
    reconstruct_loop fuel' trace len pos res = Some out.
Proof.
  induction fuel as [|fuel IH]; intros fuel' pos res out Hle.
  - cbn [reconstruct_loop]. destruct (pos <? len) eqn:E; [discriminate|].
    intros H. destruct fuel'; cbn [reconstruct_loop]; by rewrite E.
  - destruct fuel' as [|fuel']; [lia|]. cbn [reconstruct_loop].
    destruct (pos <? len); [|done].
    destruct (trace !! Z.to_nat pos) as [[t|]|]; [|done..].
    apply IH. lia.
Qed.

(** ** Chains of segments *)

Section chains.
Context (idx : gmap Z RefSeq) (query : list ascii).

Lemma chain_head (j : nat) (sg : MatchSegment) (segs : list MatchSegment) :
  chain idx query j (sg :: segs) →
  seg_query_start sg = Z.of_nat j ∧
  Z.of_nat j ≤ seg_query_end sg < Z.of_nat (length query) ∧
  chain idx query (S (Z.to_nat (seg_query_end sg))) segs.
Proof.
  inversion 1 as [|j' e r segs' He Hr Hch]; subst. cbn.
  rewrite Nat2Z.id. split_and!; (lia || done).
Qed.

Lemma chain_adjacent (j : nat) (segs : list MatchSegment) :
  chain idx query j segs →
  ∀ k s1 s2, segs !! k = Some s1 → segs !! S k = Some s2 →
    seg_query_start s1 < seg_query_start s2 ∧
    seg_query_end s1 + 1 = seg_query_start s2.
Proof.
  induction 1 as [|j e r segs He Hr Hch IH]; intros k s1 s2 H1 H2.
  - by rewrite lookup_nil in H1.
  - destruct k as [|k]; [|by eapply IH].
    cbn in H1, H2. injection H1 as <-. cbn.
    destruct segs as [|sg segs]; [discriminate|].
    cbn in H2. injection H2 as ->.
    apply chain_head in Hch as [-> _]. lia.
Qed.

Lemma chain_cover (j : nat) (segs : list MatchSegment) :
  chain idx query j segs →
  ∀ p, Z.of_nat j ≤ p < Z.of_nat (length query) ↔
       ∃ sg, sg ∈ segs ∧ seg_query_start sg ≤ p ∧ p ≤ seg_query_end sg.
Proof.
  induction 1 as [|j e r segs He Hr Hch IH]; intros p.
  - split; [lia|]. intros (sg & Hin & _). by apply elem_of_nil in Hin.
  - split.
    + intros Hp. destruct (Z_le_dec p (Z.of_nat e)) as [Hle | Hgt].
      * eexists. split; [apply list_elem_of_here|]. cbn. lia.
      * destruct (proj1 (IH p)) as (sg & Hin & Hsg); [lia|].
        exists sg. split; [by apply list_elem_of_further | done].
    + intros (sg & Hin & Hsg). apply elem_of_cons in Hin as [-> | Hin].
      * cbn in Hsg. lia.
      * assert (Z.of_nat (S e) ≤ p < Z.of_nat (length query)); [|lia].
        apply IH. eauto.
Qed.

Lemma chain_pieces (j : nat) (segs : list MatchSegment) :
  chain idx query j segs →
  concat (pieces_of query segs) = drop j query ∧
  Forall (hashed idx) (pieces_of query segs).
Proof.
  induction 1 as [|j e r segs He Hr Hch [IHc IHf]].
  - split; [|constructor]. cbn. by rewrite drop_all.
  - cbn [pieces_of map seg_query_start seg_query_end concat].
    rewrite !Nat2Z.id. fold (pieces_of query segs). split.
    + rewrite IHc. unfold substring.
      replace (S e) with (j + (S e - j))%nat at 2 by lia.
      rewrite <- drop_drop. apply take_drop.
    + constructor; [|done]. split; [|by rewrite Hr].
      intros Hnil. apply (f_equal length) in Hnil.
      unfold substring in Hnil. rewrite length_take, length_drop in Hnil.
      cbn in Hnil. lia.
Qed.
End chains.

(** ** Reconstruction *)

Lemma find_optimal_path_trace (query : list ascii) (idx : gmap Z RefSeq)
    (dp : list Z) (trace : list (option Trace)) :
  find_optimal_path_state query idx = Ok (dp, trace) →
  find_optimal_path query idx = Ok trace.
Proof. intros H. unfold find_optimal_path. by rewrite H. Qed.

Lemma reconstruct_path_Ok_reach (query : list ascii)
    (trace : list (option Trace)) (fuel : nat) (segs : list MatchSegment) :
  length trace = S (length query) →
  reconstruct_path fuel trace (Z.of_nat (length query)) = Some (Ok segs) →
  0%nat = length query ∨ ∃ t, trace !!! 0%nat = Some t.
Proof.
  intros Hlen Hrec. destruct query as [|c q]; [by left | right].
  unfold reconstruct_path in Hrec. destruct fuel as [|fuel]; [discriminate|].
  cbn [reconstruct_loop] in Hrec.
  replace (0 <? Z.of_nat (length (c :: q))) with true in Hrec
    by (symmetry; apply Z.ltb_lt; cbn [length]; lia).
  change (Z.to_nat 0) with 0%nat in Hrec.
  rewrite (list_lookup_lookup_total_lt trace 0) in Hrec by lia.
  destruct (trace !!! 0%nat) as [t|]; [eauto | discriminate].
Qed.

Lemma reconstruct_path_chain (query : list ascii) (idx : gmap Z RefSeq)
    (dp : list Z) (trace : list (option Trace)) (fuel : nat)
    (segs : list MatchSegment) :
  find_optimal_path_state query idx = Ok (dp, trace) →
  reconstruct_path fuel trace (Z.of_nat (length query)) = Some (Ok segs) →
  chain idx query 0 segs ∧ Z.of_nat (length segs) = dp !!! 0%nat.
Proof.
  intros Hst Hrec. apply find_optimal_path_state_planned in Hst as Hpl.
  pose proof (nstarts_le query) as Hn.
  assert (Hreach : 0%nat = length query ∨ ∃ t, trace !!! 0%nat = Some t).
  { eapply reconstruct_path_Ok_reach; [|exact Hrec]. apply Hpl. }
  destruct (reconstruct_loop_chain idx query _ dp trace Hpl Hn
              (length query) 0 (Nat.max fuel (length query)) [])
    as (segs' & Hrec' & Hchain & Hlen); try lia; [done|].
  unfold reconstruct_path in Hrec.
  apply (reconstruct_loop_fuel_mono _ _ _ (Nat.max fuel (length query))) in Hrec;
    [|lia].
  change (Z.of_nat 0) with 0 in Hrec'. rewrite Hrec in Hrec'.
  injection Hrec' as ->. done.
Qed.

(** C2: whenever [reconstruct_path] returns on the trace computed by
    [find_optimal_path], the segments are listed by ascending query start,
    each begins right after the previous one ends, their query ranges
    cover exactly the positions [0 .. query_len - 1], and their number is
    [dp[0]]. *)
Theorem reconstruct_path_invariants (query : list ascii)
    (idx : gmap Z RefSeq) (dp : list Z) (trace : list (option Trace))
    (fuel : nat) (segs : list MatchSegment) :
  find_optimal_path_state query idx = Ok (dp, trace) →
  reconstruct_path fuel trace (Z.of_nat (length query)) = Some (Ok segs) →
  find_optimal_path query idx = Ok trace ∧
  (∀ k s1 s2, segs !! k = Some s1 → segs !! S k = Some s2 →
     seg_query_start s1 < seg_query_start s2 ∧
     seg_query_end s1 + 1 = seg_query_start s2) ∧
  (∀ p, 0 ≤ p < Z.of_nat (length query) ↔
        ∃ sg, sg ∈ segs ∧ seg_query_start sg ≤ p ∧ p ≤ seg_query_end sg) ∧
  Z.of_nat (length segs) = dp !!! 0%nat.
Proof.
  intros Hst Hrec.
  destruct (reconstruct_path_chain query idx dp trace fuel segs Hst Hrec)
    as [Hchain Hlen].
  split_and!.
  - by eapply find_optimal_path_trace.
  - by eapply chain_adjacent.
  - intros p. by rewrite <- (chain_cover idx query 0 segs Hchain p).
  - done.
Qed.

Lemma reconstruct_path_invariants_witness :
  ∃ dp trace segs,
    find_optimal_path_state (dna "CGATAT") example_index = Ok (dp, trace) ∧
    reconstruct_path 6 trace (Z.of_nat (length (dna "CGATAT"))) = Some (Ok segs) ∧
    Z.of_nat (length segs) = dp !!! 0%nat.
Proof.
  destruct (find_optimal_path_state (dna "CGATAT") example_index)
    as [[dp trace]|] eqn:Hst; [|vm_compute in Hst; discriminate].
  destruct (reconstruct_path 6 trace (Z.of_nat (length (dna "CGATAT"))))
    as [[segs|]|] eqn:Hrec.
  - exists dp, trace, segs. split; [reflexivity|]. split; [exact Hrec|].
    exact (proj2 (proj2 (proj2
             (reconstruct_path_invariants _ _ _ _ 6%nat _ Hst Hrec)))).
  - exfalso. vm_compute in Hst. injection Hst as <- <-.
    vm_compute in Hrec. discriminate.
  - exfalso. vm_compute in Hst. injection Hst as <- <-.
    vm_compute in Hrec. discriminate.
Defined.

(** C10: in the trace computed by [find_optimal_path], every decision
    resumes right after its own match, strictly further on and at most at
    [query_len], at a position that is the end or holds a decision again;
    hence if position 0 holds a decision [reconstruct_path] returns
    (within [query_len] iterations), and an AlignmentBreak it throws names
    position 0. *)
Theorem reconstruct_path_break_at_zero (query : list ascii)
    (idx : gmap Z RefSeq) (dp : list Z) (trace : list (option Trace)) :
  find_optimal_path_state query idx = Ok (dp, trace) →
  (∀ j t, trace !! j = Some (Some t) →
     t_next t = t_query_end t + 1 ∧
     t_query_start t = Z.of_nat j ∧
     Z.of_nat j < t_next t ∧ t_next t ≤ Z.of_nat (length query) ∧
     (t_next t = Z.of_nat (length query) ∨
      ∃ t', trace !! Z.to_nat (t_next t) = Some (Some t'))) ∧
  ((∃ t0, trace !! 0%nat = Some (Some t0)) →
   ∃ segs, reconstruct_path (length query) trace (Z.of_nat (length query))
           = Some (Ok segs)) ∧
  (∀ fuel e, reconstruct_path fuel trace (Z.of_nat (length query))
             = Some (Throw e) → e = AlignmentBreak 0).
Proof.
  intros Hst. apply find_optimal_path_state_planned in Hst as Hpl.
  pose proof (nstarts_le query) as Hn.
  assert (Hwalk : ∀ fuel, (length query ≤ fuel)%nat →
            (∃ t0, trace !!! 0%nat = Some t0) →
            ∃ segs, reconstruct_path fuel trace (Z.of_nat (length query))
                    = Some (Ok segs)).
  { intros fuel Hfuel Ht0.
    destruct (reconstruct_loop_chain idx query _ dp trace Hpl Hn
                (length query) 0 fuel [])
      as (segs & Hrec & _); try lia; [by right|].
    exists segs. exact Hrec. }
  split_and!.
  - intros j t Hjt.
    assert (Hj : (j < length trace)%nat) by (eapply lookup_lt_Some, Hjt).
    destruct Hpl as (Hldp & Hltr & Hlast & Htlast & Hrest).
    assert (Hpl : planned idx query (nstarts query) dp trace)
      by (unfold planned; tauto).
    apply list_lookup_total_correct in Hjt as Ht.
    destruct (decide (j = length query)) as [-> | Hne]; [congruence|].
    pose proof (planned_decision idx query _ dp trace Hpl Hn j) as Hd.
    rewrite Ht in Hd.
    destruct Hd as (e & r & He & Hr & -> & Hcost & Hnext); [lia|].
    cbn. split_and!; try lia.
    replace (Z.of_nat e + 1) with (Z.of_nat (S e)) by lia.
    rewrite Nat2Z.id.
    destruct (planned_reachable idx query _ dp trace Hpl Hn (S e))
      as [-> | [t' Ht']]; [lia | done | by left | right].
    exists t'. rewrite (planned_lookup idx query _ dp trace Hpl) by lia.
    by rewrite Ht'.
  - intros [t0 Ht0]. apply Hwalk; [lia|]. exists t0.
    by apply list_lookup_total_correct.
  - intros fuel e Hrec.
    destruct (trace !!! 0%nat) as [t0|] eqn:Ht0.
    + destruct (Hwalk (Nat.max fuel (length query))) as [segs Hok]; [lia | eauto |].
      unfold reconstruct_path in *.
      apply (reconstruct_loop_fuel_mono _ _ _ (Nat.max fuel (length query)))
        in Hrec; [congruence | lia].
    + unfold reconstruct_path in Hrec.
      destruct fuel as [|fuel]; cbn [reconstruct_loop] in Hrec;
        destruct (0 <? Z.of_nat (length query)) eqn:E; try discriminate.
      change (Z.to_nat 0) with 0%nat in Hrec.
      rewrite (planned_lookup idx query _ dp trace Hpl) in Hrec by lia.
      rewrite Ht0 in Hrec. by injection Hrec as <-.
Qed.

Lemma reconstruct_path_break_at_zero_witness :
  ∃ dp trace,
    find_optimal_path_state (dna "AC") example_index = Ok (dp, trace) ∧
    ∀ fuel e, reconstruct_path fuel trace (Z.of_nat (length (dna "AC")))
              = Some (Throw e) → e = AlignmentBreak 0.
Proof.
  destruct (find_optimal_path_state (dna "AC") example_index)
    as [[dp trace]|] eqn:Hst; [|vm_compute in Hst; discriminate].
  exists dp, trace. split; [reflexivity|].
  exact (proj2 (proj2 (reconstruct_path_break_at_zero _ _ _ _ Hst))).
Defined.

(** ** Tie-break *)

(** C3: at a start position visited by the loop, the final [dp[start]]
    is at most the cost of every candidate, and whenever a forward-strand
    candidate has that cost, the retained decision is a forward-strand
    candidate of that cost whose end is at least as large: the forward
    candidate with the largest end wins, and no reverse-complement
    candidate of equal cost is kept instead. *)
Theorem find_optimal_path_tie_break (query : list ascii)
    (idx : gmap Z RefSeq) (dp : list Z) (trace : list (option Trace))
    (start e : nat) (r : RefSeq) :
  find_optimal_path_state query idx = Ok (dp, trace) →
  (start < nstarts query)%nat →
  (start ≤ e < length query)%nat →
  idx !! rolling_hash (substring query start e) = Some r →
  rs_reverse r = false →
  wrap64 (dp !!! S e + 1) = dp !!! start →
  (∀ e1 r1, (start ≤ e1 < length query)%nat →
     idx !! rolling_hash (substring query start e1) = Some r1 →
     dp !!! start ≤ wrap64 (dp !!! S e1 + 1)) ∧
  ∃ e' r',
    (e ≤ e' < length query)%nat ∧
    idx !! rolling_hash (substring query start e') = Some r' ∧
    rs_reverse r' = false ∧
    wrap64 (dp !!! S e' + 1) = dp !!! start ∧
    trace !! start
    = Some (Some (mkTrace r' (Z.of_nat e' + 1) (Z.of_nat start) (Z.of_nat e'))).
Proof.
  intros Hst Hstart He Hr Hfwd Hcost.
  apply find_optimal_path_state_planned in Hst as Hpl.
  pose proof (nstarts_le query) as Hn.
  destruct Hpl as (Hldp & Hltr & Hlast & Htlast & Hnot & Hdone).
  pose proof (Hdone start Hstart) as Hb.
  set (b := best_end idx dp (Z.of_nat start) (drop start query)
              (Z.of_nat start) 0 (UNREACHABLE, None)) in *.
  assert (Hb1 : dp !!! start = b.1) by (by rewrite <- Hb).
  assert (Hb2 : trace !!! start = b.2) by (by rewrite <- Hb).
  assert (Hcand : ∀ e1 r1, (start ≤ e1 < length query)%nat →
            idx !! rolling_hash (substring query start e1) = Some r1 →
            is_cand idx (drop start query) 0 (e1 - start) r1 ∧
            cand_cost dp (Z.of_nat start) (e1 - start)
            = wrap64 (dp !!! S e1 + 1)).
  { intros e1 r1 He1 Hr1. split.
    - split; [rewrite length_drop; lia|].
      rewrite substring_drop. by replace (start + (e1 - start))%nat with e1 by lia.
    - unfold cand_cost. do 4 f_equal. lia. }
  split.
  - intros e1 r1 He1 Hr1. destruct (Hcand e1 r1 He1 Hr1) as [Hc1 <-].
    rewrite Hb1. eapply best_end_opt, Hc1.
  - destruct (Hcand e r He Hr) as [Hc Hcc].
    destruct (best_end_forward_last idx dp (Z.of_nat start) (drop start query)
                (Z.of_nat start) 0 (UNREACHABLE, None) (e - start) r Hc Hfwd)
      as (k' & r' & Hk' & [Hlen' Hr'] & Hfwd' & Hbest).
    { fold b. by rewrite Hcc, Hcost. }
    fold b in Hbest. rewrite length_drop in Hlen'.
    rewrite substring_drop in Hr'.
    exists (start + k')%nat, r'. split_and!; try (lia || done).
    + rewrite Hb1, Hbest. cbn [fst]. unfold cand_cost. do 4 f_equal. lia.
    + rewrite (list_lookup_lookup_total_lt trace start) by lia.
      rewrite Hb2, Hbest. cbn [snd]. unfold cand_trace. do 3 f_equal; lia.
Qed.

(** ** Minimality *)

Lemma planned_lower_bound (idx : gmap Z RefSeq) (query : list ascii)
    (dp : list Z) (trace : list (option Trace)) :
  planned idx query (length query) dp trace →
  ∀ pieces j,
    (j ≤ length query)%nat →
    concat pieces = drop j query →
    Forall (hashed idx) pieces →
    dp !!! j ≤ Z.of_nat (length pieces).
Proof.
  intros Hpl. induction pieces as [|c pieces IH]; intros j Hj Hcat Hall.
  - apply (f_equal length) in Hcat. rewrite length_drop in Hcat. cbn in Hcat.
    assert (j = length query) as -> by lia.
    destruct Hpl as (_ & _ & -> & _). done.
  - inversion Hall as [|? ? [Hne [r Hr]] Hrest]; subst.
    cbn [concat] in Hcat.
    assert (Hlen : (length c + length (concat pieces) = length query - j)%nat).
    { apply (f_equal length) in Hcat.
      by rewrite length_app, length_drop in Hcat. }
    destruct c as [|x c']; [done|]. set (c := x :: c') in *.
    assert (Hc : length c = S (length c')) by done.
    assert (Hnext : dp !!! (j + length c)%nat ≤ Z.of_nat (length pieces)).
    { apply IH; [lia | | done].
      rewrite <- drop_drop, <- Hcat. by rewrite drop_app_length. }
    assert (Hcand : is_cand idx (drop j query) 0 (length c') r).
    { split; [rewrite length_drop; lia|].
      rewrite <- Hcat, <- Hc, take_app_length. exact Hr. }
    pose proof (best_end_opt idx dp (Z.of_nat j) (drop j query) (Z.of_nat j) 0
                  (UNREACHABLE, None) (length c') r Hcand) as Hopt.
    destruct Hpl as (Hldp & Hltr & Hlast & Htlast & Hnot & Hdone).
    assert (Hpl : planned idx query (length query) dp trace)
      by (unfold planned; tauto).
    rewrite <- (Hdone j) in Hopt by lia. cbn [fst] in Hopt.
    pose proof (planned_dp_range idx query _ dp trace Hpl (Nat.le_refl _)
                  (j + length c)%nat) as Hrg.
    unfold cand_cost in Hopt.
    replace (Z.to_nat (Z.of_nat j + Z.of_nat (length c') + 1))
      with (j + length c)%nat in Hopt by lia.
    rewrite wrap64_small in Hopt by (unfold UNREACHABLE in Hrg; lia).
    cbn [length]. lia.
Qed.

Lemma align_Ok_state (query : list ascii) (idx : gmap Z RefSeq)
    (out : result (list MatchSegment)) :
  align query idx = Some out →
  (∃ e, find_optimal_path_state query idx = Throw e ∧ out = Throw e) ∨
  ∃ dp trace,
    find_optimal_path_state query idx = Ok (dp, trace) ∧
    reconstruct_path (length query) trace (Z.of_nat (length query)) = Some out.
Proof.
  unfold align, find_optimal_path.
  destruct (find_optimal_path_state query idx) as [[dp trace]|e];
    cbn [mbind result_bind snd].
  - intros H. right. eauto.
  - intros [= <-]. left. eauto.
Qed.


Lemma find_optimal_path_tie_break_witness :
  ∃ dp trace,
    find_optimal_path_state (dna "GATC") example_index = Ok (dp, trace) ∧
    (0 < nstarts (dna "GATC"))%nat ∧
    example_index !! rolling_hash (substring (dna "GATC") 0 0)
    = Some (mkRefSeq 3 3 false) ∧
    wrap64 (dp !!! 1%nat + 1) = dp !!! 0%nat ∧
    ∃ e' r',
      rs_reverse r' = false ∧
      trace !! 0%nat
      = Some (Some (mkTrace r' (Z.of_nat e' + 1) (Z.of_nat 0) (Z.of_nat e'))).
Proof.
  destruct (find_optimal_path_state (dna "GATC") example_index)
    as [[dp trace]|] eqn:Hst; [|vm_compute in Hst; discriminate].
  pose proof Hst as Hval. vm_compute in Hval. injection Hval as Hd Ht.
  assert (H1 : (0 < nstarts (dna "GATC"))%nat) by (vm_compute; lia).
  assert (H2 : (0 ≤ 0 < length (dna "GATC"))%nat) by (vm_compute; lia).
  assert (H3 : example_index !! rolling_hash (substring (dna "GATC") 0 0)
               = Some (mkRefSeq 3 3 false)) by (vm_compute; reflexivity).
  assert (H4 : wrap64 (dp !!! 1%nat + 1) = dp !!! 0%nat)
    by (rewrite <- Hd; vm_compute; reflexivity).
  exists dp, trace.
  split; [reflexivity|]. split; [exact H1|]. split; [exact H3|].
  split; [exact H4|].
  destruct (find_optimal_path_tie_break _ _ _ _ 0%nat 0%nat _
              Hst H1 H2 H3 eq_refl H4)
    as [_ (e' & r' & _ & _ & Hfwd & _ & Htr)].
  exists e', r'. split; [exact Hfwd | exact Htr].
Defined.


(** ** Alignment breaks *)

Lemma chain_segments (idx : gmap Z RefSeq) (query : list ascii) (j : nat)
    (segs : list MatchSegment) :
  chain idx query j segs →
  ∀ sg, sg ∈ segs →
    ∃ i e r, sg = mkMatchSegment r (Z.of_nat i) (Z.of_nat e) ∧
             (i ≤ e < length query)%nat ∧
             idx !! rolling_hash (substring query i e) = Some r.
Proof.
  induction 1 as [|j e r segs He Hr Hch IH]; intros sg Hin.
  - by apply elem_of_nil in Hin.
  - apply elem_of_cons in Hin as [-> | Hin]; [|by apply IH].
    exists j, e, r. done.
Qed.

Lemma align_defined (query : list ascii) (idx : gmap Z RefSeq) :
  valid_dna query →
  ∃ dp trace,
    find_optimal_path_state query idx = Ok (dp, trace) ∧
    planned idx query (nstarts query) dp trace ∧
    align query idx
    = reconstruct_path (length query) trace (Z.of_nat (length query)) ∧
    ((∃ segs, align query idx = Some (Ok segs) ∧ chain idx query 0 segs) ∨
     (align query idx = Some (Throw (AlignmentBreak 0)) ∧
      trace !!! 0%nat = None ∧ query ≠ [])).
Proof.
  intros Hv.
  destruct (find_optimal_path_state_total query idx Hv)
    as (dp & trace & Hst & Hpl).
  pose proof (nstarts_le query) as Hn.
  assert (Hal : align query idx
                = reconstruct_path (length query) trace (Z.of_nat (length query))).
  { unfold align. by rewrite (find_optimal_path_trace _ _ _ _ Hst). }
  exists dp, trace. split_and!; try done. rewrite Hal.
  destruct (decide (query = [])) as [-> | Hne].
  { left. exists []. split; [reflexivity | apply (chain_nil idx [])]. }
  assert (Hlen : (0 < length query)%nat) by (destruct query; cbn; [done | lia]).
  destruct (trace !!! 0%nat) as [t0|] eqn:Ht0.
  - left.
    destruct (reconstruct_loop_chain idx query _ dp trace Hpl Hn
                (length query) 0 (length query) [])
      as (segs & Hrec & Hchain & _); try lia; [right; eauto|].
    exists segs. split; [exact Hrec | done].
  - right. split_and!; try done.
    pose proof (planned_lookup idx query _ dp trace Hpl Hn 0 ltac:(lia)) as Hl0.
    rewrite Ht0 in Hl0.
    unfold reconstruct_path. destruct (length query) as [|k] eqn:Hk; [lia|].
    cbn [reconstruct_loop].
    replace (0 <? Z.of_nat (S k)) with true by (symmetry; apply Z.ltb_lt; lia).
    change (Z.to_nat 0) with 0%nat. by rewrite Hl0.
Qed.

Lemma uncovered_break (query : list ascii) (idx : gmap Z RefSeq) (p : nat) :
  valid_dna query → (p < length query)%nat → uncovered idx query p →
  align query idx = Some (Throw (AlignmentBreak 0)).
Proof.
  intros Hv Hp Hunc.
  destruct (align_defined query idx Hv)
    as (dp & trace & _ & _ & _ & [(segs & _ & Hchain) | (Hal & _)]);
    [exfalso | done].
  destruct (proj1 (chain_cover idx query 0 segs Hchain (Z.of_nat p)))
    as (sg & Hin & Hlo & Hhi); [lia|].
  destruct (chain_segments idx query 0 segs Hchain sg Hin)
    as (i & e & r & -> & Hie & Hr).
  cbn in Hlo, Hhi. rewrite (Hunc i e) in Hr by lia. discriminate.
Qed.

Lemma substring_lookup (sq : list ascii) (i j p : nat) (c : ascii) :
  (i ≤ p)%nat → (p ≤ j)%nat → sq !! p = Some c → c ∈ substring sq i j.
Proof.
  intros Hip Hpj Hc. apply list_elem_of_lookup. exists (p - i)%nat.
  unfold substring. rewrite lookup_take_lt by lia.
  rewrite lookup_drop. by replace (i + (p - i))%nat with p by lia.
Qed.

Lemma occurs_in_elem (w sq : list ascii) (c : ascii) :
  occurs_in w sq → c ∈ w → c ∈ sq.
Proof.
  intros (pre & post & ->) Hc. rewrite !elem_of_app. tauto.
Qed.

(** How far the misreported position reaches: whenever the query contains
    a symbol that occurs neither in the reference nor in its reverse
    complement, and no query substring is in the index by a hash collision,
    the break carries position 0, wherever the symbol stands. *)
Theorem absent_symbol_break (r query : list ascii) (idx : gmap Z RefSeq)
    (p : nat) (c : ascii) :
  valid_dna query →
  query !! p = Some c →
  c ∉ r → c ∉ revcomp r →
  collision_free idx r query →
  align query idx = Some (Throw (AlignmentBreak 0)).
Proof.
  intros Hv Hp Hr Hrc Hfree.
  apply (uncovered_break query idx p Hv); [eapply lookup_lt_Some, Hp|].
  intros i j Hi Hj.
  destruct (idx !! rolling_hash (substring query i j)) as [loc|] eqn:E;
    [exfalso | done].
  pose proof (substring_lookup query i j p c Hi (proj1 Hj) Hp) as Hin.
  destruct (Hfree i j) as [Hocc | Hocc]; [lia | by rewrite E | |].
  - apply Hr. eapply occurs_in_elem; eauto.
  - apply Hrc. eapply occurs_in_elem; eauto.
Qed.

(** C7 does not hold of the code: reference "A", query "AC".  The symbol C
    is on neither strand of the reference and stands at query position 1;
    position 0 has a hashed match (the piece "A" is in the index) and
    position 1 has none.  The break that [reconstruct_path] throws, and that
    [main] reports, carries position 0 and not the symbol's position 1: the
    loop reports [pos], the position where the stored decisions stop, and a
    decision is stored only where the whole rest of the query can be
    covered. *)
Lemma absent_symbol_break_position :
("C"%char ∉ dna "A") ∧ ("C"%char ∉ revcomp (dna "A")) ∧
  dna "AC" !! 1%nat = Some "C"%char ∧
  (∃ idx, build_index (dna "A") = Ok idx ∧
          is_Some (idx !! rolling_hash (substring (dna "AC") 0 0)) ∧
          idx !! rolling_hash (substring (dna "AC") 1 1) = None) ∧
  align_with (dna "A") (dna "AC") = Some (Throw (AlignmentBreak 0)) ∧
  align_with (dna "A") (dna "AC") ≠ Some (Throw (AlignmentBreak 1)) ∧
  main [dna "A"; dna "AC"] = Some (Caught (AlignmentBreak 0)).
Proof.
  split_and!; try (vm_compute; (reflexivity || discriminate)).
  - intros H. apply list_elem_of_In in H. vm_compute in H.
    destruct H as [H|[]]. discriminate.
  - intros H. apply list_elem_of_In in H. vm_compute in H.
    destruct H as [H|[]]. discriminate.
  - assert (H0 : (idx ← build_index (dna "A");
                  Ok (idx !! rolling_hash (substring (dna "AC") 0 0)))
                 = Ok (Some (mkRefSeq 0 0 false))) by (vm_compute; reflexivity).
    assert (H1 : (idx ← build_index (dna "A");
                  Ok (idx !! rolling_hash (substring (dna "AC") 1 1)))
                 = Ok None) by (vm_compute; reflexivity).
    apply index_lookup_eval in H0 as (idx & Hidx & Hl0).
    apply index_lookup_eval in H1 as (idx' & Hidx' & Hl1).
    rewrite Hidx in Hidx'. injection Hidx' as <-.
    exists idx. split; [exact Hidx|]. split; [by rewrite Hl0 | exact Hl1].
Qed.

(** With a hash collision the alignment does not even fail: this query
    contains C and G, absent from the all-A/T reference on both strands,
    yet its hash equals that of the whole reference. *)
Lemma absent_symbol_aligned_by_collision :
  align_with (dna "TAAAATATAATTATAATTA") (dna "GGACGGATAATTATAATCC")
  = Some (Ok [mkMatchSegment (mkRefSeq 0 18 false) 0 18]).
Proof. vm_compute. reflexivity. Qed.

(** ** Short strings hash without collision *)

Lemma value_snoc (w : list ascii) (c : ascii) :
  value (w ++ [c]) = value w * 5 + code c.
Proof. unfold value. by rewrite fold_left_app. Qed.

Lemma valid_dna_snoc (w : list ascii) (c : ascii) :
  valid_dna (w ++ [c]) ↔ valid_dna w ∧ is_dna c.
Proof.
  unfold valid_dna. rewrite Forall_app, Forall_singleton. tauto.
Qed.

Lemma value_bounds (w : list ascii) :
  valid_dna w → 0 ≤ value w ∧ value w + 1 ≤ 5 ^ Z.of_nat (length w).
Proof.
  induction w as [|c w IH] using rev_ind; intros Hv; [cbn; lia|].
  apply valid_dna_snoc in Hv as [Hw Hc]. specialize (IH Hw).
  pose proof (code_range c Hc).
  rewrite value_snoc, length_app. cbn [length].
  replace (Z.of_nat (length w + 1)) with (Z.succ (Z.of_nat (length w))) by lia.
  rewrite Z.pow_succ_r by lia. lia.
Qed.

Lemma value_inj (w1 w2 : list ascii) :
  valid_dna w1 → valid_dna w2 → value w1 = value w2 → w1 = w2.
Proof.
  revert w2. induction w1 as [|c1 w1 IH] using rev_ind; intros w2 Hv1 Hv2 Heq.
  - destruct w2 as [|c2 w2 _] using rev_ind; [done|].
    apply valid_dna_snoc in Hv2 as [Hw2 Hc2].
    pose proof (code_range c2 Hc2). pose proof (value_bounds w2 Hw2).
    rewrite value_snoc in Heq. cbn in Heq. lia.
  - apply valid_dna_snoc in Hv1 as [Hw1 Hc1].
    pose proof (code_range c1 Hc1). pose proof (value_bounds w1 Hw1).
    destruct w2 as [|c2 w2 _] using rev_ind.
    + rewrite value_snoc in Heq. cbn in Heq. lia.
    + apply valid_dna_snoc in Hv2 as [Hw2 Hc2].
      pose proof (code_range c2 Hc2).
      rewrite !value_snoc in Heq.
      assert (value w1 = value w2 ∧ code c1 = code c2) as [Hv Hc] by lia.
      by rewrite (IH w2 Hw1 Hw2 Hv), (code_inj c1 c2 Hc1 Hc2 Hc).
Qed.

Lemma rolling_hash_value (w : list ascii) :
  valid_dna w → value w < MOD → rolling_hash w = value w.
Proof.
  induction w as [|c w IH] using rev_ind; intros Hv Hlt; [reflexivity|].
  apply valid_dna_snoc in Hv as [Hw Hc].
  pose proof (code_range c Hc). pose proof (value_bounds w Hw).
  rewrite value_snoc in *. unfold rolling_hash in *. rewrite rolling_snoc.
  rewrite IH by (done || lia). unfold hash_next, MOD in *.
  rewrite wrap64_small by lia. apply Z.mod_small. lia.
Qed.

Lemma rolling_hash_short (w : list ascii) :
  valid_dna w → (length w ≤ 18)%nat → rolling_hash w = value w.
Proof.
  intros Hv Hlen. apply rolling_hash_value; [done|].
  pose proof (value_bounds w Hv) as [_ Hub].
  assert (5 ^ Z.of_nat (length w) ≤ 5 ^ 18)
    by (apply Z.pow_le_mono_r; lia).
  unfold MOD. lia.
Qed.

Lemma rolling_hash_short_inj (w1 w2 : list ascii) :
  valid_dna w1 → valid_dna w2 →
  (length w1 ≤ 18)%nat → (length w2 ≤ 18)%nat →
  rolling_hash w1 = rolling_hash w2 → w1 = w2.
Proof.
  intros Hv1 Hv2 Hl1 Hl2. rewrite !rolling_hash_short by done.
  by apply value_inj.
Qed.

Lemma valid_dna_substring (sq : list ascii) (s e : nat) :
  valid_dna sq → valid_dna (substring sq s e).
Proof. intros Hv. unfold substring. by apply Forall_take, Forall_drop. Qed.

Lemma length_substring (sq : list ascii) (s e : nat) :
  (s ≤ e < length sq)%nat → length (substring sq s e) = (S e - s)%nat.
Proof.
  intros Hse. unfold substring. rewrite length_take, length_drop. lia.
Qed.

Lemma substring_occurs (sq : list ascii) (s e : nat) :
  occurs_in (substring sq s e) sq.
Proof.
  exists (take s sq), (drop (S e - s) (drop s sq)).
  unfold substring. by rewrite take_drop, take_drop.
Qed.


(** For a reference and a query of at most 18 symbols the index has no
    collisions. *)
Lemma short_collision_free (r query : list ascii) (idx : gmap Z RefSeq) :
  valid_dna r → valid_dna query →
  (length r ≤ 18)%nat → (length query ≤ 18)%nat →
  build_index r = Ok idx →
  collision_free idx r query.
Proof.
  intros Hvr Hvq Hlr Hlq Hidx i j Hij [loc Hloc].
  destruct (build_index_lookup r Hvr) as (fwd & idx' & _ & _ & Hidx' & Hlook).
  rewrite Hidx in Hidx'. injection Hidx' as <-.
  rewrite Hlook in Hloc. apply first_writer_elem, elem_of_app in Hloc.
  assert (Hsub : ∀ reverse sq,
            valid_dna sq → (length sq ≤ 18)%nat →
            (rolling_hash (substring query i j), loc) ∈ index_entries reverse sq →
            occurs_in (substring query i j) sq).
  { intros reverse sq Hvs Hls Hin.
    apply elem_of_index_entries in Hin as (s & e & Hse & Hx).
    unfold index_entry in Hx. cbn [fst snd] in Hx. injection Hx as Hh _.
    apply rolling_hash_short_inj in Hh as ->.
    - apply substring_occurs.
    - by apply valid_dna_substring.
    - by apply valid_dna_substring.
    - rewrite length_substring; lia.
    - rewrite length_substring; lia. }
  destruct Hloc as [Hin | Hin]; [left | right]; eapply Hsub; try exact Hin.
  - done.
  - done.
  - by apply valid_dna_revcomp.
  - by rewrite length_revcomp.
Qed.

Lemma absent_symbol_break_witness :
  ∃ idx,
    build_index (dna "A") = Ok idx ∧
    valid_dna (dna "AC") ∧
    dna "AC" !! 1%nat = Some "C"%char ∧
    ("C"%char ∉ dna "A") ∧ ("C"%char ∉ revcomp (dna "A")) ∧
    collision_free idx (dna "A") (dna "AC") ∧
    align (dna "AC") idx = Some (Throw (AlignmentBreak 0)).
Proof.
  destruct (build_index (dna "A")) as [idx|] eqn:Hidx;
    [|vm_compute in Hidx; discriminate].
  assert (Hvr : valid_dna (dna "A")) by (by apply valid_dna_literal).
  assert (Hvq : valid_dna (dna "AC")) by (by apply valid_dna_literal).
  assert (Hp : dna "AC" !! 1%nat = Some "C"%char) by reflexivity.
  assert (Hr : "C"%char ∉ dna "A").
  { intros H. apply list_elem_of_In in H. vm_compute in H.
    destruct H as [H|[]]. discriminate. }
  assert (Hrc : "C"%char ∉ revcomp (dna "A")).
  { intros H. apply list_elem_of_In in H. vm_compute in H.
    destruct H as [H|[]]. discriminate. }
  assert (Hfree : collision_free idx (dna "A") (dna "AC")).
  { apply short_collision_free; try done; cbn; lia. }
  exists idx. split; [reflexivity|]. split; [exact Hvq|]. split; [exact Hp|].
  split; [exact Hr|]. split; [exact Hrc|]. split; [exact Hfree|].
  exact (absent_symbol_break (dna "A") (dna "AC") idx 1 "C"%char
           Hvq Hp Hr Hrc Hfree).
Defined.


(** ** Empty inputs and the worked example *)

(** C8 fails as stated: on the empty reference and the empty query the
    core functions return normally. *)
Lemma empty_input_not_rejected_by_core :
  build_reference_hash [] ∅ false = Ok ∅ ∧
  build_reference_hash [] ∅ true = Ok ∅ ∧
  align [] ∅ = Some (Ok []) ∧
  ¬ (∃ e, build_reference_hash [] ∅ false = Throw e) ∧
  ¬ (∃ e, align [] ∅ = Some (Throw e)).
Proof.
  split_and!; try reflexivity.
  - intros [e He]. discriminate.
  - intros [e He]. discriminate.
Qed.

(** C8 (as amended): [build_reference_hash] on an empty reference returns
    the map it was given, and aligning an empty query returns the empty
    segment list, whatever the index; an input line that is empty after
    trimming is rejected by [main] itself, before the core is called, with
    its own message and exit status 1. *)
Theorem empty_input_handling :
  (∀ m reverse, build_reference_hash [] m reverse = Ok m) ∧
  build_index [] = Ok ∅ ∧
  (∀ idx, find_optimal_path [] idx = Ok [None] ∧ align [] idx = Some (Ok [])) ∧
  (∀ line1 rest,
     to_upper (trim line1) = [] → main (line1 :: rest) = Some EmptyReference) ∧
  (∀ line1 line2 rest,
     to_upper (trim line1) ≠ [] → to_upper (trim line2) = [] →
     main (line1 :: line2 :: rest) = Some EmptyQuery) ∧
  exit_code EmptyReference = 1 ∧ exit_code EmptyQuery = 1.
Proof.
  split_and!; try reflexivity.
  - intros m []; reflexivity.
  - intros idx. split; reflexivity.
  - intros line1 rest H. unfold main. rewrite H. reflexivity.
  - intros line1 line2 rest H1 H2. unfold main.
    destruct (decide (to_upper (trim line1) = [])) as [|_]; [done|].
    rewrite H2. reflexivity.
Qed.

Lemma empty_input_handling_witness :
  to_upper (trim (dna "  ")) = [] ∧
  main [dna "  "; dna "ACGT"] = Some EmptyReference ∧
  to_upper (trim (dna " acgt ")) ≠ [] ∧
  main [dna " acgt "; dna ""] = Some EmptyQuery.
Proof.
  assert (H1 : to_upper (trim (dna "  ")) = []) by reflexivity.
  assert (H2 : to_upper (trim (dna " acgt ")) ≠ []) by (vm_compute; discriminate).
  assert (H3 : to_upper (trim (dna "")) = []) by reflexivity.
  destruct empty_input_handling as (_ & _ & _ & Href & Hq & _).
  split; [exact H1|]. split; [exact (Href _ _ H1)|].
  split; [exact H2|]. exact (Hq _ _ _ H2 H3).
Defined.

(** C9: for the reference "AAAA" and the query "TTTT" alignment succeeds
    with exactly one segment, on the reverse-complement strand, with
    reference range [0,3] and query range [0,3]. *)
Theorem example_AAAA_TTTT :
  align_with (dna "AAAA") (dna "TTTT")
  = Some (Ok [mkMatchSegment (mkRefSeq 0 3 true) 0 3]) ∧
  main [dna "AAAA"; dna "TTTT"]
  = Some (Reported [mkMatchSegment (mkRefSeq 0 3 true) 0 3]).
Proof. split; vm_compute; reflexivity. Qed.

(** The other worked examples of the specification. *)
Example example_ATCG_AT :
  align_with (dna "ATCG") (dna "AT")
  = Some (Ok [mkMatchSegment (mkRefSeq 0 1 false) 0 1]).
Proof. vm_compute. reflexivity. Qed.

Example example_ATCG_CGAT :
  reverse_dna (dna "ATCG") = Ok (dna "CGAT") ∧
  align_with (dna "ATCG") (dna "CGAT")
  = Some (Ok [mkMatchSegment (mkRefSeq 0 3 true) 0 3]).
Proof. split; vm_compute; reflexivity. Qed.

Example substrings_in_order_3 :
  substrings_in_order 3
  = [(0, 0); (0, 1); (0, 2); (1, 1); (1, 2); (2, 2)]%nat.
Proof. reflexivity. Qed.

(** ** The program as a whole *)

Lemma validate_dna_valid (s : list ascii) (name : string) :
  validate_dna s name = Ok tt ↔ valid_dna s.
Proof.
  induction s as [|c s IH]; cbn [validate_dna].
  - split; [constructor | done].
  - destruct (bool_decide (c ≠ "A"%char) && bool_decide (c ≠ "T"%char)
              && bool_decide (c ≠ "C"%char) && bool_decide (c ≠ "G"%char))
      eqn:E.
    + split; [discriminate|]. intros Hv. exfalso.
      inversion Hv as [|? ? Hc _]; subst.
      rewrite !andb_true_iff, !bool_decide_eq_true in E.
      unfold is_dna in Hc. tauto.
    + rewrite IH. split; [|by inversion 1].
      intros Hv. constructor; [|done].
      rewrite !andb_false_iff, !bool_decide_eq_false in E.
      unfold is_dna.
      destruct (decide (c = "A"%char)); [tauto|].
      destruct (decide (c = "T"%char)); [tauto|].
      destruct (decide (c = "C"%char)); [tauto|].
      destruct (decide (c = "G"%char)); tauto.
Qed.

(** [main] always has an outcome: the reconstruction never needs more
    than [query_len] iterations and never reads outside the trace. *)
Lemma main_defined (stdin : list (list ascii)) : is_Some (main stdin).
Proof.
  unfold main. destruct stdin as [|line1 [|line2 rest]]; [eauto | |].
  - destruct (decide _); eauto.
  - destruct (decide _); [eauto|]. destruct (decide _); [eauto|].
    destruct (validate_dna (to_upper (trim line1)) _) as [[]|] eqn:E1;
      cbn [mbind result_bind]; [|eauto].
    destruct (validate_dna (to_upper (trim line2)) _) as [[]|] eqn:E2;
      cbn [mbind result_bind]; [|eauto].
    destruct (build_index _) as [idx|]; [|eauto].
    apply validate_dna_valid in E2.
    destruct (align_defined (to_upper (trim line2)) idx E2)
      as (dp & trace & _ & _ & _ & [(segs & -> & _) | (-> & _)]); eauto.
Qed.


(** * Further properties of the program *)

(** ** Input normalisation: [trim] and [to_upper] *)

Lemma skip_space_split (s : list ascii) :
  ∃ pre, s = pre ++ skip_space s ∧ all_space pre.
Proof.
  induction s as [|c s (pre & Hs & Hpre)]; [by exists []; split; [|constructor]|].
  cbn [skip_space]. destruct (isspace c) eqn:E.
  - exists (c :: pre). split; [cbn; by rewrite <- Hs | by constructor].
  - exists []. split; [done | constructor].
Qed.

Lemma skip_space_head (s : list ascii) (c : ascii) :
  head (skip_space s) = Some c → isspace c = false.
Proof.
  induction s as [|d s IH]; cbn [skip_space]; [done|].
  destruct (isspace d) eqn:E; [done|]. by intros [= <-].
Qed.

Lemma skip_space_fixed (s : list ascii) :
  (∀ c, head s = Some c → isspace c = false) → skip_space s = s.
Proof.
  destruct s as [|c s]; [done|]. intros H. cbn. by rewrite (H c).
Qed.

Lemma skip_space_all (s : list ascii) : all_space s → skip_space s = [].
Proof.
  induction 1 as [|c s Hc _ IH]; [done|]. cbn. by rewrite Hc.
Qed.

Lemma head_rev_last (s : list ascii) : head (rev s) = last s.
Proof.
  induction s as [|c s IH] using rev_ind; [done|].
  by rewrite rev_unit, last_snoc.
Qed.

Lemma head_app_l (s t : list ascii) (c : ascii) :
  head s = Some c → head (s ++ t) = Some c.
Proof. by destruct s. Qed.

Lemma trim_split (s : list ascii) :
  ∃ pre post, s = pre ++ trim s ++ post ∧ all_space pre ∧ all_space post.
Proof.
  destruct (skip_space_split s) as (pre & Hs & Hpre).
  destruct (skip_space_split (rev (skip_space s))) as (post & Hr & Hpost).
  exists pre, (rev post). split_and!.
  - unfold trim. rewrite <- rev_app_distr, <- Hr, rev_involutive. exact Hs.
  - done.
  - by apply Forall_rev.
Qed.

Lemma trim_head (s : list ascii) (c : ascii) :
  head (trim s) = Some c → isspace c = false.
Proof.
  intros Hc. apply (skip_space_head s).
  destruct (skip_space_split (rev (skip_space s))) as (post & Hr & _).
  apply (f_equal (@rev ascii)) in Hr.
  rewrite rev_involutive, rev_app_distr in Hr. fold (trim s) in Hr.
  rewrite Hr. by apply head_app_l.
Qed.

Lemma trim_last (s : list ascii) (c : ascii) :
  last (trim s) = Some c → isspace c = false.
Proof.
  unfold trim. rewrite <- head_rev_last, rev_involutive.
  apply skip_space_head.
Qed.

(** X1: [trim] removes exactly a run of whitespace at each end: the input
    is whitespace, then the result, then whitespace; the result neither
    begins nor ends with whitespace; it is empty exactly when the input is
    all whitespace; trimming twice changes nothing more. *)
Theorem trim_spec (s : list ascii) :
  (∃ pre post, s = pre ++ trim s ++ post ∧ all_space pre ∧ all_space post) ∧
  (∀ c, head (trim s) = Some c → isspace c = false) ∧
  (∀ c, last (trim s) = Some c → isspace c = false) ∧
  (trim s = [] ↔ all_space s) ∧
  trim (trim s) = trim s.
Proof.
  split_and!.
  - apply trim_split.
  - apply trim_head.
  - apply trim_last.
  - split.
    + intros Hnil. destruct (trim_split s) as (pre & post & Hs & Hpre & Hpost).
      rewrite Hs, Hnil. cbn. by apply Forall_app.
    + intros Hall. unfold trim. by rewrite (skip_space_all s Hall).
  - unfold trim at 1.
    rewrite (skip_space_fixed (trim s)) by apply trim_head.
    rewrite (skip_space_fixed (rev (trim s))), rev_involutive; [done|].
    intros c. rewrite head_rev_last. apply trim_last.
Qed.

Lemma toupper_cases (c : ascii) :
  toupper (toupper c) = toupper c ∧
  islower (toupper c) = false ∧
  (is_dna c → toupper c = c) ∧
  (is_dna (toupper c) ↔ c ∈ dna "ACGTacgt").
Proof.
  assert (Hin : ∀ l : list ascii, c ∈ l ↔ In c l)
    by (intros l; apply list_elem_of_In).
  rewrite Hin. unfold is_dna.
  destruct c as [[] [] [] [] [] [] [] []]; vm_compute;
    (split; [reflexivity|]); (split; [reflexivity|]);
    (split; [intros H; first [reflexivity
                             | destruct H as [H|[H|[H|H]]]; discriminate H]|]);
    (split; [intros [H|[H|[H|H]]]; first [discriminate H | tauto]
            | intros [H|[H|[H|[H|[H|[H|[H|[H|[]]]]]]]]];
              first [discriminate H | tauto]]).
Qed.

(** X2: [to_upper] keeps the length, is idempotent, leaves no lower-case
    letter and does not change a string over A/T/C/G; after it,
    [validate_dna] accepts exactly the strings written with the letters
    A, C, G, T in either case. *)
Theorem to_upper_spec (s : list ascii) (name : string) :
  length (to_upper s) = length s ∧
  to_upper (to_upper s) = to_upper s ∧
  Forall (λ c, islower c = false) (to_upper s) ∧
  (valid_dna s → to_upper s = s) ∧
  (validate_dna (to_upper s) name = Ok tt ↔
   Forall (λ c, c ∈ dna "ACGTacgt") s).
Proof.
  unfold to_upper. split_and!.
  - apply length_map.
  - rewrite map_map. apply map_ext. intros c.
    exact (proj1 (toupper_cases c)).
  - apply Forall_map, Forall_forall. intros c _.
    exact (proj1 (proj2 (toupper_cases c))).
  - induction 1 as [|c s Hc _ IH]; [done|]. cbn.
    by rewrite IH, (proj1 (proj2 (proj2 (toupper_cases c))) Hc).
  - rewrite validate_dna_valid. unfold valid_dna. rewrite Forall_map.
    apply Forall_iff. intros c.
    exact (proj2 (proj2 (proj2 (toupper_cases c)))).
Qed.

(** ** Error behaviour of the codec and of validation *)

Lemma is_dna_dec (c : ascii) : is_dna c ∨ ¬ is_dna c.
Proof.
  destruct (codec_cases c) as [? | [_ Hn]]; [by left | right].
  intros Hc. rewrite (dna_to_num_code c Hc) in Hn. discriminate.
Qed.

Lemma not_dna_throws (c : ascii) :
  ¬ is_dna c →
  complement c = Throw (InvalidDNA c) ∧ dna_to_num c = Throw (InvalidDNA c).
Proof. intros Hc. by destruct (codec_cases c). Qed.

Lemma valid_or_first_offender (s : list ascii) :
  valid_dna s ∨ ∃ c, first_offender s c.
Proof.
  induction s as [|d s [Hv | (c & pre & post & -> & Hpre & Hc)]].
  - left. constructor.
  - destruct (is_dna_dec d) as [Hd | Hd].
    + left. by constructor.
    + right. exists d, [], s. split_and!; [done | constructor | done].
  - destruct (is_dna_dec d) as [Hd | Hd].
    + right. exists c, (d :: pre), post. split_and!; [done | by constructor | done].
    + right. exists d, [], (pre ++ c :: post).
      split_and!; [done | constructor | done].
Qed.

Lemma first_offender_rev (s : list ascii) (c : ascii) :
  first_offender (rev s) c ↔ last_offender s c.
Proof.
  split; intros (pre & post & Hs & Hv & Hc).
  - exists (rev post), (rev pre). split_and!; [|by apply valid_dna_rev | done].
    apply (f_equal (@rev ascii)) in Hs.
    rewrite rev_involutive, rev_app_distr in Hs. cbn in Hs.
    by rewrite <- app_assoc in Hs.
  - exists (rev post), (rev pre). split_and!; [|by apply valid_dna_rev | done].
    rewrite Hs, rev_app_distr. cbn. by rewrite <- app_assoc.
Qed.

Lemma first_offender_not_valid (s : list ascii) (c : ascii) :
  first_offender s c → ¬ valid_dna s.
Proof.
  intros (pre & post & -> & _ & Hc) Hv.
  apply Forall_app in Hv as [_ Hv]. by inversion Hv.
Qed.

Lemma first_offender_unique (s : list ascii) (c d : ascii) :
  first_offender s c → first_offender s d → c = d.
Proof.
  intros (pre & post & -> & Hpre & Hc). revert d.
  induction Hpre as [|x pre Hx _ IH]; intros d (pre' & post' & Heq & Hpre' & Hd).
  - destruct pre' as [|y pre']; cbn in Heq; [congruence|].
    injection Heq as -> _. by inversion Hpre'.
  - destruct pre' as [|y pre']; cbn in Heq.
    + injection Heq as -> _. done.
    + injection Heq as -> Heq. apply IH. exists pre', post'.
      split_and!; [done | by inversion Hpre' | done].
Qed.

Lemma validate_dna_throws (pre post : list ascii) (c : ascii) (name : string) :
  valid_dna pre → ¬ is_dna c →
  validate_dna (pre ++ c :: post) name = Throw (InvalidInput name c).
Proof.
  intros Hpre Hc. induction Hpre as [|x pre Hx _ IH]; cbn [app validate_dna].
  - unfold is_dna in Hc.
    rewrite !bool_decide_eq_true_2; [done | tauto..].
  - destruct (bool_decide (x ≠ "A"%char) && bool_decide (x ≠ "T"%char)
              && bool_decide (x ≠ "C"%char) && bool_decide (x ≠ "G"%char))
      eqn:E; [|exact IH].
    rewrite !andb_true_iff, !bool_decide_eq_true in E.
    unfold is_dna in Hx. tauto.
Qed.

(** X3: [validate_dna] accepts exactly the strings over A/T/C/G, and
    otherwise throws for the first offending character, under the name
    it was given. *)
Theorem validate_dna_outcome (s : list ascii) (name : string) :
  (validate_dna s name = Ok tt ↔ valid_dna s) ∧
  (∀ e, validate_dna s name = Throw e ↔
        ∃ c, first_offender s c ∧ e = InvalidInput name c).
Proof.
  split; [apply validate_dna_valid|]. intros e. split.
  - intros He. destruct (valid_or_first_offender s) as [Hv | [c Hc]].
    + apply (validate_dna_valid s name) in Hv. congruence.
    + exists c. split; [done|].
      destruct Hc as (pre & post & -> & Hpre & Hc).
      rewrite (validate_dna_throws pre post c name Hpre Hc) in He. congruence.
  - intros (c & (pre & post & -> & Hpre & Hc) & ->).
    by apply validate_dna_throws.
Qed.

(** X4: [dna_to_num] succeeds exactly on A, T, C, G, with distinct codes
    in 1..4, and throws [InvalidDNA] carrying the character otherwise. *)
Theorem dna_to_num_outcome (c : ascii) :
  (∀ d, dna_to_num c = Ok d ↔ is_dna c ∧ d = code c) ∧
  (∀ e, dna_to_num c = Throw e ↔ ¬ is_dna c ∧ e = InvalidDNA c) ∧
  (is_dna c → 1 ≤ code c ∧ code c ≤ 4) ∧
  (∀ c', is_dna c → is_dna c' → code c = code c' → c = c').
Proof.
  split_and!.
  - intros d. split.
    + intros Hd. pose proof (dna_to_num_Ok c d Hd) as Hc.
      rewrite (dna_to_num_code c Hc) in Hd. split; [done | congruence].
    + intros [Hc ->]. by apply dna_to_num_code.
  - intros e. split.
    + intros He. destruct (is_dna_dec c) as [Hc | Hc].
      * rewrite (dna_to_num_code c Hc) in He. discriminate.
      * split; [done|]. destruct (not_dna_throws c Hc) as [_ Hn]. congruence.
    + intros [Hc ->]. by apply not_dna_throws.
  - intros Hc. pose proof (code_range c Hc). lia.
  - intros c'. apply code_inj.
Qed.

Lemma reverse_dna_loop_throws (pre post acc : list ascii) (c : ascii) :
  valid_dna pre → ¬ is_dna c →
  reverse_dna_loop (pre ++ c :: post) acc = Throw (InvalidDNA c).
Proof.
  intros Hpre Hc. revert acc.
  induction Hpre as [|x pre Hx _ IH]; intros acc; cbn [app reverse_dna_loop].
  - by rewrite (proj1 (not_dna_throws c Hc)).
  - rewrite (complement_compl x Hx). cbn [mbind result_bind]. apply IH.
Qed.

(** X5: [reverse_dna] returns exactly on strings over A/T/C/G, and then
    the reversed string with every symbol complemented, of the same
    length; otherwise it throws [InvalidDNA] for the last offending
    character of the string (the first one met from the back). *)
Theorem reverse_dna_outcome (s : list ascii) :
  (∀ r, reverse_dna s = Ok r ↔ valid_dna s ∧ r = revcomp s) ∧
  (∀ e, reverse_dna s = Throw e ↔
        ∃ c, last_offender s c ∧ e = InvalidDNA c) ∧
  (∀ r, reverse_dna s = Ok r → length r = length s ∧ valid_dna r).
Proof.
  assert (Hthrow : ∀ c, last_offender s c →
            reverse_dna s = Throw (InvalidDNA c)).
  { intros c Hc. apply first_offender_rev in Hc
      as (pre & post & Hs & Hpre & Hc).
    unfold reverse_dna. rewrite Hs. by apply reverse_dna_loop_throws. }
  assert (Hcases : valid_dna s ∨ ∃ c, last_offender s c).
  { destruct (valid_or_first_offender (rev s)) as [Hv | [c Hc]].
    - left. apply valid_dna_rev in Hv. by rewrite rev_involutive in Hv.
    - right. exists c. by apply first_offender_rev. }
  assert (Hok : ∀ r, reverse_dna s = Ok r → valid_dna s ∧ r = revcomp s).
  { intros r Hr. destruct Hcases as [Hv | [c Hc]].
    - rewrite (reverse_dna_revcomp s Hv) in Hr. split; [done | congruence].
    - rewrite (Hthrow c Hc) in Hr. discriminate. }
  split_and!.
  - intros r. split; [apply Hok|]. intros [Hv ->]. by apply reverse_dna_revcomp.
  - intros e. split.
    + intros He. destruct Hcases as [Hv | [c Hc]].
      * rewrite (reverse_dna_revcomp s Hv) in He. discriminate.
      * exists c. split; [done|]. rewrite (Hthrow c Hc) in He. congruence.
    + intros (c & Hc & ->). by apply Hthrow.
  - intros r Hr. destruct (Hok r Hr) as [Hv ->].
    split; [apply length_revcomp | by apply valid_dna_revcomp].
Qed.

Lemma revcomp_app (a b : list ascii) :
  revcomp (a ++ b) = revcomp b ++ revcomp a.
Proof. unfold revcomp. by rewrite rev_app_distr, map_app. Qed.

(** X6: on strings over A/T/C/G the reverse complement of a
    concatenation is the concatenation of the reverse complements in the
    opposite order. *)
Theorem reverse_dna_app (a b : list ascii) :
  valid_dna a → valid_dna b →
  ∃ ra rb, reverse_dna a = Ok ra ∧ reverse_dna b = Ok rb ∧
           reverse_dna (a ++ b) = Ok (rb ++ ra).
Proof.
  intros Ha Hb. exists (revcomp a), (revcomp b).
  rewrite !reverse_dna_revcomp, ?revcomp_app; try done.
  by apply Forall_app.
Qed.

Lemma reverse_dna_app_witness :
  valid_dna (dna "GAT") ∧ valid_dna (dna "TACA") ∧
  reverse_dna (dna "GAT" ++ dna "TACA") = Ok (dna "TGTA" ++ dna "ATC").
Proof.
  assert (Ha : valid_dna (dna "GAT")) by (by apply valid_dna_literal).
  assert (Hb : valid_dna (dna "TACA")) by (by apply valid_dna_literal).
  split; [exact Ha|]. split; [exact Hb|].
  destruct (reverse_dna_app (dna "GAT") (dna "TACA") Ha Hb)
    as (ra & rb & Hra & Hrb & Hab).
  vm_compute in Hra, Hrb. injection Hra as <-. injection Hrb as <-.
  exact Hab.
Defined.

(** ** The rolling hash *)

Lemma hash_run_rolling (s : list ascii) :
  valid_dna s → ∀ h, hash_run h s = Ok (rolling h s).
Proof.
  induction 1 as [|c s Hc _ IH]; intros h; cbn [hash_run]; [done|].
  rewrite (hash_step_next h c Hc). cbn [mbind result_bind]. apply IH.
Qed.

Lemma hash_run_throws (pre post : list ascii) (c : ascii) :
  valid_dna pre → ¬ is_dna c →
  ∀ h, hash_run h (pre ++ c :: post) = Throw (InvalidDNA c).
Proof.
  intros Hpre Hc. induction Hpre as [|x pre Hx _ IH]; intros h;
    cbn [app hash_run].
  - unfold hash_step. by rewrite (proj2 (not_dna_throws c Hc)).
  - rewrite (hash_step_next h x Hx). cbn [mbind result_bind]. apply IH.
Qed.

Lemma rolling_hash_mod (s : list ascii) :
  valid_dna s → rolling_hash s = value s mod MOD.
Proof.
  induction s as [|c s IH] using rev_ind; intros Hv; [reflexivity|].
  apply valid_dna_snoc in Hv as [Hs Hc]. pose proof (code_range c Hc).
  unfold rolling_hash in *. rewrite rolling_snoc, value_snoc, (IH Hs).
  unfold hash_next.
  pose proof (Z.mod_pos_bound (value s) MOD ltac:(by vm_compute)) as Hb.
  unfold MOD in *. rewrite wrap64_small by lia.
  rewrite Z.add_mod, Z.mul_mod_idemp_l, <- Z.add_mod by lia. done.
Qed.

(** X7: on a string over A/T/C/G the hash recurrence of the loops never
    overflows 64 bits and yields the base-5 value of the string (digits
    A=1, T=2, C=3, G=4) reduced modulo [MOD], a number below [MOD]; on
    strings of at most 18 symbols that is the value itself, so distinct
    strings hash differently; on any other string the recurrence throws
    for the first offending character. *)
Theorem hash_run_outcome (s : list ascii) :
  (valid_dna s →
   hash_run 0 s = Ok (value s mod MOD) ∧
   rolling_hash s = value s mod MOD ∧
   0 ≤ value s mod MOD ∧ value s mod MOD < MOD ∧
   ((length s ≤ 18)%nat → value s mod MOD = value s)) ∧
  (∀ h c, 0 ≤ h → h < MOD → is_dna c →
     hash_step h c = Ok ((h * 5 + code c) mod MOD) ∧ h * 5 + code c < 2 ^ 64) ∧
  (∀ s', valid_dna s → valid_dna s' →
     (length s ≤ 18)%nat → (length s' ≤ 18)%nat →
     rolling_hash s = rolling_hash s' → s = s') ∧
  (∀ e, hash_run 0 s = Throw e ↔ ∃ c, first_offender s c ∧ e = InvalidDNA c).
Proof.
  split_and!.
  - intros Hv. pose proof (rolling_hash_mod s Hv) as Hm.
    pose proof (Z.mod_pos_bound (value s) MOD ltac:(by vm_compute)) as Hb.
    split_and!; try lia.
    + rewrite (hash_run_rolling s Hv). by rewrite <- Hm.
    + intros Hlen. rewrite <- Hm. by apply rolling_hash_short.
  - intros h c Hh0 Hh Hc. pose proof (code_range c Hc).
    rewrite (hash_step_next h c Hc). unfold hash_next, MOD in *.
    rewrite wrap64_small by lia. split; [done | lia].
  - intros s'. apply rolling_hash_short_inj.
  - intros e. split.
    + intros He. destruct (valid_or_first_offender s) as [Hv | [c Hc]].
      * rewrite (hash_run_rolling s Hv) in He. discriminate.
      * exists c. split; [done|].
        destruct Hc as (pre & post & -> & Hpre & Hc).
        rewrite (hash_run_throws pre post c Hpre Hc) in He. congruence.
    + intros (c & (pre & post & -> & Hpre & Hc) & ->).
      by apply hash_run_throws.
Qed.

(** ** Error behaviour of the index build *)

Lemma build_ends_throws (n : Z) (reverse : bool) (s : Z)
    (pre post : list ascii) (c : ascii) :
  valid_dna pre → ¬ is_dna c →
  ∀ e h m, build_ends n reverse s (pre ++ c :: post) e h m
           = Throw (InvalidDNA c).
Proof.
  intros Hpre Hc. induction Hpre as [|x pre Hx _ IH]; intros e h m;
    cbn [app build_ends].
  - unfold hash_step. by rewrite (proj2 (not_dna_throws c Hc)).
  - rewrite (hash_step_next h x Hx). cbn [mbind result_bind]. apply IH.
Qed.

Lemma build_starts_throws (n : Z) (reverse : bool) (sq : list ascii)
    (c : ascii) (m : gmap Z RefSeq) :
  first_offender sq c →
  build_starts n reverse sq 0 m = Throw (InvalidDNA c).
Proof.
  intros (pre & post & -> & Hpre & Hc).
  pose proof (build_ends_throws n reverse 0 pre post c Hpre Hc 0 0 m) as Ht.
  destruct pre as [|x pre]; cbn [app build_starts] in *; by rewrite Ht.
Qed.

Lemma valid_or_last_offender (s : list ascii) :
  valid_dna s ∨ ∃ c, last_offender s c.
Proof.
  destruct (valid_or_first_offender (rev s)) as [Hv | [c Hc]].
  - left. apply valid_dna_rev in Hv. by rewrite rev_involutive in Hv.
  - right. exists c. by apply first_offender_rev.
Qed.

Lemma reverse_dna_throws (s : list ascii) (c : ascii) :
  last_offender s c → reverse_dna s = Throw (InvalidDNA c).
Proof.
  intros Hc. apply first_offender_rev in Hc as (pre & post & Hs & Hpre & Hc).
  unfold reverse_dna. rewrite Hs. by apply reverse_dna_loop_throws.
Qed.

(** X8: [build_reference_hash] returns exactly when the reference is over
    A/T/C/G (the empty one included); otherwise the forward pass throws
    [InvalidDNA] for the first offending character and the reverse pass,
    which fails already in [reverse_dna], for the last one. *)
Theorem build_reference_hash_outcome (r : list ascii) (m : gmap Z RefSeq)
    (reverse : bool) :
  ((∃ m', build_reference_hash r m reverse = Ok m') ↔ valid_dna r) ∧
  (∀ e, build_reference_hash r m false = Throw e ↔
        ∃ c, first_offender r c ∧ e = InvalidDNA c) ∧
  (∀ e, build_reference_hash r m true = Throw e ↔
        ∃ c, last_offender r c ∧ e = InvalidDNA c).
Proof.
  assert (Hfwd : ∀ c, first_offender r c →
            build_reference_hash r m false = Throw (InvalidDNA c)).
  { intros c Hc. unfold build_reference_hash. cbn [mbind result_bind].
    by apply build_starts_throws. }
  assert (Hrev : ∀ c, last_offender r c →
            build_reference_hash r m true = Throw (InvalidDNA c)).
  { intros c Hc. unfold build_reference_hash.
    by rewrite (reverse_dna_throws r c Hc). }
  split_and!.
  - split.
    + intros [m' Hm']. destruct reverse.
      * destruct (valid_or_last_offender r) as [? | [c Hc]]; [done|].
        rewrite (Hrev c Hc) in Hm'. discriminate.
      * destruct (valid_or_first_offender r) as [? | [c Hc]]; [done|].
        rewrite (Hfwd c Hc) in Hm'. discriminate.
    + intros Hv. eexists. by apply build_reference_hash_fold.
  - intros e. split.
    + intros He. destruct (valid_or_first_offender r) as [Hv | [c Hc]].
      * rewrite (build_reference_hash_fold r m false Hv) in He. discriminate.
      * exists c. split; [done|]. rewrite (Hfwd c Hc) in He. congruence.
    + intros (c & Hc & ->). by apply Hfwd.
  - intros e. split.
    + intros He. destruct (valid_or_last_offender r) as [Hv | [c Hc]].
      * rewrite (build_reference_hash_fold r m true Hv) in He. discriminate.
      * exists c. split; [done|]. rewrite (Hrev c Hc) in He. congruence.
    + intros (c & Hc & ->). by apply Hrev.
Qed.

(** ** What the index holds *)

Lemma first_writer_is_Some_iff (h : Z) (l : list (Z * RefSeq)) :
  is_Some (first_writer h l) ↔ ∃ loc, (h, loc) ∈ l.
Proof.
  split.
  - intros [loc Hloc]. exists loc. by apply first_writer_elem.
  - intros [loc Hloc]. by eapply first_writer_is_Some.
Qed.

Lemma size_fold_insert_if_absent (l : list (Z * RefSeq)) :
  ∀ m : gmap Z RefSeq,
    (size (fold_left insert_if_absent l m) ≤ size m + length l)%nat.
Proof.
  induction l as [|[h loc] l IH]; intros m; cbn [fold_left length]; [lia|].
  etrans; [apply IH|]. unfold insert_if_absent. cbn [fst snd].
  destruct (m !! h) eqn:E; [lia|].
  rewrite map_size_insert_None by done. lia.
Qed.

Lemma length_starts (n : nat) :
  ∀ k s, (s + k = n)%nat →
    (2 * length (flat_map (λ s, map (pair s) (seq s (n - s))) (seq s k))
     = k * (k + 1))%nat.
Proof.
  induction k as [|k IH]; intros s Hsk; [done|].
  cbn [seq flat_map]. rewrite length_app, length_map, length_seq.
  specialize (IH (S s) ltac:(lia)). nia.
Qed.

Lemma length_index_entries (reverse : bool) (sq : list ascii) :
  (2 * length (index_entries reverse sq) = length sq * (length sq + 1))%nat.
Proof.
  unfold index_entries, substrings_in_order. rewrite length_map.
  apply length_starts. lia.
Qed.

(** X9: the index built from a reference over A/T/C/G has as keys exactly
    the rolling hashes of the substrings of the reference and of its
    reverse complement, and holds at most [n (n + 1)] entries. *)
Theorem build_index_keys (r : list ascii) :
  valid_dna r →
  ∃ idx, build_index r = Ok idx ∧
    (∀ h, is_Some (idx !! h) ↔
          ∃ s e, (s ≤ e < length r)%nat ∧
                 (h = rolling_hash (substring r s e) ∨
                  h = rolling_hash (substring (revcomp r) s e))) ∧
    (size idx ≤ length r * (length r + 1))%nat.
Proof.
  intros Hv.
  destruct (build_index_lookup r Hv) as (fwd & idx & Hfwd & Hrev & Hidx & Hlook).
  exists idx. split_and!; [done | |].
  - intros h. rewrite Hlook, first_writer_is_Some_iff. split.
    + intros [loc Hin]. apply elem_of_app in Hin as [Hin | Hin];
        apply elem_of_index_entries in Hin as (s & e & Hse & Hx);
        unfold index_entry in Hx; cbn [fst snd] in Hx; injection Hx as -> _;
        rewrite ?length_revcomp in Hse; exists s, e; tauto.
    + intros (s & e & Hse & [-> | ->]).
      * exists (index_entry false r (s, e)).2. apply elem_of_app. left.
        apply elem_of_index_entries. exists s, e. done.
      * exists (index_entry true (revcomp r) (s, e)).2. apply elem_of_app.
        right. apply elem_of_index_entries. exists s, e.
        rewrite length_revcomp. done.
  - rewrite (build_reference_hash_fold r ∅ false Hv) in Hfwd.
    rewrite (build_reference_hash_fold r fwd true Hv) in Hrev.
    injection Hfwd as <-. injection Hrev as <-.
    pose proof (size_fold_insert_if_absent (index_entries true (revcomp r))
                  (fold_left insert_if_absent (index_entries false r) ∅)) as H2.
    pose proof (size_fold_insert_if_absent (index_entries false r) ∅) as H1.
    rewrite map_size_empty in H1.
    pose proof (length_index_entries false r) as L1.
    pose proof (length_index_entries true (revcomp r)) as L2.
    rewrite length_revcomp in L2. nia.
Qed.

Lemma build_index_keys_witness :
  valid_dna (dna "ATCG") ∧
  ∃ idx, build_index (dna "ATCG") = Ok idx ∧ (size idx ≤ 4 * (4 + 1))%nat.
Proof.
  assert (Hv : valid_dna (dna "ATCG")) by (by apply valid_dna_literal).
  split; [exact Hv|].
  destruct (build_index_keys (dna "ATCG") Hv) as (idx & Hidx & _ & Hsize).
  exists idx. split; [exact Hidx | exact Hsize].
Defined.

Lemma substring_map (f : ascii → ascii) (l : list ascii) (s e : nat) :
  substring (map f l) s e = map f (substring l s e).
Proof. unfold substring. by rewrite skipn_map, firstn_map. Qed.

Lemma substring_rev (l : list ascii) (s e : nat) :
  (s ≤ e < length l)%nat →
  substring (rev l) s e
  = rev (substring l (length l - 1 - e) (length l - 1 - s)).
Proof.
  intros Hse. unfold substring.
  rewrite skipn_rev, firstn_rev, length_take, skipn_firstn_comm.
  f_equal. f_equal; [lia | f_equal; lia].
Qed.

Lemma substring_revcomp (r : list ascii) (s e : nat) :
  (s ≤ e < length r)%nat →
  substring (revcomp r) s e
  = revcomp (substring r (length r - 1 - e) (length r - 1 - s)).
Proof.
  intros Hse. unfold revcomp. by rewrite substring_map, substring_rev.
Qed.

Lemma index_entry_sound (reverse : bool) (r : list ascii) (s e : nat) :
  Z.of_nat (length r) < 2 ^ 64 → (s ≤ e < length r)%nat →
  let sq := if reverse then revcomp r else r in
  strand_text r (index_entry reverse sq (s, e)).2
  = substring sq s e.
Proof.
  intros Hn Hse sq.
  assert (Hlen : length sq = length r).
  { unfold sq. destruct reverse; [apply length_revcomp | done]. }
  rewrite index_entry_location by (rewrite Hlen; lia). cbn [snd].
  unfold strand_text, sq. destruct reverse; cbn [rs_start rs_end rs_reverse].
  - rewrite length_revcomp, substring_revcomp by done. do 2 f_equal; lia.
  - by rewrite !Nat2Z.id.
Qed.

Lemma build_index_entry_sound (r : list ascii) (idx : gmap Z RefSeq)
    (h : Z) (loc : RefSeq) :
  valid_dna r → Z.of_nat (length r) < 2 ^ 64 →
  build_index r = Ok idx → idx !! h = Some loc →
  0 ≤ rs_start loc ∧ rs_start loc ≤ rs_end loc ∧
  rs_end loc < Z.of_nat (length r) ∧
  rolling_hash (strand_text r loc) = h ∧
  (occurs_in (strand_text r loc) r ∨ occurs_in (strand_text r loc) (revcomp r)).
Proof.
  intros Hv Hn Hidx Hloc.
  destruct (build_index_lookup r Hv) as (fwd & idx' & _ & _ & Hidx' & Hlook).
  rewrite Hidx in Hidx'. injection Hidx' as <-.
  rewrite Hlook in Hloc.
  assert (Hone : ∀ reverse,
            first_writer h (index_entries reverse
                              (if reverse then revcomp r else r)) = Some loc →
            0 ≤ rs_start loc ∧ rs_start loc ≤ rs_end loc ∧
            rs_end loc < Z.of_nat (length r) ∧
            rolling_hash (strand_text r loc) = h ∧
            occurs_in (strand_text r loc) (if reverse then revcomp r else r)).
  { intros reverse Hfw.
    assert (Hlen : length (if reverse then revcomp r else r) = length r)
      by (destruct reverse; [apply length_revcomp | done]).
    pose proof (first_writer_in_bounds reverse _ h loc
                  ltac:(rewrite Hlen; lia) Hfw) as (H0 & H1 & H2 & _).
    rewrite Hlen in H2.
    apply first_writer_elem, elem_of_index_entries in Hfw
      as (s & e & Hse & Hx). rewrite Hlen in Hse.
    pose proof (index_entry_sound reverse r s e Hn Hse) as Hs.
    cbn zeta in Hs. rewrite <- Hx in Hs. cbn [snd] in Hs.
    unfold index_entry in Hx. injection Hx as -> _.
    rewrite Hs. split_and!; try done. apply substring_occurs. }
  rewrite first_writer_app in Hloc.
  destruct (first_writer h (index_entries false r)) as [loc'|] eqn:E.
  - injection Hloc as ->.
    destruct (Hone false E) as (? & ? & ? & ? & ?). tauto.
  - destruct (Hone true Hloc) as (? & ? & ? & ? & ?). tauto.
Qed.

(** X10: every entry [h -> loc] of the index of a reference over A/T/C/G
    lies within the reference ([0 <= start <= end < n]), and the reference
    text at [loc], read on the strand [loc] is tagged with (reverse-
    complemented when tagged reverse), is a substring of the reference on
    that strand and has rolling hash [h]. *)
Theorem build_index_locations (r : list ascii) (idx : gmap Z RefSeq)
    (h : Z) (loc : RefSeq) :
  valid_dna r → Z.of_nat (length r) < 2 ^ 64 →
  build_index r = Ok idx → idx !! h = Some loc →
  0 ≤ rs_start loc ∧ rs_start loc ≤ rs_end loc ∧
  rs_end loc < Z.of_nat (length r) ∧
  rolling_hash (strand_text r loc) = h ∧
  occurs_in (strand_text r loc) (if rs_reverse loc then revcomp r else r) ∧
  (rs_reverse loc = true →
   strand_text r loc
   = substring (revcomp r) (Z.to_nat (Z.of_nat (length r) - 1 - rs_end loc))
                           (Z.to_nat (Z.of_nat (length r) - 1 - rs_start loc))).
Proof.
  intros Hv Hn Hidx Hloc.
  destruct (build_index_entry_sound r idx h loc Hv Hn Hidx Hloc)
    as (H0 & H1 & H2 & Hh & _).
  split_and!; try done.
  - unfold strand_text. destruct (rs_reverse loc).
    + destruct (substring_occurs r (Z.to_nat (rs_start loc))
                  (Z.to_nat (rs_end loc))) as (pre & post & Hr).
      exists (revcomp post), (revcomp pre).
      rewrite Hr at 1. by rewrite !revcomp_app, <- app_assoc.
    + apply substring_occurs.
  - intros Hrev. unfold strand_text. rewrite Hrev.
    rewrite substring_revcomp by lia. do 2 f_equal; lia.
Qed.

Lemma build_index_locations_witness :
  valid_dna (dna "ATCG") ∧ Z.of_nat (length (dna "ATCG")) < 2 ^ 64 ∧
  build_index (dna "ATCG") = Ok example_index ∧
  example_index !! 96 = Some (mkRefSeq 1 3 true) ∧
  strand_text (dna "ATCG") (mkRefSeq 1 3 true) = dna "CGA" ∧
  rolling_hash (strand_text (dna "ATCG") (mkRefSeq 1 3 true)) = 96.
Proof.
  assert (Hv : valid_dna (dna "ATCG")) by (by apply valid_dna_literal).
  assert (Hn : Z.of_nat (length (dna "ATCG")) < 2 ^ 64) by (cbn; lia).
  assert (Hidx : build_index (dna "ATCG") = Ok example_index)
    by (vm_compute; reflexivity).
  assert (Hloc : example_index !! 96 = Some (mkRefSeq 1 3 true))
    by (vm_compute; reflexivity).
  split; [exact Hv|]. split; [exact Hn|]. split; [exact Hidx|].
  split; [exact Hloc|]. split; [reflexivity|].
  exact (proj1 (proj2 (proj2 (proj2
           (build_index_locations _ _ _ _ Hv Hn Hidx Hloc))))).
Defined.

(** ** Error behaviour and meaning of the planner *)

Lemma scan_ends_total (idx : gmap Z RefSeq) (s : Z) (sfx : list ascii) :
  valid_dna sfx →
  ∀ e h dp trace, ∃ st, scan_ends idx s sfx e h dp trace = Ok st.
Proof.
  induction 1 as [|c sfx Hc _ IH]; intros e h dp trace; cbn [scan_ends];
    [eauto|].
  rewrite (hash_step_next h c Hc). cbn [mbind result_bind].
  destruct (idx !! hash_next h c); [destruct (_ || _)|]; apply IH.
Qed.

Lemma scan_ends_throws (idx : gmap Z RefSeq) (s : Z) (c : ascii)
    (post : list ascii) (e h : Z) (dp : list Z) (trace : list (option Trace)) :
  ¬ is_dna c →
  scan_ends idx s (c :: post) e h dp trace = Throw (InvalidDNA c).
Proof.
  intros Hc. cbn [scan_ends]. unfold hash_step.
  by rewrite (proj2 (not_dna_throws c Hc)).
Qed.

Lemma plan_starts_throws (idx : gmap Z RefSeq) (pre post : list ascii)
    (c : ascii) :
  valid_dna post → ¬ is_dna c →
  ∀ n dp trace,
    (length pre < n)%nat →
    plan_starts (pre ++ c :: post) idx n dp trace = Throw (InvalidDNA c).
Proof.
  intros Hpost Hc. induction n as [|k IH]; intros dp trace Hn; [lia|].
  cbn [plan_starts].
  destruct (decide (k = length pre)) as [-> | Hne].
  - rewrite drop_app_length. by rewrite scan_ends_throws.
  - rewrite drop_app_ge by lia.
    replace (k - length pre)%nat with (S (k - length pre - 1)) by lia.
    cbn [drop].
    destruct (scan_ends_total idx (Z.of_nat k) (drop (k - length pre - 1) post)
                (Forall_drop _ _ _ Hpost) (Z.of_nat k) 0 dp trace)
      as [[dp' trace'] ->].
    cbn [mbind result_bind]. apply IH. lia.
Qed.

(** X11: on a query of at most 2^31 symbols [find_optimal_path] returns
    exactly when the query is over A/T/C/G, and then a trace of
    [query_len + 1] entries whose last one is empty; otherwise it throws
    [InvalidDNA] for the last offending character (the scan starts from
    the last position). *)
Theorem find_optimal_path_outcome (query : list ascii) (idx : gmap Z RefSeq) :
  Z.of_nat (length query) ≤ 2 ^ 31 →
  (∀ trace, find_optimal_path query idx = Ok trace →
     valid_dna query ∧ length trace = S (length query) ∧
     trace !! length query = Some None) ∧
  (valid_dna query → ∃ trace, find_optimal_path query idx = Ok trace) ∧
  (∀ e, find_optimal_path query idx = Throw e ↔
        ∃ c, last_offender query c ∧ e = InvalidDNA c).
Proof.
  intros Hfit.
  assert (Hthrow : ∀ c, last_offender query c →
            find_optimal_path query idx = Throw (InvalidDNA c)).
  { intros c (pre & post & Hq & Hpost & Hc).
    unfold find_optimal_path, find_optimal_path_state.
    fold (nstarts query). rewrite (nstarts_fits_int query Hfit).
    rewrite Hq at 1. rewrite plan_starts_throws; [done.. |].
    rewrite Hq, length_app. cbn [length]. lia. }
  assert (Hok : valid_dna query →
            ∃ dp trace, find_optimal_path_state query idx = Ok (dp, trace) ∧
              find_optimal_path query idx = Ok trace ∧
              length trace = S (length query) ∧
              trace !! length query = Some None).
  { intros Hv.
    destruct (find_optimal_path_state_total query idx Hv)
      as (dp & trace & Hst & Hpl).
    exists dp, trace. split_and!; [done | by eapply find_optimal_path_trace | |].
    - apply Hpl.
    - destruct Hpl as (_ & Hlen & _ & Hlast & _).
      rewrite (list_lookup_lookup_total_lt trace (length query)) by lia.
      by rewrite Hlast. }
  split_and!.
  - intros trace Htr.
    destruct (valid_or_last_offender query) as [Hv | [c Hc]].
    + destruct (Hok Hv) as (dp & trace' & _ & Htr' & Hlen & Hlast).
      rewrite Htr in Htr'. injection Htr' as <-. done.
    + rewrite (Hthrow c Hc) in Htr. discriminate.
  - intros Hv. destruct (Hok Hv) as (dp & trace & _ & Htr & _). eauto.
  - intros e. split.
    + intros He. destruct (valid_or_last_offender query) as [Hv | [c Hc]].
      * destruct (Hok Hv) as (dp & trace & _ & Htr & _). congruence.
      * exists c. split; [done|]. rewrite (Hthrow c Hc) in He. congruence.
    + intros (c & Hc & ->). by apply Hthrow.
Qed.

Lemma find_optimal_path_outcome_witness :
  Z.of_nat (length (dna "ACXGT")) ≤ 2 ^ 31 ∧
  find_optimal_path (dna "ACXGT") example_index
  = Throw (InvalidDNA "X"%char).
Proof.
  assert (Hfit : Z.of_nat (length (dna "ACXGT")) ≤ 2 ^ 31)
    by (vm_compute; discriminate).
  split; [exact Hfit|].
  apply (find_optimal_path_outcome (dna "ACXGT") example_index Hfit).
  exists "X"%char. split; [|reflexivity].
  exists (dna "AC"), (dna "GT"). split_and!.
  - reflexivity.
  - by apply valid_dna_literal.
  - unfold is_dna. intros [H | [H | [H | H]]]; discriminate H.
Defined.

Lemma hashed_pieces_length (idx : gmap Z RefSeq) (pieces : list (list ascii)) :
  Forall (hashed idx) pieces → (length pieces ≤ length (concat pieces))%nat.
Proof.
  induction 1 as [|c pieces [Hne _] _ IH]; cbn [concat length]; [lia|].
  rewrite length_app. destruct c; [done|]. cbn [length]. lia.
Qed.

(** X12: when the planner returns on a query of at most 2^31 symbols,
    [dp[j]] is, for every position [j], the least number of index-hashed
    pieces into which the rest of the query from [j] can be cut (and such
    a cut exists, with at most [query_len - j] pieces); where no cut
    exists [dp[j]] is the unreachable value and no decision is stored. *)
Theorem dp_is_minimum (query : list ascii) (idx : gmap Z RefSeq)
    (dp : list Z) (trace : list (option Trace)) (j : nat) :
  find_optimal_path_state query idx = Ok (dp, trace) →
  Z.of_nat (length query) ≤ 2 ^ 31 →
  (j ≤ length query)%nat →
  (∀ pieces, is_cover idx (drop j query) pieces →
     dp !!! j ≤ Z.of_nat (length pieces)) ∧
  ((∃ pieces, is_cover idx (drop j query) pieces) →
   dp !!! j ≤ Z.of_nat (length query - j) ∧
   ∃ pieces, is_cover idx (drop j query) pieces ∧
             Z.of_nat (length pieces) = dp !!! j) ∧
  ((¬ ∃ pieces, is_cover idx (drop j query) pieces) →
   dp !!! j = UNREACHABLE ∧ trace !! j = Some None).
Proof.
  intros Hst Hfit Hj.
  apply find_optimal_path_state_planned in Hst as Hpl.
  rewrite (nstarts_fits_int query Hfit) in Hpl.
  assert (Hlow : ∀ pieces, is_cover idx (drop j query) pieces →
            dp !!! j ≤ Z.of_nat (length pieces)).
  { intros pieces [Hcat Hall].
    by apply (planned_lower_bound idx query dp trace Hpl pieces j). }
  assert (Hfin : dp !!! j < UNREACHABLE →
            ∃ pieces, is_cover idx (drop j query) pieces ∧
                      Z.of_nat (length pieces) = dp !!! j).
  { intros Hlt.
    destruct (reconstruct_loop_chain idx query _ dp trace Hpl (Nat.le_refl _)
                (length query) j (length query) [])
      as (segs & _ & Hchain & Hlen); try lia.
    { by apply (planned_reachable idx query _ dp trace Hpl (Nat.le_refl _)). }
    destruct (chain_pieces idx query j segs Hchain) as [Hcat Hall].
    exists (pieces_of query segs). split; [by split|].
    unfold pieces_of. by rewrite length_map. }
  assert (HU : 2 ^ 31 < UNREACHABLE) by (by vm_compute).
  assert (Hsmall : ∀ pieces, is_cover idx (drop j query) pieces →
            Z.of_nat (length pieces) ≤ Z.of_nat (length query - j)).
  { intros pieces [Hcat Hall].
    pose proof (hashed_pieces_length idx pieces Hall) as Hle.
    rewrite Hcat, length_drop in Hle. lia. }
  split_and!.
  - exact Hlow.
  - intros [pieces Hcov].
    pose proof (Hlow pieces Hcov). pose proof (Hsmall pieces Hcov).
    split; [lia|]. apply Hfin. lia.
  - intros Hnone.
    pose proof (planned_dp_range idx query _ dp trace Hpl (Nat.le_refl _) j Hj)
      as Hrange.
    assert (Hunr : dp !!! j = UNREACHABLE).
    { destruct (Z_lt_dec (dp !!! j) UNREACHABLE) as [Hlt | ?]; [|lia].
      destruct (Hfin Hlt) as (pieces & Hcov & _). exfalso. eauto. }
    split; [done|].
    rewrite (planned_lookup idx query _ dp trace Hpl (Nat.le_refl _) j Hj).
    destruct (decide (j = length query)) as [-> | Hne].
    { destruct Hpl as (_ & _ & _ & -> & _). done. }
    pose proof (planned_decision idx query _ dp trace Hpl (Nat.le_refl _) j
                  ltac:(lia)) as Hd.
    destruct (trace !!! j) as [t|]; [exfalso | done].
    destruct Hd as (e & r & He & Hr & _ & Hcost & Hnext).
    destruct (reconstruct_loop_chain idx query _ dp trace Hpl (Nat.le_refl _)
                (length query) (S e) (length query) [])
      as (segs & _ & Hchain & Hlen); try lia.
    { apply (planned_reachable idx query _ dp trace Hpl (Nat.le_refl _));
        [lia | done]. }
    destruct (chain_pieces idx query (S e) segs Hchain) as [Hcat Hall].
    pose proof (hashed_pieces_length idx _ Hall) as Hle.
    rewrite Hcat, length_drop in Hle. unfold pieces_of in Hle.
    rewrite length_map in Hle. lia.
Qed.

Lemma dp_is_minimum_witness :
  ∃ dp trace,
    find_optimal_path_state (dna "GATC") example_index = Ok (dp, trace) ∧
    Z.of_nat (length (dna "GATC")) ≤ 2 ^ 31 ∧
    (1 ≤ length (dna "GATC"))%nat ∧
    ∀ pieces, is_cover example_index (drop 1 (dna "GATC")) pieces →
              dp !!! 1%nat ≤ Z.of_nat (length pieces).
Proof.
  destruct (find_optimal_path_state (dna "GATC") example_index)
    as [[dp trace]|] eqn:Hst; [|vm_compute in Hst; discriminate].
  assert (Hfit : Z.of_nat (length (dna "GATC")) ≤ 2 ^ 31)
    by (vm_compute; discriminate).
  assert (Hj : (1 ≤ length (dna "GATC"))%nat) by (cbn; lia).
  exists dp, trace. split; [reflexivity|]. split; [exact Hfit|].
  split; [exact Hj|].
  exact (proj1 (dp_is_minimum _ _ _ _ 1%nat Hst Hfit Hj)).
Defined.

(** ** What a successful alignment reports *)

Lemma align_Ok_chain (query : list ascii) (idx : gmap Z RefSeq)
    (segs : list MatchSegment) :
  align query idx = Some (Ok segs) →
  ∃ dp trace,
    find_optimal_path_state query idx = Ok (dp, trace) ∧
    chain idx query 0 segs ∧ Z.of_nat (length segs) = dp !!! 0%nat.
Proof.
  intros Hal.
  apply align_Ok_state in Hal as [(e & _ & [=]) | (dp & trace & Hst & Hrec)].
  exists dp, trace. split; [done|].
  by eapply reconstruct_path_chain.
Qed.

Lemma matched_sequence_substring (r : list ascii) (sg : MatchSegment) :
  0 ≤ rs_start (seg_ref_info sg) →
  rs_start (seg_ref_info sg) ≤ rs_end (seg_ref_info sg) →
  rs_end (seg_ref_info sg) < Z.of_nat (length r) →
  Z.of_nat (length r) < 2 ^ 64 →
  matched_sequence r sg
  = Some (substring r (Z.to_nat (rs_start (seg_ref_info sg)))
                      (Z.to_nat (rs_end (seg_ref_info sg)))).
Proof.
  intros H0 H1 H2 Hn. unfold matched_sequence, substr.
  destruct (Z.ltb_spec (Z.of_nat (length r)) (rs_start (seg_ref_info sg)));
    [lia|].
  rewrite (wrap64_small (_ - _)) by lia. rewrite wrap64_small by lia.
  unfold substring. do 2 f_equal. lia.
Qed.

(** X13: every segment of a successful alignment against the index of a
    reference over A/T/C/G has its reference range inside the reference,
    so the [substr] call of the report does not throw and returns the
    whole range [start, end]; that text, read on the segment's strand, has
    the same rolling hash as the query range of the segment, and when
    reference and query have at most 18 symbols it is equal to it: the
    match is exact. *)
Theorem align_segments_sound (r query : list ascii) (idx : gmap Z RefSeq)
    (segs : list MatchSegment) (sg : MatchSegment) :
  valid_dna r → Z.of_nat (length r) < 2 ^ 64 →
  build_index r = Ok idx →
  align query idx = Some (Ok segs) →
  sg ∈ segs →
  let loc := seg_ref_info sg in
  let piece := substring query (Z.to_nat (seg_query_start sg))
                               (Z.to_nat (seg_query_end sg)) in
  0 ≤ rs_start loc ∧ rs_start loc ≤ rs_end loc ∧
  rs_end loc < Z.of_nat (length r) ∧
  0 ≤ seg_query_start sg ∧ seg_query_start sg ≤ seg_query_end sg ∧
  seg_query_end sg < Z.of_nat (length query) ∧
  matched_sequence r sg
  = Some (substring r (Z.to_nat (rs_start loc)) (Z.to_nat (rs_end loc))) ∧
  rolling_hash (strand_text r loc) = rolling_hash piece ∧
  (valid_dna query → (length r ≤ 18)%nat → (length query ≤ 18)%nat →
   strand_text r loc = piece).
Proof.
  intros Hv Hn Hidx Hal Hin loc piece. subst loc piece.
  destruct (align_Ok_chain query idx segs Hal) as (dp & trace & _ & Hchain & _).
  destruct (chain_segments idx query 0 segs Hchain sg Hin)
    as (i & e & r0 & -> & Hie & Hr0).
  cbn [seg_ref_info seg_query_start seg_query_end] in *.
  rewrite !Nat2Z.id.
  destruct (build_index_entry_sound r idx _ r0 Hv Hn Hidx Hr0)
    as (H0 & H1 & H2 & Hh & Hocc).
  split_and!; try lia.
  - by apply matched_sequence_substring.
  - intros Hvq Hlr Hlq.
    assert (Hvt : valid_dna (strand_text r r0)).
    { destruct Hocc as [(pre & post & Hr) | (pre & post & Hr)].
      - rewrite Hr in Hv. apply Forall_app in Hv as [_ Hv].
        by apply Forall_app in Hv as [Hv _].
      - pose proof (valid_dna_revcomp r Hv) as Hv'. rewrite Hr in Hv'.
        apply Forall_app in Hv' as [_ Hv'].
        by apply Forall_app in Hv' as [Hv' _]. }
    assert (Hlt : (length (strand_text r r0) ≤ 18)%nat).
    { destruct Hocc as [(pre & post & Hr) | (pre & post & Hr)].
      - apply (f_equal length) in Hr. rewrite !length_app in Hr. lia.
      - apply (f_equal length) in Hr.
        rewrite length_revcomp, !length_app in Hr. lia. }
    apply rolling_hash_short_inj; try done.
    + by apply valid_dna_substring.
    + rewrite length_substring; lia.
Qed.

Lemma align_segments_sound_witness :
  valid_dna (dna "ATCG") ∧ Z.of_nat (length (dna "ATCG")) < 2 ^ 64 ∧
  build_index (dna "ATCG") = Ok example_index ∧
  align (dna "GAT") example_index
  = Some (Ok [mkMatchSegment (mkRefSeq 0 2 true) 0 2]) ∧
  matched_sequence (dna "ATCG") (mkMatchSegment (mkRefSeq 0 2 true) 0 2)
  = Some (dna "ATC") ∧
  strand_text (dna "ATCG") (mkRefSeq 0 2 true) = dna "GAT".
Proof.
  assert (Hv : valid_dna (dna "ATCG")) by (by apply valid_dna_literal).
  assert (Hq : valid_dna (dna "GAT")) by (by apply valid_dna_literal).
  assert (Hn : Z.of_nat (length (dna "ATCG")) < 2 ^ 64) by (cbn; lia).
  assert (Hidx : build_index (dna "ATCG") = Ok example_index)
    by (vm_compute; reflexivity).
  assert (Hal : align (dna "GAT") example_index
                = Some (Ok [mkMatchSegment (mkRefSeq 0 2 true) 0 2]))
    by (vm_compute; reflexivity).
  split; [exact Hv|]. split; [exact Hn|]. split; [exact Hidx|].
  split; [exact Hal|].
  pose proof (align_segments_sound (dna "ATCG") (dna "GAT") example_index _
                (mkMatchSegment (mkRefSeq 0 2 true) 0 2) Hv Hn Hidx Hal
                ltac:(apply list_elem_of_here)) as H.
  cbn zeta in H. destruct H as (_ & _ & _ & _ & _ & _ & Hm & _ & Hexact).
  split; [exact Hm|].
  apply Hexact; [exact Hq | cbn; lia | cbn; lia].
Defined.

(** ** When alignment succeeds and when the loop variable overflows *)

Lemma index_symbol_key (r : list ascii) (idx : gmap Z RefSeq) (c : ascii) :
  valid_dna r → build_index r = Ok idx →
  c ∈ r ∨ c ∈ revcomp r →
  is_Some (idx !! rolling_hash [c]).
Proof.
  intros Hv Hidx Hc.
  destruct (build_index_lookup r Hv) as (fwd & idx' & _ & _ & Hidx' & Hlook).
  rewrite Hidx in Hidx'. injection Hidx' as <-.
  rewrite Hlook. apply first_writer_is_Some_iff.
  assert (Hone : ∀ reverse sq, c ∈ sq →
            ∃ loc, (rolling_hash [c], loc) ∈ index_entries reverse sq).
  { intros reverse sq Hin. apply list_elem_of_lookup in Hin as [p Hp].
    exists (index_entry reverse sq (p, p)).2.
    apply elem_of_index_entries. exists p, p. split.
    - apply lookup_lt_Some in Hp. lia.
    - unfold index_entry. cbn [fst snd].
      by rewrite (substring_single sq p c Hp). }
  destruct Hc as [Hc | Hc].
  - destruct (Hone false r Hc) as [loc Hloc]. exists loc.
    apply elem_of_app. by left.
  - destruct (Hone true (revcomp r) Hc) as [loc Hloc]. exists loc.
    apply elem_of_app. by right.
Qed.

(** X14: if every symbol of a query over A/T/C/G of at most 2^31 symbols
    occurs in the reference or in its reverse complement, alignment
    succeeds, with at most one segment per query symbol. *)
Theorem align_succeeds_on_known_symbols (r query : list ascii) :
  valid_dna r → valid_dna query →
  Z.of_nat (length query) ≤ 2 ^ 31 →
  (∀ c, c ∈ query → c ∈ r ∨ c ∈ revcomp r) →
  ∃ segs, align_with r query = Some (Ok segs) ∧
          (length segs ≤ length query)%nat.
Proof.
  intros Hvr Hvq Hfit Hsym.
  destruct (build_index_lookup r Hvr) as (fwd & idx & _ & _ & Hidx & _).
  assert (Hcov : is_cover idx query (map (λ c, [c]) query)).
  { split.
    - clear. induction query as [|c q IH]; [done|]. cbn. by rewrite IH.
    - apply Forall_map, Forall_forall. intros c Hc. split; [done|].
      by apply (index_symbol_key r idx c Hvr Hidx), Hsym. }
  destruct (align_defined query idx Hvq)
    as (dp & trace & Hst & Hpl & Hal & Hcases).
  rewrite (nstarts_fits_int query Hfit) in Hpl.
  destruct Hcov as [Hcat Hall].
  pose proof (planned_lower_bound idx query dp trace Hpl _ 0 ltac:(lia)
                ltac:(by rewrite drop_0) Hall) as Hlow.
  rewrite length_map in Hlow.
  unfold align_with. rewrite Hidx.
  destruct Hcases as [(segs & Hok & _) | (_ & Hnone & Hne)].
  - exists segs. split; [done|].
    destruct (align_Ok_chain query idx segs Hok) as (dp' & trace' & Hst' & _ & Hlen).
    rewrite Hst in Hst'. injection Hst' as <- <-. lia.
  - exfalso.
    assert (Hlen : (0 < length query)%nat)
      by (destruct query; cbn; [done | lia]).
    pose proof (planned_decision idx query _ dp trace Hpl (Nat.le_refl _) 0
                  Hlen) as Hd.
    rewrite Hnone in Hd. rewrite Hd in Hlow.
    assert (2 ^ 31 < UNREACHABLE) by (by vm_compute). lia.
Qed.

Lemma align_succeeds_on_known_symbols_witness :
  valid_dna (dna "AC") ∧ valid_dna (dna "GGTTAC") ∧
  Z.of_nat (length (dna "GGTTAC")) ≤ 2 ^ 31 ∧
  ∃ segs, align_with (dna "AC") (dna "GGTTAC") = Some (Ok segs) ∧
          (length segs ≤ length (dna "GGTTAC"))%nat.
Proof.
  assert (Hvr : valid_dna (dna "AC")) by (by apply valid_dna_literal).
  assert (Hvq : valid_dna (dna "GGTTAC")) by (by apply valid_dna_literal).
  assert (Hfit : Z.of_nat (length (dna "GGTTAC")) ≤ 2 ^ 31)
    by (vm_compute; discriminate).
  split; [exact Hvr|]. split; [exact Hvq|]. split; [exact Hfit|].
  apply (align_succeeds_on_known_symbols _ _ Hvr Hvq Hfit).
  intros c Hc. apply list_elem_of_In in Hc. vm_compute in Hc.
  rewrite !list_elem_of_In. vm_compute.
  destruct Hc as [<- | [<- | [<- | [<- | [<- | [<- | []]]]]]]; tauto.
Defined.

(** X15: a query of more than 2^31 and at most 2^32 symbols is never
    aligned: [(int)(query_len - 1)] is negative, the planner's loop does
    not run, no character is read, every decision stays empty and the
    result is AlignmentBreak at position 0, whatever the index and the
    characters of the query. *)
Theorem long_query_always_breaks (query : list ascii) (idx : gmap Z RefSeq) :
  2 ^ 31 < Z.of_nat (length query) →
  Z.of_nat (length query) ≤ 2 ^ 32 →
  find_optimal_path query idx = Ok (replicate (S (length query)) None) ∧
  align query idx = Some (Throw (AlignmentBreak 0)).
Proof.
  intros Hlo Hhi.
  assert (Hfind : find_optimal_path query idx
                  = Ok (replicate (S (length query)) None)).
  { unfold find_optimal_path, find_optimal_path_state.
    fold (nstarts query). rewrite (nstarts_overflow query) by lia.
    reflexivity. }
  split; [exact Hfind|].
  unfold align. rewrite Hfind. unfold reconstruct_path.
  destruct (length query) as [|k] eqn:Hk; [cbn in Hlo; lia|].
  cbn [reconstruct_loop].
  replace (0 <? Z.of_nat (S k)) with true by (symmetry; apply Z.ltb_lt; lia).
  reflexivity.
Qed.

Lemma long_query_always_breaks_witness :
  let query := replicate (Z.to_nat (2 ^ 31 + 1)) "A"%char in
  2 ^ 31 < Z.of_nat (length query) ∧
  Z.of_nat (length query) ≤ 2 ^ 32 ∧
  (∀ c, c ∈ query → c ∈ dna "A") ∧
  ∀ idx, align query idx = Some (Throw (AlignmentBreak 0)).
Proof.
  intros query.
  assert (Hlen : Z.of_nat (length query) = 2 ^ 31 + 1).
  { unfold query. rewrite length_replicate. apply Z2Nat.id. lia. }
  assert (Hlo : 2 ^ 31 < Z.of_nat (length query)) by lia.
  assert (Hhi : Z.of_nat (length query) ≤ 2 ^ 32) by lia.
  split; [exact Hlo|]. split; [exact Hhi|]. split.
  - intros c Hc. apply elem_of_replicate in Hc as [-> _].
    apply list_elem_of_here.
  - intros idx. exact (proj2 (long_query_always_breaks query idx Hlo Hhi)).
Defined.

(** ** The program as its user sees it *)

Lemma validate_dna_Throw_inv (s : list ascii) (name : string) (e : exn) :
  validate_dna s name = Throw e →
  ∃ c, first_offender s c ∧ e = InvalidInput name c.
Proof.
  intros He. destruct (valid_or_first_offender s) as [Hv | [c Hc]].
  - apply (validate_dna_valid s name) in Hv. congruence.
  - exists c. split; [done|]. destruct Hc as (pre & post & -> & Hpre & Hc).
    rewrite (validate_dna_throws pre post c name Hpre Hc) in He. congruence.
Qed.

Lemma validate_dna_unit (s : list ascii) (name : string) (u : unit) :
  validate_dna s name = Ok u → valid_dna s.
Proof. destruct u. apply validate_dna_valid. Qed.

Lemma main_valid_inputs (line1 line2 : list ascii) (rest : list (list ascii)) :
  let r := to_upper (trim line1) in
  let q := to_upper (trim line2) in
  r ≠ [] → q ≠ [] → valid_dna r → valid_dna q →
  main (line1 :: line2 :: rest)
  = match align_with r q with
    | Some (Ok segs) => Some (Reported segs)
    | Some (Throw e) => Some (Caught e)
    | None => None
    end.
Proof.
  intros r q Hr Hq Hvr Hvq. unfold main. fold r q.
  destruct (decide (r = [])); [done|]. destruct (decide (q = [])); [done|].
  rewrite (proj2 (validate_dna_valid r _) Hvr). cbn [mbind result_bind].
  rewrite (proj2 (validate_dna_valid q _) Hvq). cbn [mbind result_bind].
  unfold align_with. destruct (build_index r); reflexivity.
Qed.

Lemma align_with_cases (r q : list ascii) :
  valid_dna r → valid_dna q →
  (∃ idx segs, build_index r = Ok idx ∧ align q idx = Some (Ok segs) ∧
               align_with r q = Some (Ok segs)) ∨
  (q ≠ [] ∧ align_with r q = Some (Throw (AlignmentBreak 0))).
Proof.
  intros Hvr Hvq.
  destruct (build_index_lookup r Hvr) as (fwd & idx & _ & _ & Hidx & _).
  unfold align_with. rewrite Hidx.
  destruct (align_defined q idx Hvq)
    as (dp & trace & _ & _ & _ & [(segs & Hok & _) | (Hbr & _ & Hne)]).
  - left. eauto.
  - right. done.
Qed.

(** X16: what [main] does with its two input lines, after trimming and
    upper-casing them to [r] and [q]: no line gives a read failure; with
    both non-empty, an offending character of the reference is reported
    before one of the query, each as the first one of its line; and with
    both over A/T/C/G the outcome is the alignment report, or an
    alignment break at position 0. *)
Theorem main_outcome_table (line1 line2 : list ascii)
    (rest : list (list ascii)) :
  let r := to_upper (trim line1) in
  let q := to_upper (trim line2) in
  main [] = Some ReadFailed ∧
  (r ≠ [] → main [line1] = Some ReadFailed) ∧
  (r ≠ [] → q ≠ [] → ∀ c, first_offender r c →
     main (line1 :: line2 :: rest)
     = Some (Caught (InvalidInput "Reference sequence" c))) ∧
  (r ≠ [] → q ≠ [] → valid_dna r → ∀ c, first_offender q c →
     main (line1 :: line2 :: rest)
     = Some (Caught (InvalidInput "Query sequence" c))) ∧
  (r ≠ [] → q ≠ [] → valid_dna r → valid_dna q →
     (∃ segs, align_with r q = Some (Ok segs) ∧
              main (line1 :: line2 :: rest) = Some (Reported segs)) ∨
     (align_with r q = Some (Throw (AlignmentBreak 0)) ∧
      main (line1 :: line2 :: rest) = Some (Caught (AlignmentBreak 0)))).
Proof.
  intros r q. split_and!.
  - reflexivity.
  - intros Hr. unfold main. fold r. by destruct (decide (r = [])).
  - intros Hr Hq c (pre & post & Hc & Hpre & Hnc). unfold main. fold r q.
    destruct (decide (r = [])); [done|]. destruct (decide (q = [])); [done|].
    rewrite Hc. by rewrite (validate_dna_throws pre post c _ Hpre Hnc).
  - intros Hr Hq Hvr c (pre & post & Hc & Hpre & Hnc). unfold main. fold r q.
    destruct (decide (r = [])); [done|]. destruct (decide (q = [])); [done|].
    rewrite (proj2 (validate_dna_valid r _) Hvr). cbn [mbind result_bind].
    rewrite Hc. by rewrite (validate_dna_throws pre post c _ Hpre Hnc).
  - intros Hr Hq Hvr Hvq.
    pose proof (main_valid_inputs line1 line2 rest Hr Hq Hvr Hvq) as Hm.
    cbn zeta in Hm. fold r q in Hm.
    destruct (align_with_cases r q Hvr Hvq)
      as [(idx & segs & _ & _ & Hal) | [_ Hal]]; rewrite Hal in Hm.
    + left. eauto.
    + right. done.
Qed.

(** X17: an exception that [main] catches is an alignment break at
    position 0 or a validation error for an offending character that is
    not a lower-case letter: the [InvalidDNA] of [dna_to_num] and
    [reverse_dna] never reaches the user, and the lower-case hint of
    [validate_dna] is never printed. *)
Theorem main_caught_exceptions (stdin : list (list ascii)) (e : exn) :
  main stdin = Some (Caught e) →
  e = AlignmentBreak 0 ∨
  ∃ name c, e = InvalidInput name c ∧ ¬ is_dna c ∧ islower c = false ∧
            (name = "Reference sequence"%string ∨
             name = "Query sequence"%string).
Proof.
  assert (Hup : ∀ l name e',
            validate_dna (to_upper (trim l)) name = Throw e' →
            ∃ c, e' = InvalidInput name c ∧ ¬ is_dna c ∧ islower c = false).
  { intros l name e' He'.
    apply validate_dna_Throw_inv in He' as (c & (pre & post & Hs & _ & Hc) & ->).
    exists c. split_and!; [done.. |].
    assert (Hin : c ∈ to_upper (trim l))
      by (rewrite Hs, elem_of_app, elem_of_cons; tauto).
    unfold to_upper in Hin.
    apply list_elem_of_In, in_map_iff in Hin as (d & <- & _).
    exact (proj1 (proj2 (toupper_cases d))). }
  unfold main. destruct stdin as [|line1 [|line2 rest]]; [done | |].
  { by destruct (decide _). }
  destruct (decide _); [done|]. destruct (decide _); [done|].
  destruct (validate_dna (to_upper (trim line1)) _) as [u1|e1] eqn:E1;
    cbn [mbind result_bind].
  2: { intros [= <-]. right. destruct (Hup _ _ _ E1) as (c & -> & ? & ?).
       exists "Reference sequence"%string, c. tauto. }
  destruct (validate_dna (to_upper (trim line2)) _) as [u2|e2] eqn:E2;
    cbn [mbind result_bind].
  2: { intros [= <-]. right. destruct (Hup _ _ _ E2) as (c & -> & ? & ?).
       exists "Query sequence"%string, c. tauto. }
  apply validate_dna_unit in E1, E2.
  destruct (align_with_cases _ _ E1 E2)
    as [(idx & segs & Hidx & Hal & _) | [_ Hal]].
  - rewrite Hidx, Hal. discriminate.
  - unfold align_with in Hal.
    destruct (build_index _) as [idx|e'].
    + rewrite Hal. intros [= <-]. by left.
    + injection Hal as ->. intros [= <-]. by left.
Qed.

Lemma main_caught_exceptions_witness :
  main [dna "acgt"; dna "ac-gt"]
  = Some (Caught (InvalidInput "Query sequence" "-"%char)) ∧
  ¬ is_dna "-"%char ∧ islower "-"%char = false.
Proof.
  assert (Hm : main [dna "acgt"; dna "ac-gt"]
               = Some (Caught (InvalidInput "Query sequence" "-"%char)))
    by (vm_compute; reflexivity).
  split; [exact Hm|].
  destruct (main_caught_exceptions _ _ Hm)
    as [H | (name & c & H & Hc & Hl & _)]; [discriminate H|].
  injection H as _ <-. split; [exact Hc | exact Hl].
Defined.

Lemma chain_length (idx : gmap Z RefSeq) (query : list ascii) (j : nat)
    (segs : list MatchSegment) :
  chain idx query j segs → (j + length segs ≤ length query)%nat.
Proof.
  induction 1 as [|j e r segs He Hr Hch IH]; cbn [length]; lia.
Qed.

Lemma main_Reported_inv (line1 line2 : list ascii) (rest : list (list ascii))
    (segs : list MatchSegment) :
  main (line1 :: line2 :: rest) = Some (Reported segs) →
  let r := to_upper (trim line1) in
  let q := to_upper (trim line2) in
  valid_dna r ∧ valid_dna q ∧ q ≠ [] ∧
  ∃ idx, build_index r = Ok idx ∧ align q idx = Some (Ok segs).
Proof.
  intros Hm r q. unfold main in Hm. fold r q in Hm.
  destruct (decide (r = [])); [done|].
  destruct (decide (q = [])) as [|Hq]; [done|].
  destruct (validate_dna r _) as [u1|] eqn:E1; cbn [mbind result_bind] in Hm;
    [|done].
  destruct (validate_dna q _) as [u2|] eqn:E2; cbn [mbind result_bind] in Hm;
    [|done].
  apply validate_dna_unit in E1, E2.
  destruct (build_index r) as [idx|] eqn:Hidx; [|done].
  destruct (align q idx) as [[segs'|]|] eqn:Hal; [|done..].
  injection Hm as ->. split_and!; try done. eauto.
Qed.

(** X18: when [main] prints a report, the trimmed upper-cased lines are
    over A/T/C/G, the report has at least one segment and at most one per
    query symbol, the query ranges of its segments cover the query
    positions exactly, and for every segment the printed matched sequence
    is defined ([substr] does not throw) and has [end - start + 1]
    symbols. *)
Theorem main_report_sound (line1 line2 : list ascii)
    (rest : list (list ascii)) (segs : list MatchSegment) :
  main (line1 :: line2 :: rest) = Some (Reported segs) →
  Z.of_nat (length (to_upper (trim line1))) < 2 ^ 64 →
  let r := to_upper (trim line1) in
  let q := to_upper (trim line2) in
  valid_dna r ∧ valid_dna q ∧
  segs ≠ [] ∧ (length segs ≤ length q)%nat ∧
  (∀ p, 0 ≤ p < Z.of_nat (length q) ↔
        ∃ sg, sg ∈ segs ∧ seg_query_start sg ≤ p ∧ p ≤ seg_query_end sg) ∧
  (∀ sg, sg ∈ segs →
     ∃ text, matched_sequence r sg = Some text ∧
             Z.of_nat (length text)
             = rs_end (seg_ref_info sg) - rs_start (seg_ref_info sg) + 1).
Proof.
  intros Hm Hn r q.
  destruct (main_Reported_inv _ _ _ _ Hm) as (Hvr & Hvq & Hq & idx & Hidx & Hal).
  fold r q in Hvr, Hvq, Hq, Hidx, Hal, Hn.
  destruct (align_Ok_chain q idx segs Hal) as (dp & trace & _ & Hchain & _).
  split_and!; try done.
  - intros ->. inversion Hchain as [Hlen|]. by destruct q.
  - pose proof (chain_length idx q 0 segs Hchain). lia.
  - intros p. by rewrite <- (chain_cover idx q 0 segs Hchain p).
  - intros sg Hin.
    destruct (chain_segments idx q 0 segs Hchain sg Hin)
      as (i & e & r0 & -> & Hie & Hr0).
    destruct (build_index_entry_sound r idx _ r0 Hvr Hn Hidx Hr0)
      as (H0 & H1 & H2 & _).
    eexists. split; [by apply matched_sequence_substring|].
    cbn [seg_ref_info]. rewrite length_substring by lia. lia.
Qed.

Lemma main_report_sound_witness :
  main [dna " atcg"; dna "gat  "]
  = Some (Reported [mkMatchSegment (mkRefSeq 0 2 true) 0 2]) ∧
  Z.of_nat (length (to_upper (trim (dna " atcg")))) < 2 ^ 64 ∧
  ∃ text, matched_sequence (to_upper (trim (dna " atcg")))
            (mkMatchSegment (mkRefSeq 0 2 true) 0 2) = Some text ∧
          Z.of_nat (length text) = 2 - 0 + 1.
Proof.
  assert (Hm : main [dna " atcg"; dna "gat  "]
               = Some (Reported [mkMatchSegment (mkRefSeq 0 2 true) 0 2]))
    by (vm_compute; reflexivity).
  assert (Hn : Z.of_nat (length (to_upper (trim (dna " atcg")))) < 2 ^ 64)
    by (vm_compute; reflexivity).
  split; [exact Hm|]. split; [exact Hn|].
  pose proof (main_report_sound _ _ _ _ Hm Hn) as H. cbn zeta in H.
  destruct H as (_ & _ & _ & _ & _ & Hseg).
  exact (Hseg _ ltac:(apply list_elem_of_here)).
Defined.


(** ** [reconstruct_path] on an arbitrary trace *)

Lemma reconstruct_loop_contract (trace : list (option Trace)) (len : Z) :
  ∀ fuel pos res out,
    reconstruct_loop fuel trace len pos res = Some out →
    match out with
    | Ok segs' =>
        ∃ segs, segs' = res ++ segs ∧ (length segs ≤ fuel)%nat ∧
                Forall (from_trace trace) segs ∧
                (segs = [] → len ≤ pos)
    | Throw e =>
        ∃ p, e = AlignmentBreak p ∧ p < len ∧
             trace !! Z.to_nat p = Some None
    end.
Proof.
  induction fuel as [|fuel IH]; intros pos res out; cbn [reconstruct_loop];
    destruct (Z.ltb_spec pos len) as [Hlt | Hge]; try discriminate.
  - intros [= <-]. exists []. rewrite app_nil_r.
    split_and!; first [done | intros; cbn [length]; lia | constructor].
  - destruct (trace !! Z.to_nat pos) as [[t|]|] eqn:E; [| |discriminate].
    + intros Hrec. specialize (IH _ _ _ Hrec). destruct out as [segs'|e].
      * destruct IH as (segs & -> & Hlen & Hall & _).
        exists (mkMatchSegment (t_ref_seq t) (t_query_start t) (t_query_end t)
                  :: segs).
        split_and!.
        -- by rewrite <- app_assoc.
        -- cbn [length]. lia.
        -- constructor; [|done]. exists (Z.to_nat pos), t. done.
        -- discriminate.
      * exact IH.
    + intros [= <-]. exists pos. done.
  - intros [= <-]. exists []. rewrite app_nil_r.
    split_and!; first [done | intros; cbn [length]; lia | constructor].
Qed.

(** X19: on any trace, when [reconstruct_path] returns, every segment is
    the copy of a stored decision and there are at most as many segments
    as loop iterations; an empty result means [query_len] is 0 (or less);
    and the only exception it throws is AlignmentBreak, for a position
    below [query_len] whose entry is empty. *)
Theorem reconstruct_path_contract (fuel : nat) (trace : list (option Trace))
    (query_len : Z) :
  (∀ segs, reconstruct_path fuel trace query_len = Some (Ok segs) →
     (length segs ≤ fuel)%nat ∧ Forall (from_trace trace) segs ∧
     (segs = [] → query_len ≤ 0)) ∧
  (∀ e, reconstruct_path fuel trace query_len = Some (Throw e) →
     ∃ p, e = AlignmentBreak p ∧ p < query_len ∧
          trace !! Z.to_nat p = Some None) ∧
  (query_len ≤ 0 → reconstruct_path fuel trace query_len = Some (Ok [])).
Proof.
  split_and!.
  - intros segs Hrec.
    apply (reconstruct_loop_contract trace query_len fuel 0 [] (Ok segs)) in Hrec
      as (segs' & -> & Hlen & Hall & Hnil).
    done.
  - intros e Hrec.
    exact (reconstruct_loop_contract trace query_len fuel 0 [] (Throw e) Hrec).
  - intros Hle. unfold reconstruct_path.
    destruct fuel; cbn [reconstruct_loop];
      destruct (Z.ltb_spec 0 query_len); (lia || done).
Qed.

(** X20: [reconstruct_path] has no progress check of its own.  On a trace
    whose decision at position 0 resumes at position 0 (and with a
    non-empty query) every iteration appends one more copy of that
    decision's segment and leaves the position at 0: after [k] iterations
    the loop is where it started, with [k] more segments.  So neither of
    the loop's two exits is ever taken: no number of iterations ends in a
    returned list or in an alignment break.  (What ends a run on such a
    trace is the growing vector, not the loop; the vector's capacity is
    not part of this model.) *)
Theorem reconstruct_path_no_progress_check (trace : list (option Trace))
    (query_len : Z) (t : Trace) :
  trace !! 0%nat = Some (Some t) → t_next t = 0 → 0 < query_len →
  let seg := mkMatchSegment (t_ref_seq t) (t_query_start t) (t_query_end t) in
  (∀ k fuel res,
     reconstruct_loop (k + fuel) trace query_len 0 res
     = reconstruct_loop fuel trace query_len 0 (res ++ replicate k seg)) ∧
  (∀ fuel segs, reconstruct_path fuel trace query_len ≠ Some (Ok segs)) ∧
  (∀ fuel e, reconstruct_path fuel trace query_len ≠ Some (Throw e)).
Proof.
  intros Ht Hnext Hlen seg.
  assert (Hstep : ∀ k fuel res,
            reconstruct_loop (k + fuel) trace query_len 0 res
            = reconstruct_loop fuel trace query_len 0 (res ++ replicate k seg)).
  { induction k as [|k IH]; intros fuel res.
    - by rewrite app_nil_r.
    - change (S k + fuel)%nat with (S (k + fuel)). cbn [reconstruct_loop].
      destruct (Z.ltb_spec 0 query_len); [|lia].
      change (Z.to_nat 0) with 0%nat. rewrite Ht, Hnext, IH.
      change (replicate (S k) seg) with (seg :: replicate k seg).
      by rewrite <- app_assoc. }
  assert (Hnone : ∀ fuel, reconstruct_path fuel trace query_len = None).
  { intros fuel. unfold reconstruct_path.
    replace fuel with (fuel + 0)%nat by lia. rewrite Hstep.
    cbn [reconstruct_loop]. by destruct (Z.ltb_spec 0 query_len); [|lia]. }
  split; [exact Hstep|].
  split; intros fuel x; rewrite Hnone; discriminate.
Qed.

Lemma reconstruct_path_no_progress_check_witness :
  let t := mkTrace (mkRefSeq 0 0 false) 0 0 0 in
  let seg := mkMatchSegment (t_ref_seq t) (t_query_start t) (t_query_end t) in
  [Some t; None] !! 0%nat = Some (Some t) ∧ t_next t = 0 ∧ 0 < 1 ∧
  (∀ k fuel res,
     reconstruct_loop (k + fuel) [Some t; None] 1 0 res
     = reconstruct_loop fuel [Some t; None] 1 0 (res ++ replicate k seg)) ∧
  (∀ fuel segs, reconstruct_path fuel [Some t; None] 1 ≠ Some (Ok segs)) ∧
  (∀ fuel e, reconstruct_path fuel [Some t; None] 1 ≠ Some (Throw e)).
Proof.
  intros t seg.
  assert (H1 : [Some t; None] !! 0%nat = Some (Some t)) by reflexivity.
  assert (H2 : t_next t = 0) by reflexivity.
  assert (H3 : 0 < 1) by lia.
  split; [exact H1|]. split; [exact H2|]. split; [exact H3|].
  exact (reconstruct_path_no_progress_check _ _ _ H1 H2 H3).
Defined.

(** ** Stored decisions *)

(** X21: every decision the planner stores at a position [j] is a hashed
    match starting at [j]: its reference location is the index entry for
    the rolling hash of the query range [j, e], it records [j], [e] and
    [e + 1], and [dp[j]] is one more than the finite [dp[e + 1]]; the
    table has [query_len + 1] entries within [0, unreachable], with
    [dp[query_len] = 0]. *)
Theorem find_optimal_path_decisions (query : list ascii)
    (idx : gmap Z RefSeq) (dp : list Z) (trace : list (option Trace)) :
  find_optimal_path_state query idx = Ok (dp, trace) →
  length dp = S (length query) ∧ length trace = S (length query) ∧
  dp !! length query = Some 0 ∧
  Forall (λ c, 0 ≤ c ∧ c ≤ UNREACHABLE) dp ∧
  (∀ j t, trace !! j = Some (Some t) →
     (j < nstarts query)%nat ∧
     ∃ e r, (j ≤ e < length query)%nat ∧
            idx !! rolling_hash (substring query j e) = Some r ∧
            t = mkTrace r (Z.of_nat e + 1) (Z.of_nat j) (Z.of_nat e) ∧
            dp !!! j = dp !!! S e + 1 ∧ dp !!! S e < UNREACHABLE) ∧
  (∀ j, (j < length query)%nat → trace !! j = Some None →
        dp !! j = Some UNREACHABLE).
Proof.
  intros Hst. apply find_optimal_path_state_planned in Hst as Hpl.
  pose proof (nstarts_le query) as Hn.
  pose proof Hpl as (Hldp & Hltr & Hlast & Htlast & Hnot & Hdone).
  split_and!; try done.
  - rewrite (list_lookup_lookup_total_lt dp) by lia. by rewrite Hlast.
  - apply Forall_lookup. intros j c Hj.
    pose proof (lookup_lt_Some _ _ _ Hj) as Hlt.
    apply list_lookup_total_correct in Hj as <-.
    pose proof (planned_dp_range idx query _ dp trace Hpl Hn j ltac:(lia)).
    lia.
  - intros j t Hjt.
    pose proof (lookup_lt_Some _ _ _ Hjt) as Hlt.
    apply list_lookup_total_correct in Hjt as Ht.
    destruct (decide (j = length query)) as [-> | Hne]; [congruence|].
    split.
    + destruct (decide (j < nstarts query)%nat) as [|Hge]; [done|].
      destruct (Hnot j) as [_ Hnone]; [lia | congruence].
    + pose proof (planned_decision idx query _ dp trace Hpl Hn j ltac:(lia))
        as Hd.
      rewrite Ht in Hd. exact Hd.
  - intros j Hj Hnone.
    apply list_lookup_total_correct in Hnone.
    pose proof (planned_decision idx query _ dp trace Hpl Hn j Hj) as Hd.
    rewrite Hnone in Hd.
    rewrite (list_lookup_lookup_total_lt dp) by lia. by rewrite Hd.
Qed.

Lemma find_optimal_path_decisions_witness :
  ∃ dp trace,
    find_optimal_path_state (dna "GATC") example_index = Ok (dp, trace) ∧
    length dp = S (length (dna "GATC")) ∧
    Forall (λ c, 0 ≤ c ∧ c ≤ UNREACHABLE) dp.
Proof.
  destruct (find_optimal_path_state (dna "GATC") example_index)
    as [[dp trace]|] eqn:Hst; [|vm_compute in Hst; discriminate].
  exists dp, trace. split; [reflexivity|].
  destruct (find_optimal_path_decisions _ _ _ _ Hst) as (H1 & _ & _ & H4 & _).
  split; [exact H1 | exact H4].
Defined.

(** ** Passes compose *)

(** X22: a pass of [build_reference_hash] over a reference over A/T/C/G
    only adds entries (the map it was given is contained in the result),
    and running the same pass again on its result changes nothing. *)
Theorem build_reference_hash_idempotent (r : list ascii)
    (m : gmap Z RefSeq) (reverse : bool) :
  valid_dna r →
  ∃ m', build_reference_hash r m reverse = Ok m' ∧
        m ⊆ m' ∧
        build_reference_hash r m' reverse = Ok m'.
Proof.
  intros Hv.
  set (entries := index_entries reverse (if reverse then revcomp r else r)).
  exists (fold_left insert_if_absent entries m). split_and!.
  - by apply build_reference_hash_fold.
  - apply map_subseteq_spec. intros h loc Hh.
    by rewrite fold_insert_if_absent_lookup, Hh.
  - rewrite build_reference_hash_fold by done. fold entries. f_equal.
    apply map_eq. intros h.
    rewrite (fold_insert_if_absent_lookup entries (fold_left _ _ _)).
    destruct (fold_left insert_if_absent entries m !! h) as [loc|] eqn:E;
      [done|].
    rewrite fold_insert_if_absent_lookup in E.
    by destruct (m !! h).
Qed.

Lemma build_reference_hash_idempotent_witness :
  valid_dna (dna "ATCG") ∧
  ∃ m', build_reference_hash (dna "ATCG") ∅ true = Ok m' ∧
        build_reference_hash (dna "ATCG") m' true = Ok m'.
Proof.
  assert (Hv : valid_dna (dna "ATCG")) by (by apply valid_dna_literal).
  split; [exact Hv|].
  destruct (build_reference_hash_idempotent (dna "ATCG") ∅ true Hv)
    as (m' & H1 & _ & H2).
  exists m'. split; [exact H1 | exact H2].
Defined.

(** ** Strand symmetry *)

Lemma build_index_key_iff (r : list ascii) (idx : gmap Z RefSeq) (h : Z) :
  valid_dna r → build_index r = Ok idx →
  is_Some (idx !! h) ↔
  ∃ s e, (s ≤ e < length r)%nat ∧
         (h = rolling_hash (substring r s e) ∨
          h = rolling_hash (substring (revcomp r) s e)).
Proof.
  intros Hv Hidx.
  destruct (build_index_lookup r Hv) as (fwd & idx' & _ & _ & Hidx' & Hlook).
  rewrite Hidx in Hidx'. injection Hidx' as <-.
  rewrite Hlook, first_writer_is_Some_iff. split.
  - intros [loc Hin]. apply elem_of_app in Hin as [Hin | Hin];
      apply elem_of_index_entries in Hin as (s & e & Hse & Hx);
      unfold index_entry in Hx; cbn [fst snd] in Hx; injection Hx as -> _;
      rewrite ?length_revcomp in Hse; exists s, e; tauto.
  - intros (s & e & Hse & [-> | ->]).
    + exists (index_entry false r (s, e)).2. apply elem_of_app. left.
      apply elem_of_index_entries. exists s, e. done.
    + exists (index_entry true (revcomp r) (s, e)).2. apply elem_of_app.
      right. apply elem_of_index_entries. exists s, e.
      rewrite length_revcomp. done.
Qed.

Lemma build_index_keys_symmetric (r : list ascii)
    (idx idx' : gmap Z RefSeq) (h : Z) :
  valid_dna r → build_index r = Ok idx → build_index (revcomp r) = Ok idx' →
  is_Some (idx !! h) ↔ is_Some (idx' !! h).
Proof.
  intros Hv Hidx Hidx'.
  rewrite (build_index_key_iff r idx h Hv Hidx).
  rewrite (build_index_key_iff (revcomp r) idx' h
             (valid_dna_revcomp r Hv) Hidx').
  rewrite length_revcomp, (revcomp_involutive r Hv).
  split; intros (s & e & Hse & [-> | ->]); exists s, e; tauto.
Qed.

Lemma cover_align (query : list ascii) (idx : gmap Z RefSeq)
    (pieces : list (list ascii)) :
  valid_dna query → Z.of_nat (length query) ≤ 2 ^ 31 →
  is_cover idx query pieces →
  ∃ segs, align query idx = Some (Ok segs) ∧
          (length segs ≤ length pieces)%nat ∧
          is_cover idx query (pieces_of query segs).
Proof.
  intros Hvq Hfit [Hcat Hall].
  destruct (align_defined query idx Hvq)
    as (dp & trace & Hst & Hpl & Hal & Hcases).
  rewrite (nstarts_fits_int query Hfit) in Hpl.
  pose proof (planned_lower_bound idx query dp trace Hpl pieces 0 ltac:(lia)
                ltac:(by rewrite drop_0) Hall) as Hlow.
  pose proof (hashed_pieces_length idx pieces Hall) as Hle.
  rewrite Hcat in Hle.
  destruct Hcases as [(segs & Hok & Hchain) | (_ & Hnone & Hne)].
  - exists segs. split; [done|].
    destruct (align_Ok_chain query idx segs Hok)
      as (dp' & trace' & Hst' & _ & Hlen).
    rewrite Hst in Hst'. injection Hst' as <- <-. split; [lia|].
    destruct (chain_pieces idx query 0 segs Hchain) as [Hc Ha].
    split; [by rewrite Hc, drop_0 | done].
  - exfalso.
    assert (Hlen : (0 < length query)%nat)
      by (destruct query; cbn; [done | lia]).
    pose proof (planned_decision idx query _ dp trace Hpl (Nat.le_refl _) 0
                  Hlen) as Hd.
    rewrite Hnone in Hd. rewrite Hd in Hlow.
    assert (2 ^ 31 < UNREACHABLE) by (by vm_compute). lia.
Qed.

(** X23: the index of a reference and the index of its reverse complement
    have the same keys, and a query of at most 2^31 symbols over A/T/C/G
    that aligns against the one aligns against the other with the same
    number of segments. *)
Theorem align_strand_symmetric (r query : list ascii)
    (segs : list MatchSegment) :
  valid_dna r → valid_dna query →
  Z.of_nat (length query) ≤ 2 ^ 31 →
  align_with r query = Some (Ok segs) →
  ∃ idx idx' segs',
    build_index r = Ok idx ∧ build_index (revcomp r) = Ok idx' ∧
    dom idx = dom idx' ∧
    align_with (revcomp r) query = Some (Ok segs') ∧
    length segs' = length segs.
Proof.
  intros Hvr Hvq Hfit Hal.
  destruct (build_index_lookup r Hvr) as (fwd & idx & _ & _ & Hidx & _).
  destruct (build_index_lookup (revcomp r) (valid_dna_revcomp r Hvr))
    as (fwd' & idx' & _ & _ & Hidx' & _).
  pose proof (build_index_keys_symmetric r idx idx') as Hsym.
  assert (Hhashed : ∀ w, hashed idx w ↔ hashed idx' w).
  { intros w. unfold hashed. by rewrite (Hsym _ Hvr Hidx Hidx'). }
  assert (Hcover : ∀ pieces, is_cover idx query pieces ↔
                             is_cover idx' query pieces).
  { intros pieces. unfold is_cover.
    split; intros [Hc Ha]; (split; [done|]);
      (eapply Forall_impl; [exact Ha|]); intros w; apply Hhashed. }
  unfold align_with in Hal. rewrite Hidx in Hal.
  destruct (align_Ok_chain query idx segs Hal) as (dp & trace & _ & Hchain & _).
  destruct (chain_pieces idx query 0 segs Hchain) as [Hcat Hall].
  assert (Hcov : is_cover idx query (pieces_of query segs))
    by (split; [by rewrite Hcat, drop_0 | done]).
  destruct (cover_align query idx' _ Hvq Hfit (proj1 (Hcover _) Hcov))
    as (segs' & Hal' & Hle' & Hcov').
  destruct (cover_align query idx _ Hvq Hfit (proj2 (Hcover _) Hcov'))
    as (segs2 & Hal2 & Hle2 & _).
  rewrite Hal in Hal2. injection Hal2 as <-.
  unfold pieces_of in Hle', Hle2. rewrite length_map in Hle', Hle2.
  exists idx, idx', segs'. split_and!; try done.
  - apply set_eq. intros h. rewrite !elem_of_dom. by apply Hsym.
  - unfold align_with. by rewrite Hidx'.
  - lia.
Qed.

Lemma align_strand_symmetric_witness :
  valid_dna (dna "ATCG") ∧ valid_dna (dna "GATC") ∧
  Z.of_nat (length (dna "GATC")) ≤ 2 ^ 31 ∧
  ∃ segs segs',
    align_with (dna "ATCG") (dna "GATC") = Some (Ok segs) ∧
    align_with (revcomp (dna "ATCG")) (dna "GATC") = Some (Ok segs') ∧
    length segs' = length segs.
Proof.
  assert (Hvr : valid_dna (dna "ATCG")) by (by apply valid_dna_literal).
  assert (Hvq : valid_dna (dna "GATC")) by (by apply valid_dna_literal).
  assert (Hfit : Z.of_nat (length (dna "GATC")) ≤ 2 ^ 31)
    by (vm_compute; discriminate).
  split; [exact Hvr|]. split; [exact Hvq|]. split; [exact Hfit|].
  destruct (align_with (dna "ATCG") (dna "GATC")) as [[segs|]|] eqn:Hal;
    [|vm_compute in Hal; discriminate..].
  destruct (align_strand_symmetric _ _ _ Hvr Hvq Hfit Hal)
    as (idx & idx' & segs' & _ & _ & _ & Hal' & Hlen).
  exists segs, segs'. split; [reflexivity|]. split; [exact Hal' | exact Hlen].
Defined.

(** ** A query that occurs in the reference *)

Lemma occurs_in_substring (w sq : list ascii) :
  w ≠ [] → occurs_in w sq →
  ∃ s e, (s ≤ e < length sq)%nat ∧ substring sq s e = w.
Proof.
  intros Hne (pre & post & ->).
  assert (Hlen : (0 < length w)%nat) by (destruct w; cbn; [done | lia]).
  exists (length pre), (length pre + length w - 1)%nat. split.
  - rewrite !length_app. lia.
  - unfold substring. rewrite drop_app_length.
    replace (S (length pre + length w - 1) - length pre)%nat
      with (length w) by lia.
    by rewrite take_app_length.
Qed.

(** X24: a non-empty query of at most 2^31 symbols that occurs in the
    reference (over A/T/C/G) as a substring is aligned as exactly one
    segment, covering the whole query, on the forward strand; the
    reference text at the reported location has the rolling hash of the
    query, and is the query itself when the reference has at most 18
    symbols. *)
Theorem occurring_query_single_segment (r query : list ascii) :
  valid_dna r → Z.of_nat (length r) < 2 ^ 64 →
  query ≠ [] → occurs_in query r →
  Z.of_nat (length query) ≤ 2 ^ 31 →
  ∃ loc,
    align_with r query
    = Some (Ok [mkMatchSegment loc 0 (Z.of_nat (length query) - 1)]) ∧
    rs_reverse loc = false ∧
    0 ≤ rs_start loc ∧ rs_start loc ≤ rs_end loc ∧
    rs_end loc < Z.of_nat (length r) ∧
    rolling_hash (strand_text r loc) = rolling_hash query ∧
    ((length r ≤ 18)%nat → strand_text r loc = query).
Proof.
  intros Hvr Hn Hne Hocc Hfit.
  assert (Hvq : valid_dna query).
  { destruct Hocc as (pre & post & Hr). rewrite Hr in Hvr.
    apply Forall_app in Hvr as [_ Hvr]. by apply Forall_app in Hvr as [Hvr _]. }
  assert (Hlq : (0 < length query)%nat)
    by (destruct query; cbn; [done | lia]).
  assert (Hlr : (length query ≤ length r)%nat).
  { destruct Hocc as (pre & post & Hr). apply (f_equal length) in Hr.
    rewrite !length_app in Hr. lia. }
  destruct (occurs_in_substring query r Hne Hocc) as (s & e & Hse & Hsub).
  destruct (build_index_lookup r Hvr) as (fwd & idx & _ & _ & Hidx & Hlook).
  assert (Hoffer : index_entry false r (s, e) ∈ index_entries false r)
    by (apply elem_of_index_entries; eauto).
  unfold index_entry in Hoffer. cbn [fst snd] in Hoffer. rewrite Hsub in Hoffer.
  apply first_writer_is_Some in Hoffer as [loc Hfw].
  assert (Hloc : idx !! rolling_hash query = Some loc)
    by (by rewrite Hlook, first_writer_app, Hfw).
  destruct (first_writer_in_bounds false r _ loc Hn Hfw) as (_ & _ & _ & Hfwd).
  destruct (build_index_entry_sound r idx _ loc Hvr Hn Hidx Hloc)
    as (H0 & H1 & H2 & Hh & Hoc).
  (* the planner's decision at position 0 *)
  destruct (find_optimal_path_state_total query idx Hvq)
    as (dp & trace & Hst & Hpl).
  rewrite (nstarts_fits_int query Hfit) in Hpl.
  pose proof Hpl as (Hldp & Hltr & Hlast & Htlast & Hnot & Hdone).
  pose proof (Hdone 0%nat Hlq) as Hb. rewrite drop_0 in Hb.
  change (Z.of_nat 0) with 0 in Hb.
  set (b := best_end idx dp 0 query 0 0 (UNREACHABLE, None)) in *.
  set (k := (length query - 1)%nat).
  assert (Hcand : is_cand idx query 0 k loc).
  { split; [unfold k; lia|]. unfold k.
    replace (S (length query - 1)) with (length query) by lia.
    by rewrite firstn_all. }
  assert (Hck : cand_cost dp 0 k = 1).
  { unfold cand_cost, k.
    replace (Z.to_nat (0 + Z.of_nat (length query - 1) + 1))
      with (length query) by lia.
    rewrite Hlast. reflexivity. }
  assert (Hb1 : b.1 = 1).
  { pose proof (best_end_opt idx dp 0 query 0 0 (UNREACHABLE, None) k loc Hcand)
      as Hopt. fold b in Hopt. rewrite Hck in Hopt.
    destruct (best_end_decision idx dp 0 query 0 0 (UNREACHABLE, None))
      as [Hc | (k' & r' & [Hk' _] & Hc)]; fold b in Hc; rewrite Hc in *.
    - cbn [fst] in Hopt. assert (1 < UNREACHABLE) by (by vm_compute). lia.
    - cbn [fst] in *. unfold cand_cost in *.
      pose proof (planned_dp_range idx query _ dp trace Hpl (Nat.le_refl _)
                    (Z.to_nat (0 + Z.of_nat k' + 1)) ltac:(lia)) as Hrg.
      rewrite wrap64_small in * by (unfold UNREACHABLE in Hrg; lia). lia. }
  destruct (best_end_forward_last idx dp 0 query 0 0 (UNREACHABLE, None)
              k loc Hcand Hfwd)
    as (k' & r' & Hk' & [Hlt' Hr'] & _ & Hbest).
  { fold b. by rewrite Hck, Hb1. }
  fold b in Hbest.
  assert (k' = k) as -> by (unfold k in *; lia).
  assert (r' = loc) as ->.
  { destruct Hcand as [_ Hr]. rewrite Hr in Hr'. by injection Hr'. }
  assert (Ht0 : trace !! 0%nat
                = Some (Some (mkTrace loc (Z.of_nat (length query)) 0
                                (Z.of_nat (length query) - 1)))).
  { rewrite (list_lookup_lookup_total_lt trace 0) by lia.
    replace (trace !!! 0%nat) with b.2 by (by rewrite <- Hb).
    rewrite Hbest. cbn [snd]. unfold cand_trace, k. do 3 f_equal; lia. }
  exists loc. split_and!; try done.
  - unfold align_with. rewrite Hidx. unfold align.
    rewrite (find_optimal_path_trace _ _ _ _ Hst). unfold reconstruct_path.
    destruct (length query) as [|n] eqn:Hlen; [lia|].
    cbn [reconstruct_loop].
    replace (0 <? Z.of_nat (S n)) with true by (symmetry; apply Z.ltb_lt; lia).
    change (Z.to_nat 0) with 0%nat. rewrite Ht0.
    cbn [t_next t_ref_seq t_query_start t_query_end app].
    destruct n; cbn [reconstruct_loop]; by rewrite Z.ltb_irrefl.
  - intros Hshort. apply rolling_hash_short_inj; try done.
    + destruct Hoc as [(pre & post & Hr) | (pre & post & Hr)].
      * rewrite Hr in Hvr. apply Forall_app in Hvr as [_ Hv].
        by apply Forall_app in Hv as [Hv _].
      * pose proof (valid_dna_revcomp r Hvr) as Hv'. rewrite Hr in Hv'.
        apply Forall_app in Hv' as [_ Hv'].
        by apply Forall_app in Hv' as [Hv' _].
    + destruct Hoc as [(pre & post & Hr) | (pre & post & Hr)];
        apply (f_equal length) in Hr;
        rewrite ?length_revcomp, !length_app in Hr; lia.
    + lia.
Qed.

Lemma occurring_query_single_segment_witness :
  valid_dna (dna "GATTACA") ∧ Z.of_nat (length (dna "GATTACA")) < 2 ^ 64 ∧
  dna "TTAC" ≠ [] ∧ occurs_in (dna "TTAC") (dna "GATTACA") ∧
  Z.of_nat (length (dna "TTAC")) ≤ 2 ^ 31 ∧
  ∃ loc, align_with (dna "GATTACA") (dna "TTAC")
         = Some (Ok [mkMatchSegment loc 0 3]) ∧
         strand_text (dna "GATTACA") loc = dna "TTAC".
Proof.
  assert (Hv : valid_dna (dna "GATTACA")) by (by apply valid_dna_literal).
  assert (Hn : Z.of_nat (length (dna "GATTACA")) < 2 ^ 64) by (cbn; lia).
  assert (Hne : dna "TTAC" ≠ []) by discriminate.
  assert (Hocc : occurs_in (dna "TTAC") (dna "GATTACA"))
    by (exists (dna "GA"), (dna "A"); reflexivity).
  assert (Hfit : Z.of_nat (length (dna "TTAC")) ≤ 2 ^ 31)
    by (vm_compute; discriminate).
  split; [exact Hv|]. split; [exact Hn|]. split; [exact Hne|].
  split; [exact Hocc|]. split; [exact Hfit|].
  destruct (occurring_query_single_segment _ _ Hv Hn Hne Hocc Hfit)
    as (loc & Hal & _ & _ & _ & _ & _ & Hexact).
  exists loc. split; [exact Hal|]. apply Hexact. cbn. lia.
Defined.
